(** * The CNOT-Dihedral operator class of qiskit-terra

    A shallow embedding of
    [qiskit/quantum_info/operators/dihedral/dihedral.py], the properties
    its specification states about it and further properties of the code.

    An element of the CNOT-Dihedral group on [N] qubits is stored as an
    affine function over GF(2) (an [N x N] binary matrix [linear] and a
    binary vector [shift]) and a phase polynomial of degree at most 3 in
    [N] boolean variables with coefficients in Z/8.

    Conventions of the embedding.
    - Python integers and NumPy integers are [Z].  The arrays of the class
      have dtype [int8]; every value the class stores is reduced modulo 2
      or modulo 8 right after it is computed, and both moduli divide 256,
      so the wrap-around of [int8] sums and products never shows
      (lemma [wrap8_mod] below).
    - A one-dimensional array is a [seq Z], a matrix a [seq (seq Z)] in
      row-major order.  [shift] is the one attribute that the class stores
      sometimes as a NumPy array and sometimes as a Python list; it is a
      [pyseq], which keeps the difference.
    - A method that may raise returns a [result]; a method that mutates
      [self] returns the new state next to its outcome.
    - The determinant is the exact integer determinant, where the source
      calls the floating point [np.linalg.det] and compares its residue
      modulo 2 with 1 by [np.allclose].  The two agree where the floating
      point computation is exact: on the identity, which the constructor
      validates, on a matrix with a row of zeros and on the matrices of
      two or three rows of the examples.  They differ on large matrices:
      the determinant of 34 diagonal blocks of the 4 x 4 matrix of ones
      off the diagonal is [3 ^ 34], an odd number above [2 ^ 53], which no
      double holds.  The theorems below therefore conclude the predicate
      [valid], over the integers, and state an answer of [_is_valid] at
      inputs of the first kind only, or an answer that does not depend on
      the determinant. *)

From Stdlib Require Import ZArith Lia String DecimalString.
From HB Require Import structures.
From mathcomp Require Import ssreflect ssrfun ssrbool eqtype ssrnat seq div path.
From mathcomp Require Import choice fintype bigop binomial finfun.
From mathcomp Require Import ssralg zmodp matrix.

Set Implicit Arguments.
Unset Strict Implicit.
Unset Printing Implicit Defensive.

(** ** Exceptions and results *)

Inductive exn : Type :=
  | QiskitError (msg : string)
  | NotImplementedError (msg : string)
  | AttributeError (msg : string)
  | ValueError (msg : string).

Inductive result (A : Type) : Type :=
  | Ok (a : A)
  | Raise (e : exn).

Arguments Ok {A} a.
Arguments Raise {A} e.

Definition bind {A B : Type} (c : result A) (k : A -> result B) : result B :=
  match c with
  | Ok a => k a
  | Raise e => Raise e
  end.

Notation "'let?' x ':=' c 'in' k" := (bind c (fun x => k))
  (at level 10, x name, c at level 100, k at level 200).

(** ** Integers, vectors and matrices *)

HB.instance Definition _ := hasDecEq.Build Z Z.eqb_spec.

Definition sumz (s : seq Z) : Z := foldr Z.add 0%Z s.

(** The value an [int8] cell holds after the exact result [z] is stored. *)
Definition wrap8 (z : Z) : Z := ((z + 128) mod 256 - 128)%Z.

(** [shift] as the class stores it: [np.zeros], [np.block] and item
    assignment give or keep an array, the list comprehension of [_dot] and
    [_compose] gives a list. *)
Inductive pyseq : Type :=
  | NdArray (a : seq Z)
  | PyList (a : seq Z).

Definition items (v : pyseq) : seq Z :=
  match v with
  | NdArray a => a
  | PyList a => a
  end.

Definition is_ndarray (v : pyseq) : bool :=
  if v is NdArray _ then true else false.

(** [v[j] = x], for [j] in range; the container keeps its kind. *)
Definition setitem (v : pyseq) (j : nat) (x : Z) : pyseq :=
  match v with
  | NdArray a => NdArray (set_nth 0%Z a j x)
  | PyList a => PyList (set_nth 0%Z a j x)
  end.

(** [v.flatten()]: a method of arrays, which lists do not have. *)
Definition flatten_method (v : pyseq) : result (seq Z) :=
  match v with
  | NdArray a => Ok a
  | PyList _ => Raise (AttributeError "list object has no attribute flatten")
  end.

Definition matrix : Type := seq (seq Z).

Definition row (m : matrix) (i : nat) : seq Z := nth [::] m i.
Definition entry (m : matrix) (i j : nat) : Z := nth 0%Z (row m i) j.
Definition col (m : matrix) (j : nat) : seq Z := [seq nth 0%Z r j | r <- m].
Definition ncols (m : matrix) : nat := size (head [::] m).

(** [m.shape == (r, c)] for a two-dimensional array. *)
Definition has_shape (m : matrix) (r c : nat) : bool :=
  (size m == r) && all (fun x => size x == c) m.

Definition dotp (u v : seq Z) : Z := sumz [seq (x.1 * x.2)%Z | x <- zip u v].

(** [np.dot] of a matrix and a vector, and of two matrices. *)
Definition np_dot_mv (m : matrix) (v : seq Z) : seq Z := [seq dotp r v | r <- m].

Definition np_dot_mm (a b : matrix) : matrix :=
  [seq [seq dotp r (col b j) | j <- iota 0 (ncols b)] | r <- a].

(** [np.eye(n)] and [np.zeros(n)]. *)
Definition np_eye (n : nat) : matrix :=
  [seq [seq (if i == j then 1%Z else 0%Z) | j <- iota 0 n] | i <- iota 0 n].

Definition np_zeros (n : nat) : seq Z := nseq n 0%Z.

(** [np.arange(n)[np.nonzero(r)]]: the indices below [n] where [r] is not 0. *)
Definition support_of (n : nat) (r : seq Z) : seq nat :=
  [seq j <- iota 0 n | nth 0%Z r j != 0%Z].

(** [itertools.combinations(s, r)]. *)
Fixpoint combinations (T : Type) (s : seq T) (r : nat) {struct s} : seq (seq T) :=
  match s, r with
  | _, 0 => [:: [::]]
  | [::], _.+1 => [::]
  | x :: s', r'.+1 => [seq x :: c | c <- combinations s' r'] ++ combinations s' r
  end.

(** The exact determinant, by expansion along the first row. *)
Definition delete_nth (T : Type) (j : nat) (s : seq T) : seq T :=
  take j s ++ drop j.+1 s.

Definition sign (j : nat) : Z := if odd j then (-1)%Z else 1%Z.

Fixpoint det_rec (n : nat) (m : matrix) {struct n} : Z :=
  match n, m with
  | n'.+1, r :: rest =>
      sumz [seq (sign j * nth 0%Z r j
                 * det_rec n' [seq delete_nth j x | x <- rest])%Z
           | j <- iota 0 n]
  | _, _ => 1%Z
  end.

Definition det (m : matrix) : Z := det_rec (size m) m.

(** ** The phase polynomial

    [polynomial.py] is not part of the sources at hand; the class
    [SpecialPolynomial] is modelled from sections 3 and 4.2 of the
    specification.  Its four attributes are the ones [_is_valid] reads. *)

(** Modelled from the spec: the class [SpecialPolynomial] of
    [polynomial.py]: a constant in Z/8 and one coefficient for every set
    of one, two or three of the [n_vars] variables. *)
Record SpecialPolynomial : Type := mkPoly {
  n_vars : nat;
  weight_0 : Z;
  weight_1 : seq Z;
  weight_2 : seq Z;
  weight_3 : seq Z
}.

(** Modelled from the spec: the index lists that address the coefficients
    of [polynomial.py]: the sorted lists of [k] out of [n] variables, in
    the order of [itertools.combinations(range(n), k)], and all index
    lists of a polynomial, the empty one for the constant first. *)
Definition monomials (n k : nat) : seq (seq nat) := combinations (iota 0 n) k.

Definition terms (n : nat) : seq (seq nat) :=
  [::] :: monomials n 1 ++ monomials n 2 ++ monomials n 3.

(** Modelled from the spec: the array of [polynomial.py] that holds the
    coefficients of degree [k], and its assignment. *)
Definition weight (p : SpecialPolynomial) (k : nat) : seq Z :=
  match k with
  | 1 => weight_1 p
  | 2 => weight_2 p
  | 3 => weight_3 p
  | _ => [::]
  end.

Definition set_weight (p : SpecialPolynomial) (k : nat) (w : seq Z) :
  SpecialPolynomial :=
  match k with
  | 1 => mkPoly (n_vars p) (weight_0 p) w (weight_2 p) (weight_3 p)
  | 2 => mkPoly (n_vars p) (weight_0 p) (weight_1 p) w (weight_3 p)
  | 3 => mkPoly (n_vars p) (weight_0 p) (weight_1 p) (weight_2 p) w
  | _ => p
  end.

(** The assignment [p.weight_0 = value] of [dihedral.py]. *)
Definition set_weight_0 (p : SpecialPolynomial) (value : Z) : SpecialPolynomial :=
  mkPoly (n_vars p) value (weight_1 p) (weight_2 p) (weight_3 p).

(** Modelled from the spec: [SpecialPolynomial.get_term], which addresses
    one coefficient by the sorted list of its variables.  The coefficient
    of a list of [k] variables sits in the array of degree [k] at the rank
    of the list among [monomials n k]. *)
Definition get_term (p : SpecialPolynomial) (indices : seq nat) : Z :=
  if indices is [::] then weight_0 p
  else nth 0%Z (weight p (size indices))
               (index indices (monomials (n_vars p) (size indices))).

(** Modelled from the spec: [SpecialPolynomial.set_term].  An index list
    that is no sorted list of one to three variables below [n_vars] is
    outside the contract of the method; the model leaves the polynomial as
    it is there, and no call of [dihedral.py] passes one. *)
Definition set_term (p : SpecialPolynomial) (indices : seq nat) (value : Z) :
  SpecialPolynomial :=
  if indices is [::] then set_weight_0 p value
  else
    let k := size indices in
    if indices \in monomials (n_vars p) k then
      set_weight p k
        (set_nth 0%Z (weight p k) (index indices (monomials (n_vars p) k)) value)
    else p.

(** Modelled from the spec: the polynomial of [polynomial.py] on [n]
    variables whose coefficient at the term [t] is [f t]. *)
Definition poly_of_fun (n : nat) (f : seq nat -> Z) : SpecialPolynomial :=
  mkPoly n (f [::]) [seq f t | t <- monomials n 1]
         [seq f t | t <- monomials n 2] [seq f t | t <- monomials n 3].

(** Modelled from the spec: the constructor [SpecialPolynomial(n)], the
    zero polynomial with [n], [C(n,2)] and [C(n,3)] coefficients. *)
Definition SpecialPolynomial_new (n : nat) : SpecialPolynomial :=
  mkPoly n 0%Z (nseq n 0%Z) (nseq 'C(n, 2) 0%Z) (nseq 'C(n, 3) 0%Z).

Definition zip_with (f : Z -> Z -> Z) (u v : seq Z) : seq Z :=
  [seq f x.1 x.2 | x <- zip u v].

(** Modelled from the spec: [SpecialPolynomial.__add__], the sum of the
    coefficients of each term modulo 8. *)
Definition poly_add (p q : SpecialPolynomial) : SpecialPolynomial :=
  let add8 x y := ((x + y) mod 8)%Z in
  mkPoly (n_vars p) (add8 (weight_0 p) (weight_0 q))
         (zip_with add8 (weight_1 p) (weight_1 q))
         (zip_with add8 (weight_2 p) (weight_2 q))
         (zip_with add8 (weight_3 p) (weight_3 q)).

(** Modelled from the spec: the product [c * p] of a polynomial with an
    integer, every coefficient modulo 8. *)
Definition poly_scale (c : Z) (p : SpecialPolynomial) : SpecialPolynomial :=
  let scale8 x := ((c * x) mod 8)%Z in
  mkPoly (n_vars p) (scale8 (weight_0 p)) [seq scale8 x | x <- weight_1 p]
         [seq scale8 x | x <- weight_2 p] [seq scale8 x | x <- weight_3 p].

(** Modelled from the spec: the variables of the product of two monomials
    of [polynomial.py] in boolean variables. *)
Definition munion (n : nat) (a b : seq nat) : seq nat :=
  [seq i <- iota 0 n | (i \in a) || (i \in b)].

(** Modelled from the spec: the product of two polynomials in boolean
    variables ([x * x] is [x]) modulo 8, re-expanded, without the
    monomials of degree above 3. *)
Definition poly_mul (p q : SpecialPolynomial) : SpecialPolynomial :=
  let n := n_vars p in
  poly_of_fun n (fun t =>
    (sumz [seq (if munion n a b == t then get_term p a * get_term q b else 0)%Z
          | a <- terms n, b <- terms n] mod 8)%Z).

(** Modelled from the spec: the coefficient of the term [t] in the parity
    polynomial [p_J] of [polynomial.py]: [(-2)^(|t|-1)] modulo 8 when [t]
    is a non-empty subset of [J]. *)
Definition pj_coeff (J t : seq nat) : Z :=
  if (t != [::]) && all (fun i => i \in J) t
  then ((-2) ^ Z.of_nat (size t).-1 mod 8)%Z else 0%Z.

(** Modelled from the spec: [SpecialPolynomial.set_pj], which overwrites
    the polynomial with the parity polynomial [p_J] of [indices]. *)
Definition set_pj (p : SpecialPolynomial) (indices : seq nat) :
  SpecialPolynomial :=
  poly_of_fun (n_vars p) (pj_coeff indices).

(** Modelled from the spec: the constant polynomial 1 of [polynomial.py],
    from which [evaluate] starts its products. *)
Definition poly_one (n : nat) : SpecialPolynomial :=
  set_term (SpecialPolynomial_new n) [::] 1%Z.

(** Modelled from the spec: [SpecialPolynomial.evaluate]: every variable
    [j] of [p] is replaced by the polynomial [xval[j]], and the result is
    re-expanded: the sum over the terms of [p] with a coefficient other
    than 0 of the coefficient times the product of the substituted
    variables. *)
Definition evaluate (p : SpecialPolynomial) (xval : seq SpecialPolynomial) :
  SpecialPolynomial :=
  let n := n_vars p in
  foldl (fun acc t =>
           let value := get_term p t in
           if value == 0%Z then acc
           else
             let newterm :=
               foldl poly_mul (poly_one n)
                     [seq nth (SpecialPolynomial_new n) xval j | j <- t] in
             poly_add acc (poly_scale value newterm))
        (SpecialPolynomial_new n) (terms n).

(** Modelled from the spec: [SpecialPolynomial.__eq__]. *)
Definition poly_eq (p q : SpecialPolynomial) : bool :=
  [&& n_vars p == n_vars q, weight_0 p == weight_0 q,
      weight_1 p == weight_1 q, weight_2 p == weight_2 q &
      weight_3 p == weight_3 q].

(** ** The class [CNOTDihedral] *)

(** An element: [num_qubits] is the read-only property of [BaseOperator],
    the other three are the attributes the methods read and assign. *)
Record CNOTDihedral : Type := mkElem {
  num_qubits : nat;
  linear : matrix;
  shift : pyseq;
  poly : SpecialPolynomial
}.

(** The attributes of [self] while [__init__] runs: an attribute exists
    once it has been assigned, and reading one that does not exist raises
    [AttributeError]. *)
Record instance : Type := mkInstance {
  _num_qubits : option nat;
  attr_linear : option matrix;
  attr_shift : option pyseq;
  attr_poly : option SpecialPolynomial
}.

Definition getattr (A : Type) (name : string) (a : option A) : result A :=
  if a is Some x then Ok x else Raise (AttributeError name).

(** The argument [data] of the constructor.  Circuits, instructions,
    [ScalarOp] and [Pauli] objects belong to other modules and are not
    embedded. *)
Inductive init_data : Type :=
  | NoData
  | FromElement (e : CNOTDihedral)
  | OtherObject.

Definition _z2matmul (left right : matrix) : matrix :=
  [seq [seq (x mod 2)%Z | x <- r] | r <- np_dot_mm left right].

Definition _z2matvecmul (mat : matrix) (vec : seq Z) : seq Z :=
  [seq (x mod 2)%Z | x <- np_dot_mv mat vec].

Definition subset_of (s allowed : seq Z) : bool :=
  all (fun x => x \in allowed) s.

(** [_is_valid].  The last test of the second [if] is on the exact
    determinant (see the conventions above); the last [if] calls
    [self.shift.flatten()], which a list does not have. *)
Definition _is_valid (self : CNOTDihedral) : result bool :=
  let n := num_qubits self in
  let p := poly self in
  if [|| weight_0 p != 0%Z,
         size (weight_1 p) != n,
         size (weight_2 p) != (n * (n - 1)) %/ 2
       | size (weight_3 p) != (n * (n - 1) * (n - 2)) %/ 6]
  then Ok false
  else if [|| ~~ has_shape (linear self) n n,
              size (items (shift self)) != n
            | (det (linear self) mod 2)%Z != 1%Z]
  then Ok false
  else if [|| ~~ subset_of (weight_1 p) [:: 0; 1; 2; 3; 4; 5; 6; 7]%Z,
              ~~ subset_of (weight_2 p) [:: 0; 2; 4; 6]%Z
            | ~~ subset_of (weight_3 p) [:: 0; 4]%Z]
  then Ok false
  else
    let? s := flatten_method (shift self) in
    if ~~ subset_of s [:: 0; 1]%Z
       || ~~ subset_of (flatten (linear self)) [:: 0; 1]%Z
    then Ok false
    else Ok true.

(** [CNOTDihedral(data, num_qubits, validate)].  [num_qubits] of [None] or
    0 is false in the test [if num_qubits:]. *)
Definition __init__ (data : init_data) (num_qubits : option nat)
  (validate : bool) : result CNOTDihedral :=
  let? self :=
    match num_qubits with
    | Some (n.+1 as N) =>
        Ok (mkInstance (Some N) (Some (np_eye N)) (Some (NdArray (np_zeros N)))
                       (Some (SpecialPolynomial_new N)))
    | _ =>
        match data with
        | FromElement d =>
            Ok (mkInstance None (Some (linear d)) (Some (shift d))
                           (Some (poly d)))
        | _ => Raise (QiskitError "Invalid input type for CNOTDihedral class.")
        end
    end in
  (* super().__init__(num_qubits=self._num_qubits) *)
  let? n := getattr "_num_qubits" (_num_qubits self) in
  let? l := getattr "linear" (attr_linear self) in
  let? s := getattr "shift" (attr_shift self) in
  let? p := getattr "poly" (attr_poly self) in
  let elem := mkElem n l s p in
  if validate then
    let? ok := _is_valid elem in
    if ~~ ok then Raise (QiskitError "Invalid CNOTDihedral element.")
    else Ok elem
  else Ok elem.

(** The body of the loop of [_dot] and [_compose]: the polynomial on [n]
    variables substituted for one variable, from a row of [linear] read
    through [np.arange(m)] and the bit of [shift] of the same index.  It is
    the parity polynomial of the support of the row, negated and with 1
    added to its constant when the bit is 1. *)
Definition new_var (n m : nat) (linear_i : seq Z) (shift_i : Z) :
  SpecialPolynomial :=
  let support := support_of m linear_i in
  let poly := set_pj (SpecialPolynomial_new n) support in
  if shift_i == 1%Z then
    let poly := poly_scale (-1) poly in
    set_weight_0 poly ((weight_0 poly + 1) mod 8)%Z
  else poly.

Definition _dot (self other : CNOTDihedral) : result CNOTDihedral :=
  if num_qubits self != num_qubits other then
    Raise (QiskitError "Multiplication on different number of qubits.")
  else
    let? result := __init__ NoData (Some (num_qubits self)) true in
    let result_shift :=
      PyList [seq ((x.1 + x.2) mod 2)%Z
             | x <- zip (_z2matvecmul (linear self) (items (shift other)))
                        (items (shift self))] in
    let result_linear := _z2matmul (linear self) (linear other) in
    let new_vars :=
      [seq new_var (num_qubits self) (num_qubits self) (row (linear other) i)
                   (nth 0%Z (items (shift other)) i)
      | i <- iota 0 (num_qubits self)] in
    let result_poly := poly_add (poly other) (evaluate (poly self) new_vars) in
    Ok (mkElem (num_qubits result) result_linear result_shift result_poly).

Definition _compose (self other : CNOTDihedral) : result CNOTDihedral :=
  if num_qubits self != num_qubits other then
    Raise (QiskitError "Multiplication on different number of qubits.")
  else
    let? result := __init__ NoData (Some (num_qubits self)) true in
    let result_shift :=
      PyList [seq ((x.1 + x.2) mod 2)%Z
             | x <- zip (_z2matvecmul (linear other) (items (shift self)))
                        (items (shift other))] in
    let result_linear := _z2matmul (linear other) (linear self) in
    let new_vars :=
      [seq new_var (num_qubits self) (num_qubits other) (row (linear self) i)
                   (nth 0%Z (items (shift self)) i)
      | i <- iota 0 (num_qubits self)] in
    let result_poly := poly_add (poly self) (evaluate (poly other) new_vars) in
    Ok (mkElem (num_qubits result) result_linear result_shift result_poly).

(** [a == b] on [shift]: element by element as soon as one side is an
    array, one boolean for two lists; [.all()] exists on the first only. *)
Definition shift_eq_all (a b : pyseq) : result bool :=
  match a, b with
  | PyList _, PyList _ => Raise (AttributeError "bool object has no attribute all")
  | _, _ => Ok (items a == items b)
  end.

(** [self == other] for an [other] of the class, with [linear] of the same
    shape on both sides. *)
Definition __eq__ (self other : CNOTDihedral) : result bool :=
  if ~~ poly_eq (poly self) (poly other) then Ok false
  else if ~~ (linear self == linear other) then Ok false
  else shift_eq_all (shift self) (shift other).

Definition in_bounds (i : Z) (n : nat) : bool :=
  (0 <=? i)%Z && (i <? Z.of_nat n)%Z.

Definition set_linear (self : CNOTDihedral) (l : matrix) : CNOTDihedral :=
  mkElem (num_qubits self) l (shift self) (poly self).

Definition set_shift (self : CNOTDihedral) (s : pyseq) : CNOTDihedral :=
  mkElem (num_qubits self) (linear self) s (poly self).

Definition set_poly (self : CNOTDihedral) (p : SpecialPolynomial) :
  CNOTDihedral :=
  mkElem (num_qubits self) (linear self) (shift self) p.

(** The mutators return their outcome and the state of [self] after the
    call.  Once the guard has passed, the indices are in the range of
    arrays of the shapes the class gives them, where an item assignment
    replaces one row or one entry. *)
Definition _append_cx (self : CNOTDihedral) (i j : Z) :
  result unit * CNOTDihedral :=
  if ~~ in_bounds i (num_qubits self) || ~~ in_bounds j (num_qubits self) then
    (Raise (QiskitError "CX qubits are out of bounds."), self)
  else
    let i := Z.to_nat i in
    let j := Z.to_nat j in
    let self :=
      set_linear self
        (set_nth [::] (linear self) j
           (zip_with (fun x y => ((x + y) mod 2)%Z)
                     (row (linear self) i) (row (linear self) j))) in
    let self :=
      set_shift self
        (setitem (shift self) j
           ((nth 0%Z (items (shift self)) i + nth 0%Z (items (shift self)) j)
              mod 2)%Z) in
    (Ok tt, self).

Definition _append_phase (self : CNOTDihedral) (k i : Z) :
  result unit * CNOTDihedral :=
  if ~~ in_bounds i (num_qubits self) then
    (Raise (QiskitError "phase qubit out of bounds."), self)
  else
    let i := Z.to_nat i in
    let k := if nth 0%Z (items (shift self)) i == 1%Z then ((7 * k) mod 8)%Z
             else k in
    let support := support_of (num_qubits self) (row (linear self) i) in
    let subsets_2 := combinations support 2 in
    let subsets_3 := combinations support 3 in
    let p :=
      foldl (fun p j => set_term p [:: j] ((get_term p [:: j] + k) mod 8)%Z)
            (poly self) support in
    let p :=
      foldl (fun p j => set_term p j ((get_term p j + -2 * k) mod 8)%Z)
            p subsets_2 in
    let p :=
      foldl (fun p j => set_term p j ((get_term p j + 4 * k) mod 8)%Z)
            p subsets_3 in
    (Ok tt, set_poly self p).

Definition _append_x (self : CNOTDihedral) (i : Z) :
  result unit * CNOTDihedral :=
  if ~~ in_bounds i (num_qubits self) then
    (Raise (QiskitError "X qubit out of bounds."), self)
  else
    let i := Z.to_nat i in
    (Ok tt,
     set_shift self
       (setitem (shift self) i ((nth 0%Z (items (shift self)) i + 1) mod 2)%Z)).

Definition compose (self other : CNOTDihedral) (qargs : option (seq nat))
  (front : bool) : result CNOTDihedral :=
  if qargs is Some _ then
    Raise (NotImplementedError "compose method does not support qargs.")
  else if num_qubits self != num_qubits other then
    Raise (QiskitError "Incompatible dimension for composition")
  else
    let? other := (if front then _dot self other else _compose self other) in
    Ok (set_poly other (set_weight_0 (poly other) 0%Z)).

(** [np.block] of the four blocks of [_tensor]. *)
Definition np_block_diag (a : matrix) (na : nat) (b : matrix) (nb : nat) :
  matrix :=
  [seq r ++ nseq nb 0%Z | r <- a] ++ [seq nseq na 0%Z ++ r | r <- b].

(** [np.block([elem0.shift, elem1.shift])].  Two arrays are joined end to
    end.  A list is one more level of nesting to [np.block]: next to an
    array its depth does not match; two lists are two rows of blocks, that
    cannot be empty, must be as long as each other and are stacked into an
    array of two rows. *)
Inductive blocked : Type :=
  | Block1D (a : seq Z)
  | Block2D (rows : seq (seq Z)).

Definition np_block (s0 s1 : pyseq) : result blocked :=
  match s0, s1 with
  | NdArray a, NdArray b => Ok (Block1D (a ++ b))
  | PyList a, PyList b =>
      if nilp a || nilp b then
        Raise (ValueError "List cannot be empty")
      else if size a != size b then
        Raise (ValueError "all the input array dimensions except for the concatenation axis must match exactly")
      else Ok (Block2D [:: a; b])
  | _, _ => Raise (ValueError "List depths are mismatched")
  end.

(** The three nested loops of [_tensor] over the terms of [src], written
    to [dst] with every index moved up by [offset]. *)
Definition copy_terms (src : SpecialPolynomial) (n offset : nat)
  (dst : SpecialPolynomial) : SpecialPolynomial :=
  foldl (fun dst i =>
    let dst := set_term dst [:: i + offset] (get_term src [:: i]) in
    foldl (fun dst j =>
      let dst :=
        set_term dst [:: j + offset; i + offset] (get_term src [:: j; i]) in
      foldl (fun dst k =>
        set_term dst [:: k + offset; j + offset; i + offset]
                 (get_term src [:: k; j; i]))
        dst (iota 0 j))
      dst (iota 0 i))
    dst (iota 0 n).

(** The object [_tensor] returns.  Its [shift] is what [np.block] made: a
    one-dimensional array, and the object is an element like the others,
    or an array of two rows, which no other method of the embedding
    takes. *)
Inductive tensor_out : Type :=
  | Element (e : CNOTDihedral)
  | Stacked (n : nat) (l : matrix) (s : seq (seq Z)) (p : SpecialPolynomial).

Definition _tensor (self other : CNOTDihedral) (reverse : bool) :
  result tensor_out :=
  let elem0 := if reverse then self else other in
  let elem1 := if reverse then other else self in
  let? result :=
    __init__ NoData (Some (num_qubits elem0 + num_qubits elem1)) true in
  let linear :=
    np_block_diag (linear elem0) (num_qubits elem0)
                  (linear elem1) (num_qubits elem1) in
  let? shift := np_block (shift elem0) (shift elem1) in
  let p := copy_terms (poly elem0) (num_qubits elem0) 0 (poly result) in
  let p := copy_terms (poly elem1) (num_qubits elem1) (num_qubits elem0) p in
  Ok (match shift with
      | Block1D a => Element (mkElem (num_qubits result) linear (NdArray a) p)
      | Block2D rows => Stacked (num_qubits result) linear rows p
      end).

Definition tensor (self other : CNOTDihedral) : result tensor_out :=
  _tensor self other true.

Definition expand (self other : CNOTDihedral) : result tensor_out :=
  _tensor self other false.

(** ** Predicates of the development *)

(** The arrays of a polynomial have the lengths the class gives them. *)
Definition poly_wf (p : SpecialPolynomial) : bool :=
  [&& size (weight_1 p) == n_vars p,
      size (weight_2 p) == 'C(n_vars p, 2)
    & size (weight_3 p) == 'C(n_vars p, 3)].

(** The residue of an integer in the field with two elements, and the
    matrix over that field of the [n x n] first entries of an array. *)
Definition F2 (z : Z) : 'F_2 := if Z.odd z then 1%R else 0%R.

Definition mxF2 (n : nat) (m : matrix) : 'M['F_2]_n :=
  \matrix_(i, j) F2 (entry m i j).

(** The [n]-qubit identity element, which [CNOTDihedral(num_qubits=n)]
    builds. *)
Definition identity (n : nat) : CNOTDihedral :=
  mkElem n (np_eye n) (NdArray (np_zeros n)) (SpecialPolynomial_new n).

(** The shapes every object of the class has: at least one qubit, a
    polynomial on [num_qubits] variables with arrays of the lengths of its
    class, an [N x N] array [linear] and [N] entries in [shift].  Nothing
    is said about the values. *)
Definition well_formed (e : CNOTDihedral) : bool :=
  [&& 0 < num_qubits e,
      n_vars (poly e) == num_qubits e,
      poly_wf (poly e),
      has_shape (linear e) (num_qubits e) (num_qubits e)
    & size (items (shift e)) == num_qubits e].

(** The validity predicate of section 4.7 of the specification, in its
    words, on the values an element stores: (a) the constant of the
    polynomial is 0; (b) there are [N] linear, [C(N,2)] quadratic and
    [C(N,3)] cubic coefficients; (c) [linear] is [N x N], [shift] has
    length [N] and the determinant of [linear] is 1 modulo 2; (d) the
    coefficients lie in {0..7}, {0,2,4,6} and {0,4}; (e) the entries of
    [shift] and [linear] are 0 or 1. *)
Definition valid (e : CNOTDihedral) : Prop :=
  let n := num_qubits e in
  let p := poly e in
  [/\ weight_0 p = 0%Z,
      [/\ size (weight_1 p) = n, size (weight_2 p) = 'C(n, 2)
        & size (weight_3 p) = 'C(n, 3)],
      [/\ has_shape (linear e) n n, size (items (shift e)) = n
        & (det (linear e) mod 2)%Z = 1%Z],
      [/\ forall c, c \in weight_1 p -> (0 <= c <= 7)%Z,
          forall c, c \in weight_2 p -> c \in [:: 0; 2; 4; 6]%Z
        & forall c, c \in weight_3 p -> c \in [:: 0; 4]%Z]
    & (forall x, x \in items (shift e) -> x \in [:: 0; 1]%Z)
      /\ (forall r x, r \in linear e -> x \in r -> x \in [:: 0; 1]%Z)].

(** The same predicate as a boolean. *)
Definition validb (e : CNOTDihedral) : bool :=
  let n := num_qubits e in
  let p := poly e in
  [&& weight_0 p == 0%Z,
      [&& size (weight_1 p) == n, size (weight_2 p) == 'C(n, 2)
        & size (weight_3 p) == 'C(n, 3)],
      [&& has_shape (linear e) n n, size (items (shift e)) == n
        & (det (linear e) mod 2)%Z == 1%Z],
      [&& subset_of (weight_1 p) [:: 0; 1; 2; 3; 4; 5; 6; 7]%Z,
          subset_of (weight_2 p) [:: 0; 2; 4; 6]%Z
        & subset_of (weight_3 p) [:: 0; 4]%Z]
    & subset_of (items (shift e)) [:: 0; 1]%Z
      && subset_of (flatten (linear e)) [:: 0; 1]%Z].

(** Condition (e) of section 4.7 alone: the affine part is binary. *)
Definition binary_affine (e : CNOTDihedral) : bool :=
  subset_of (items (shift e)) [:: 0; 1]%Z
  && subset_of (flatten (linear e)) [:: 0; 1]%Z.

(** The factor [(-2)^(d-1)] of [_append_phase] for a term of [d]
    variables. *)
Definition phase_factor (d : nat) : Z :=
  match d with
  | 1 => 1%Z
  | 2 => (-2)%Z
  | 3 => 4%Z
  | _ => 0%Z
  end.

(** The index lists that the loops of [copy_terms] write, in their order,
    and the index list read for a written one. *)
Definition copy_writes (n offset : nat) : seq (seq nat) :=
  flatten
    [seq [:: i + offset]
         :: flatten
              [seq [:: j + offset; i + offset]
                   :: [seq [:: k + offset; j + offset; i + offset]
                      | k <- iota 0 j]
              | j <- iota 0 i]
    | i <- iota 0 n].

Definition unshift (offset : nat) (t : seq nat) : seq nat :=
  [seq x - offset | x <- t].

(** The coefficient of every term of [d] variables is divisible by
    [2^(d-m)].  With [m = 1] this is what condition (d) of section 4.7
    says on top of the reduction modulo 8: quadratic coefficients are
    even, cubic ones multiples of 4. *)
Definition graded (m : nat) (p : SpecialPolynomial) : Prop :=
  forall t, t \in terms (n_vars p) ->
    Z.divide (2 ^ Z.of_nat (size t - m)) (get_term p t).

(** The polynomial [x^t]. *)
Definition monomial (n : nat) (t : seq nat) : SpecialPolynomial :=
  poly_of_fun n (fun u => if u == t then 1%Z else 0%Z).

(** ** Definitions for the further properties *)

(** The row operation of [_append_cx] on [linear]: row [t] becomes the
    sum modulo 2 of rows [c] and [t]. *)
Definition xor_row (l : matrix) (c t : nat) : matrix :=
  set_nth [::] l t
    (zip_with (fun x y => ((x + y) mod 2)%Z) (row l c) (row l t)).

(** The entries of an array are 0 or 1. *)
Definition binary_matrix (l : matrix) : Prop :=
  forall r x, r \in l -> x \in r -> x \in [:: 0; 1]%Z.

(** The three loops of [_append_phase] over the subsets of [support],
    with the power [k] they add. *)
Definition phase_loops (support : seq nat) (k : Z) (p : SpecialPolynomial) :
  SpecialPolynomial :=
  let p :=
    foldl (fun p j => set_term p [:: j] ((get_term p [:: j] + k) mod 8)%Z)
          p support in
  let p :=
    foldl (fun p j => set_term p j ((get_term p j + -2 * k) mod 8)%Z)
          p (combinations support 2) in
  foldl (fun p j => set_term p j ((get_term p j + 4 * k) mod 8)%Z)
        p (combinations support 3).

(** The power that [_append_phase] adds on qubit [q]: [7 k mod 8] when
    [shift[q]] is 1. *)
Definition phase_power (e : CNOTDihedral) (k : Z) (q : nat) : Z :=
  if nth 0%Z (items (shift e)) q == 1%Z then ((7 * k) mod 8)%Z else k.

(** ** The method [__str__] *)

Definition newline : string := String (Ascii.ascii_of_nat 10) EmptyString.

(** [str(n)] for an integer [n >= 0]: its decimal digits. *)
Definition str_int (n : nat) : string :=
  NilEmpty.string_of_uint (Nat.to_uint n).

(** The inner loop of [__str__] over the columns of one row; the state is
    [out] and the flag [wrote]. *)
Definition str_columns (self : CNOTDihedral) (row : nat) (out : string) :
  string * bool :=
  foldl (fun (st : string * bool) col =>
           if entry (linear self) row col != 0%Z then
             if st.2 then ((st.1 ++ (" + x_" ++ str_int col))%string, st.2)
             else ((st.1 ++ ("x_" ++ str_int col))%string, true)
           else st)
        (out, false) (iota 0 (num_qubits self)).

(** [str(self)].  [str(self.poly)] is the method [__str__] of
    [polynomial.py], which is not part of the sources at hand: the text
    it returns is the argument [str_poly]. *)
Definition __str__ (str_poly : SpecialPolynomial -> string)
  (self : CNOTDihedral) : string :=
  let n := num_qubits self in
  let out := ("phase polynomial = " ++ newline)%string in
  let out := (out ++ str_poly (poly self))%string in
  let out := (out ++ (newline ++ "affine function = " ++ newline))%string in
  let out := (out ++ " (")%string in
  let out :=
    foldl (fun out row =>
      let out := (str_columns self row out).1 in
      let out :=
        if nth 0%Z (items (shift self)) row != 0%Z then (out ++ " + 1")%string
        else out in
      if row != n - 1 then (out ++ ",")%string else out)
    out (iota 0 n) in
  (out ++ (")" ++ newline))%string.

(** The text of one row of the affine function: the variables of the
    support of the row, joined by [" + "], and [" + 1"] after them when
    the bit of [shift] is not 0. *)
Definition affine_row_str (self : CNOTDihedral) (r : nat) : string :=
  (String.concat " + "
     [seq ("x_" ++ str_int c)%string
     | c <- support_of (num_qubits self) (row (linear self) r)]
   ++ (if nth 0%Z (items (shift self)) r != 0%Z then " + 1" else ""))%string.

(** The column vector over the field with two elements of the [n] first
    entries of an array. *)
Definition vecF2 (n : nat) (v : seq Z) : 'cV['F_2]_n :=
  \col_i F2 (nth 0%Z v i).

(** The conditions of section 4.7 that [_is_valid] tests on the stored
    values themselves, that is all of them but the parity of the
    determinant of [linear]. *)
Definition valid_fields (e : CNOTDihedral) : Prop :=
  let n := num_qubits e in
  let p := poly e in
  [/\ weight_0 p = 0%Z,
      [/\ size (weight_1 p) = n, size (weight_2 p) = 'C(n, 2)
        & size (weight_3 p) = 'C(n, 3)],
      has_shape (linear e) n n /\ size (items (shift e)) = n,
      [/\ forall c, c \in weight_1 p -> (0 <= c <= 7)%Z,
          forall c, c \in weight_2 p -> c \in [:: 0; 2; 4; 6]%Z
        & forall c, c \in weight_3 p -> c \in [:: 0; 4]%Z]
    & (forall x, x \in items (shift e) -> x \in [:: 0; 1]%Z)
      /\ (forall r x, r \in linear e -> x \in r -> x \in [:: 0; 1]%Z)].

(** * Properties *)

(** ** Combinations *)

Section Combinations.

Variable T : eqType.
Implicit Types (s t : seq T) (k : nat).

Lemma combinations0 s : combinations s 0 = [:: [::]].
Proof. by case: s. Qed.

Lemma mem_combinations s k t :
  (t \in combinations s k) = subseq t s && (size t == k).
Proof.
elim: s k t => [|x s IH] [|k] t /=.
- by rewrite inE; case: t.
- by rewrite in_nil; case: t.
- rewrite inE; case: t => [|y t] //=.
  by rewrite andbF.
- rewrite mem_cat; case: t => [|y t] /=.
    rewrite IH /= andbF orbF; apply/negP => /mapP; by case.
  rewrite IH /=.
  have -> : (y :: t \in [seq x :: c | c <- combinations s k])
            = (y == x) && (subseq t s && (size t == k)).
    apply/mapP/andP => [[c]|[/eqP -> Hc]].
      by rewrite IH => Hc [-> ->].
    by exists t => //; rewrite IH.
  case: eqP => [->|_] //=.
  rewrite eqSS.
  case Hxs: (subseq (x :: t) s) => /=; last by rewrite orbF.
  by rewrite (subseq_trans (subseq_cons t x) Hxs) /= orbb.
Qed.

Lemma combinations_uniq s k : uniq s -> uniq (combinations s k).
Proof.
elim: s k => [|x s IH] [|k] //= /andP [Hx Hs].
rewrite cat_uniq map_inj_uniq; first by move=> a b [].
rewrite !IH //= andbT.
apply/hasPn => t; rewrite mem_combinations => /andP [Ht _].
apply/negP => /mapP [c _ Hc]; move: Ht; rewrite Hc => Ht.
by move: (mem_subseq Ht (mem_head x c)); rewrite (negbTE Hx).
Qed.

End Combinations.

Lemma size_combinations (T : Type) (s : seq T) (k : nat) :
  size (combinations s k) = 'C(size s, k).
Proof.
elim: s k => [|x s IH] [|k] //=.
by rewrite size_cat size_map !IH binS addnC.
Qed.

(** ** Terms of a polynomial *)

Lemma mem_monomials n k t :
  (t \in monomials n k) = subseq t (iota 0 n) && (size t == k).
Proof. exact: mem_combinations. Qed.

Lemma monomials_uniq n k : uniq (monomials n k).
Proof. exact/combinations_uniq/iota_uniq. Qed.

Lemma size_monomials n k : size (monomials n k) = 'C(n, k).
Proof. by rewrite /monomials size_combinations size_iota. Qed.

Lemma mem_terms n t :
  (t \in terms n) = subseq t (iota 0 n) && (size t <= 3).
Proof.
rewrite /terms inE !mem_cat !mem_monomials.
case: t => [|a [|b [|c [|d t]]]] //=; first by rewrite sub0seq.
- by rewrite !andbF !orbF andbT.
- by rewrite !andbF !orbF andbT.
- by rewrite !andbF andbT.
- by rewrite !andbF.
Qed.

Lemma terms_uniq n : uniq (terms n).
Proof.
rewrite /terms cons_uniq !cat_uniq !monomials_uniq /= !andbT.
rewrite !mem_cat !mem_monomials /= !andbF /=.
apply/andP; split.
  apply/hasPn => t; rewrite mem_cat !mem_monomials.
  by case/orP => /andP [_ /eqP Ht]; rewrite Ht andbF.
apply/hasPn => t; rewrite !mem_monomials => /andP [_ /eqP Ht].
by rewrite Ht andbF.
Qed.

Lemma terms_monomials n t :
  t \in terms n -> t != [::] -> t \in monomials n (size t).
Proof. by rewrite mem_terms mem_monomials eqxx andbT => /andP []. Qed.

Lemma monomials_terms n k t : k <= 3 -> t \in monomials n k -> t \in terms n.
Proof.
by move=> Hk; rewrite mem_terms mem_monomials => /andP [-> /eqP ->].
Qed.

(** ** Reading and writing coefficients *)

Lemma size_weight p k :
  poly_wf p -> 0 < k <= 3 -> size (weight p k) = 'C(n_vars p, k).
Proof.
case/and3P => /eqP H1 /eqP H2 /eqP H3.
by case: k => [|[|[|[|k]]]] //= _; rewrite ?bin1.
Qed.

Lemma weight_set_weight p k w k' :
  0 < k <= 3 -> weight (set_weight p k w) k' = if k' == k then w else weight p k'.
Proof.
by case: k => [|[|[|[|k]]]] //= _; case: k' => [|[|[|[|k']]]].
Qed.

Lemma n_vars_set_weight p k w : n_vars (set_weight p k w) = n_vars p.
Proof. by case: k => [|[|[|[|k]]]]. Qed.

Lemma weight_0_set_weight p k w : weight_0 (set_weight p k w) = weight_0 p.
Proof. by case: k => [|[|[|[|k]]]]. Qed.

Lemma n_vars_set_term p t v : n_vars (set_term p t v) = n_vars p.
Proof.
rewrite /set_term; case: t => [|a t] //.
by case: ifP => // _; rewrite n_vars_set_weight.
Qed.

Lemma get_termE p t :
  t != [::] ->
  get_term p t
  = nth 0%Z (weight p (size t)) (index t (monomials (n_vars p) (size t))).
Proof. by case: t. Qed.

Lemma term_size_bounds n t : t \in terms n -> t != [::] -> 0 < size t <= 3.
Proof. by rewrite mem_terms => /andP [_ ->]; case: t. Qed.

Lemma get_set_term p t u v :
  t \in terms (n_vars p) -> u \in terms (n_vars p) ->
  get_term (set_term p t v) u = if u == t then v else get_term p u.
Proof.
move=> Ht Hu.
case: (altP (t =P [::])) => [->|Hnt].
  by case: u {Hu}.
have Hk := term_size_bounds Ht Hnt.
have Hm := terms_monomials Ht Hnt.
have -> : set_term p t v
          = set_weight p (size t)
              (set_nth 0%Z (weight p (size t))
                 (index t (monomials (n_vars p) (size t))) v).
  by rewrite /set_term; case: (t) Hnt Hm => // a s _ ->.
case: (altP (u =P [::])) => [->|Hnu].
  by rewrite eq_sym (negbTE Hnt) /= weight_0_set_weight.
rewrite !get_termE // n_vars_set_weight weight_set_weight //.
case: (altP (size u =P size t)) => [Hsz|Hsz]; last first.
  have /negbTE -> // : u != t by apply: contraNneq Hsz => ->.
rewrite nth_set_nth /= Hsz.
have Hmu : u \in monomials (n_vars p) (size t).
  by rewrite -Hsz; apply: terms_monomials.
case: (altP (u =P t)) => [->|Hne]; first by rewrite eqxx.
case: eqP => // Hidx; move: Hne.
by rewrite -(nth_index [::] Hmu) Hidx (nth_index [::] Hm) eqxx.
Qed.

Lemma poly_wf_set_weight p k w :
  poly_wf p -> size w = size (weight p k) -> poly_wf (set_weight p k w).
Proof.
by case: k => [|[|[|[|k]]]] //= /and3P [H1 H2 H3] Hw;
   rewrite /poly_wf /= ?Hw ?H1 ?H2 ?H3.
Qed.

Lemma size_set_nth_index p k t v :
  poly_wf p -> 0 < k <= 3 -> t \in monomials (n_vars p) k ->
  size (set_nth 0%Z (weight p k) (index t (monomials (n_vars p) k)) v)
  = size (weight p k).
Proof.
move=> Hwf Hk Ht; rewrite size_set_nth size_weight //.
apply/maxn_idPr; by rewrite -size_monomials index_mem.
Qed.

Lemma poly_wf_set_term p t v : poly_wf p -> poly_wf (set_term p t v).
Proof.
move=> Hwf; rewrite /set_term; case: t => [|a t] //.
case: ifP => // Hm.
case Hk: (0 < size (a :: t) <= 3).
  by apply: poly_wf_set_weight => //; apply: size_set_nth_index.
by move: Hk; case: (size (a :: t)) => [|[|[|[|k]]]].
Qed.

Lemma weight_0_set_term p t v :
  t != [::] -> weight_0 (set_term p t v) = weight_0 p.
Proof.
rewrite /set_term; case: t => [|a t] // _.
by case: ifP => // _; rewrite weight_0_set_weight.
Qed.

Lemma get_term_poly_of_fun n f t :
  t \in terms n -> get_term (poly_of_fun n f) t = f t.
Proof.
move=> Ht; case: (altP (t =P [::])) => [->|Hnt] //.
have Hm := terms_monomials Ht Hnt.
have := term_size_bounds Ht Hnt.
rewrite get_termE //=.
case Hk: (size t) Hm => [|[|[|[|k]]]] //= Hm _;
  by rewrite (nth_map [::]) ?index_mem // nth_index.
Qed.

Lemma poly_wf_poly_of_fun n f : poly_wf (poly_of_fun n f).
Proof. by rewrite /poly_wf /= !size_map !size_monomials bin1 !eqxx. Qed.

Lemma poly_wf_new n : poly_wf (SpecialPolynomial_new n).
Proof. by rewrite /poly_wf /= !size_nseq !eqxx. Qed.

Lemma get_term_new n t : get_term (SpecialPolynomial_new n) t = 0%Z.
Proof.
rewrite /get_term; case: t => [|a t] //.
by case: (size (a :: t)) => [|[|[|[|k]]]] //=; rewrite ?nth_nseq ?if_same ?nth_nil.
Qed.

(** Two polynomials with the arrays of the class are equal when they agree
    on every term. *)
Lemma poly_ext p q :
  poly_wf p -> poly_wf q -> n_vars p = n_vars q ->
  (forall t, t \in terms (n_vars p) -> get_term p t = get_term q t) ->
  p = q.
Proof.
move=> Hp Hq Hn H.
have Hw k : 0 < k <= 3 -> weight p k = weight q k.
  move=> Hk; apply: (@eq_from_nth _ 0%Z).
    by rewrite !size_weight // Hn.
  move=> i; rewrite size_weight // -size_monomials => Hi.
  set t := nth [::] (monomials (n_vars p) k) i.
  have Hm : t \in monomials (n_vars p) k by apply: mem_nth.
  have Hsz : size t = k by move: Hm; rewrite mem_monomials => /andP [_ /eqP].
  have Hnt : t != [::] by move: Hsz Hk; case: (t) => // <-.
  have Ht : t \in terms (n_vars p).
    by apply: monomials_terms Hm; case/andP: Hk.
  move: (H t Ht); rewrite !get_termE // Hsz -Hn.
  by rewrite index_uniq // monomials_uniq.
have H0 : weight_0 p = weight_0 q.
  by apply: (H [::]); rewrite mem_terms sub0seq.
case: p q Hn H0 Hw {Hp Hq H} => [n a0 a1 a2 a3] [m b0 b1 b2 b3] /= -> -> Hw.
by move: (Hw 1 isT) (Hw 2 isT) (Hw 3 isT) => /= -> -> ->.
Qed.

(** ** Determinants modulo 2

    The determinant of the source is related to the determinant of
    MathComp over the field with two elements, which gives its
    multiplicativity. *)

Section DeterminantMod2.

Import GRing.Theory.
Local Open Scope ring_scope.

Lemma F2_add a b : F2 (a + b) = F2 a + F2 b.
Proof.
rewrite /F2 Z.odd_add; case: (Z.odd a); case: (Z.odd b) => /=;
  by rewrite ?addr0 ?add0r //; apply/val_inj.
Qed.

Lemma F2_mul a b : F2 (a * b) = F2 a * F2 b.
Proof.
rewrite /F2 Z.odd_mul; case: (Z.odd a); case: (Z.odd b) => /=;
  by rewrite ?mulr0 ?mul0r ?mulr1.
Qed.

Lemma F2_mod2 a : F2 (a mod 2) = F2 a.
Proof.
rewrite /F2; congr (if _ then _ else _).
rewrite [in RHS](Z.div_mod a 2) // Z.odd_add Z.odd_mul /=.
by case: (Z.odd _).
Qed.

Lemma F2_sign j a : F2 (sign j * a) = F2 a.
Proof. by rewrite F2_mul /sign; case: (odd j); rewrite /F2 /= mul1r. Qed.

Lemma F2_sumz s : F2 (sumz s) = \sum_(x <- s) F2 x.
Proof.
elim: s => [|x s IH] /=; first by rewrite big_nil.
by rewrite big_cons F2_add IH.
Qed.

Lemma F2_1P a : reflect ((a mod 2)%Z = 1%Z) (F2 a == 1).
Proof.
rewrite /F2 Zmod_odd; case: (Z.odd a) => /=; first by apply: ReflectT.
by apply: ReflectF.
Qed.

Lemma F2_0P a : reflect ((a mod 2)%Z = 0%Z) (F2 a == 0).
Proof.
rewrite /F2 Zmod_odd; case: (Z.odd a) => /=; first by apply: ReflectF.
by apply: ReflectT.
Qed.

Lemma nth_delete_nth (T : Type) (x0 : T) j (s : seq T) k :
  nth x0 (delete_nth j s) k = nth x0 s (bump j k).
Proof.
rewrite /delete_nth /bump nth_cat size_take.
case: (ltnP j (size s)) => Hj.
  case: (ltnP k j) => Hk; first by rewrite add0n nth_take.
  by rewrite nth_drop add1n addSn subnKC.
case: (ltnP k (size s)) => Hk.
  by rewrite leqNgt (leq_trans Hk Hj) /= add0n nth_take // (leq_trans Hk Hj).
rewrite (drop_oversize (leqW Hj)) nth_nil.
by rewrite nth_default // (leq_trans Hk) // leq_addl.
Qed.

Lemma F2_opp1 : (-1 : 'F_2) = 1.
Proof. exact/val_inj. Qed.

Lemma det_rec_cons n r rest :
  det_rec n.+1 (r :: rest)
  = sumz [seq (sign j * nth 0%Z r j
               * det_rec n [seq delete_nth j x | x <- rest])%Z
         | j <- iota 0 n.+1].
Proof. by []. Qed.

Lemma sum_iota_ord (F : nat -> 'F_2) k :
  \sum_(j <- iota 0 k) F j = \sum_(j < k) F j.
Proof. by rewrite -[k in LHS]subn0 -/(index_iota 0 k) big_mkord. Qed.

Lemma det_rec_mxF2 n (m : matrix) :
  size m = n -> F2 (det_rec n m) = \det (mxF2 n m).
Proof.
elim: n m => [|n IH] m Hsz.
  by rewrite det_mx00 /= /F2.
case: m Hsz => [|r rest] // [Hsz].
rewrite det_rec_cons F2_sumz big_map (expand_det_row _ ord0).
rewrite sum_iota_ord.
apply: eq_bigr => j _.
rewrite -Z.mul_assoc F2_sign F2_mul mxE /entry /row /=; congr (_ * _).
rewrite /cofactor F2_opp1 expr1n mul1r IH ?size_map //.
congr (\det _); apply/matrixP => a b.
rewrite !mxE /entry /row /= (nth_map [::]) ?Hsz //.
by rewrite nth_delete_nth.
Qed.

Lemma det_mxF2 (m : matrix) : F2 (det m) = \det (mxF2 (size m) m).
Proof. exact: det_rec_mxF2. Qed.

Lemma has_shape_size m r c : has_shape m r c -> size m = r.
Proof. by case/andP => /eqP. Qed.

Lemma has_shape_row m r c i : has_shape m r c -> i < r -> size (row m i) = c.
Proof.
case/andP => /eqP <- /allP H Hi.
by apply/eqP/H; rewrite /row mem_nth.
Qed.

Lemma has_shape_ncols m r c : has_shape m r c -> 0 < r -> ncols m = c.
Proof.
move=> H Hr; rewrite /ncols -nth0.
exact: (has_shape_row H Hr).
Qed.

Lemma dotp_F2 u v n :
  size u = n -> size v = n ->
  F2 (dotp u v) = \sum_(k < n) F2 (nth 0%Z u k) * F2 (nth 0%Z v k).
Proof.
move=> Hu Hv; rewrite /dotp F2_sumz big_map (big_nth (0%Z, 0%Z)) big_mkord.
rewrite size_zip Hu Hv minnn.
apply: eq_bigr => k _.
by rewrite nth_zip ?Hu ?Hv //= F2_mul.
Qed.

Lemma entry_np_dot_mm a b i j :
  i < size a -> j < ncols b ->
  entry (np_dot_mm a b) i j = dotp (row a i) (col b j).
Proof.
move=> Hi Hj; rewrite /entry /row /np_dot_mm (nth_map [::]) //.
by rewrite (nth_map 0%N) ?size_iota // nth_iota.
Qed.

Lemma entry_z2matmul a b i j :
  i < size a -> j < ncols b ->
  entry (_z2matmul a b) i j = (dotp (row a i) (col b j) mod 2)%Z.
Proof.
move=> Hi Hj.
have Hi' : i < size (np_dot_mm a b) by rewrite size_map.
have Hj' : j < size (nth [::] (np_dot_mm a b) i).
  by rewrite /np_dot_mm (nth_map [::]) // size_map size_iota.
rewrite /_z2matmul {1}/entry /row (nth_map [::]) // (nth_map 0%Z) //.
by rewrite -/(row _ _) -/(entry _ _ _) entry_np_dot_mm.
Qed.

Lemma has_shape_z2matmul a b n :
  has_shape a n n -> has_shape b n n -> has_shape (_z2matmul a b) n n.
Proof.
move=> Ha Hb; rewrite /has_shape /_z2matmul /np_dot_mm !size_map.
rewrite (has_shape_size Ha) eqxx /=.
apply/allP => x /mapP [y /mapP [r Hr ->] ->].
rewrite !size_map size_iota.
case: n Ha Hb Hr => [|n] Ha Hb Hr; last by rewrite (has_shape_ncols Hb).
by move: Hr; rewrite (size0nil (has_shape_size Ha)).
Qed.

Lemma mxF2_z2matmul n a b :
  has_shape a n n -> has_shape b n n ->
  mxF2 n (_z2matmul a b) = mxF2 n a *m mxF2 n b.
Proof.
move=> Ha Hb; apply/matrixP => i j; rewrite !mxE.
have Hn : 0 < n by apply: leq_ltn_trans (ltn_ord i).
rewrite entry_z2matmul ?(has_shape_size Ha) ?(has_shape_ncols Hb) //.
have Hc : size (col b j) = n by rewrite /col size_map (has_shape_size Hb).
rewrite F2_mod2 (@dotp_F2 _ _ n) ?(has_shape_row Ha) //.
apply: eq_bigr => k _; rewrite !mxE; congr (_ * _).
by rewrite /col (nth_map [::]) // (has_shape_size Hb).
Qed.

Lemma entry_np_eye n i j :
  i < n -> j < n -> entry (np_eye n) i j = if i == j then 1%Z else 0%Z.
Proof.
move=> Hi Hj; rewrite /entry /row /np_eye (nth_map 0%N) ?size_iota //.
by rewrite (nth_map 0%N) ?size_iota // !nth_iota.
Qed.

Lemma has_shape_np_eye n : has_shape (np_eye n) n n.
Proof.
rewrite /has_shape /np_eye size_map size_iota eqxx /=.
by apply/allP => x /mapP [i _ ->]; rewrite size_map size_iota.
Qed.

Lemma mxF2_np_eye n : mxF2 n (np_eye n) = 1%:M.
Proof.
apply/matrixP => i j; rewrite !mxE entry_np_eye //.
by rewrite -val_eqE /=; case: eqP.
Qed.

(** The determinant of a product of two matrices with odd determinants
    is odd. *)
Lemma det_z2matmul a b n :
  has_shape a n n -> has_shape b n n ->
  (det a mod 2)%Z = 1%Z -> (det b mod 2)%Z = 1%Z ->
  (det (_z2matmul a b) mod 2)%Z = 1%Z.
Proof.
move=> Ha Hb /F2_1P Da /F2_1P Db; apply/F2_1P.
move: Da Db; rewrite !det_mxF2.
rewrite (has_shape_size (has_shape_z2matmul Ha Hb)).
rewrite (has_shape_size Ha) (has_shape_size Hb) mxF2_z2matmul //.
by rewrite det_mulmx => /eqP -> /eqP ->; rewrite mulr1.
Qed.

Lemma det_np_eye n : (det (np_eye n) mod 2)%Z = 1%Z.
Proof.
apply/F2_1P; rewrite det_mxF2 (has_shape_size (has_shape_np_eye n)).
by rewrite mxF2_np_eye det1.
Qed.

(** An array with a row of zeros has an even determinant. *)
Lemma det_zero_row m i :
  i < size m -> all (fun x => x == 0%Z) (row m i) -> (det m mod 2)%Z = 0%Z.
Proof.
move=> Hi Hz; apply/F2_0P; rewrite det_mxF2.
rewrite (expand_det_row _ (Ordinal Hi)) big1 // => j _.
rewrite mxE /entry /=.
case: (ltnP j (size (row m i))) => Hj.
  by move/allP: Hz => /(_ _ (mem_nth 0%Z Hj)) /eqP ->; rewrite /F2 /= mul0r.
by rewrite nth_default // /F2 /= mul0r.
Qed.

End DeterminantMod2.

(** ** Validity and the identity element *)

Lemma wrap8_mod z m : (m = 2 \/ m = 8)%Z -> (wrap8 z mod m)%Z = (z mod m)%Z.
Proof.
rewrite /wrap8 => Hm.
have Hq : (z + 128 = 256 * ((z + 128) / 256) + (z + 128) mod 256)%Z.
  exact: Z.div_mod.
set q := ((z + 128) / 256)%Z in Hq.
case: Hm => ->.
  have -> : ((z + 128) mod 256 - 128 = z + (- q * 128) * 2)%Z by lia.
  by rewrite Z.mod_add.
have -> : ((z + 128) mod 256 - 128 = z + (- q * 32) * 8)%Z by lia.
by rewrite Z.mod_add.
Qed.

Lemma nc2E n : (n * (n - 1)) %/ 2 = 'C(n, 2).
Proof. by rewrite bin2 subn1 divn2. Qed.

Lemma nc3E n : (n * (n - 1) * (n - 2)) %/ 6 = 'C(n, 3).
Proof.
case: n => [|[|[|n]]] //.
have <- : 'C(n.+3, 3) * 6 = n.+3 * (n.+3 - 1) * (n.+3 - 2).
  by rewrite (bin_ffact n.+3 3) !ffactnS ffactn0 muln1 subn1 subn2 /= mulnA.
by rewrite mulnK.
Qed.

Lemma subset_ofP s allowed :
  reflect (forall x, x \in s -> x \in allowed) (subset_of s allowed).
Proof. exact: allP. Qed.

Lemma range8P c : reflect (0 <= c <= 7)%Z (c \in [:: 0; 1; 2; 3; 4; 5; 6; 7]%Z).
Proof.
apply: (iffP idP).
  by rewrite !inE => /or4P [/eqP ->|/eqP ->|/eqP ->|/or4P [|||/orP []] /eqP ->].
move=> H; rewrite !inE.
have : (c = 0 \/ c = 1 \/ c = 2 \/ c = 3 \/ c = 4 \/ c = 5 \/ c = 6 \/ c = 7)%Z by lia.
by do 7![case=> [->|] //]; move=> ->.
Qed.

Lemma flatten_memP (m : matrix) (P : Z -> bool) :
  reflect (forall r x, r \in m -> x \in r -> P x) (all P (flatten m)).
Proof.
apply: (iffP allP) => [H r x Hr Hx|H x /flattenP [r Hr Hx]].
  by apply: H; apply/flattenP; exists r.
exact: H Hx.
Qed.

Lemma validP e : reflect (valid e) (validb e).
Proof.
rewrite /validb /valid.
apply: (iffP and5P) => [[/eqP H0 /and3P [/eqP H1 /eqP H2 /eqP H3]
                         /and3P [H4 /eqP H5 /eqP H6]
                         /and3P [/subset_ofP H7 /subset_ofP H8 /subset_ofP H9]
                         /andP [/subset_ofP H10 /flatten_memP H11]]
                       |[H0 [H1 H2 H3] [H4 H5 H6] [H7 H8 H9] [H10 H11]]].
  split=> //; split=> // c Hc; exact/range8P/H7.
split; first exact/eqP.
- by rewrite H1 H2 H3 !eqxx.
- by rewrite H4 H5 H6 !eqxx.
- apply/and3P; split; apply/subset_ofP => // c Hc; exact/range8P/H7.
- by apply/andP; split; [apply/subset_ofP|apply/flatten_memP].
Qed.

(** [_is_valid], with the exact determinant of the embedding, on an
    element whose [shift] is an array decides the predicate of section
    4.7. *)
Lemma _is_valid_ndarray e :
  is_ndarray (shift e) -> _is_valid e = Ok (validb e).
Proof.
case: e => n l [s|s] p //= _; rewrite /_is_valid /validb /= nc2E nc3E.
case: (weight_0 p == 0%Z) => //=.
case: (size (weight_1 p) == n) => //=.
case: (size (weight_2 p) == 'C(n, 2)) => //=.
case: (size (weight_3 p) == 'C(n, 3)) => //=.
case: (has_shape l n n) => //=.
case: (size s == n) => //=.
case: (_ == 1%Z) => //=.
case: (subset_of (weight_1 p) _) => //=.
case: (subset_of (weight_2 p) _) => //=.
case: (subset_of (weight_3 p) _) => //=.
case: (subset_of s _) => //=.
by case: (subset_of (flatten l) _).
Qed.

(** Whatever the kind of [shift], [_is_valid] of the embedding answers
    [True] on valid elements only, and never [True] on an element whose
    [shift] is a list. *)
Lemma _is_valid_true e : _is_valid e = Ok true -> valid e /\ is_ndarray (shift e).
Proof.
case He: (shift e) => [s|s] /=.
  by rewrite _is_valid_ndarray ?He // => -[] /validP.
rewrite /_is_valid He /=.
by do 10![case: ifP => // _].
Qed.

(** On an element that satisfies the five conditions and whose [shift] is
    a list, [_is_valid] reaches [self.shift.flatten()] and raises. *)
Lemma _is_valid_list e :
  valid e -> ~~ is_ndarray (shift e) ->
  _is_valid e = Raise (AttributeError "list object has no attribute flatten").
Proof.
move=> /validP /and5P [H0 /and3P [H1 H2 H3] /and3P [H4 H5 H6]
                       /and3P [H7 H8 H9] _].
case He: (shift e) => [s|s] //= _.
rewrite /_is_valid nc2E nc3E H0 H1 H2 H3 H4 H5 H6 H7 H8 H9 /=.
by rewrite He.
Qed.

(** On an element whose [shift] is an array, [_is_valid] raises nothing
    and, with the exact determinant of the embedding, answers [True]
    exactly when the five conditions of section 4.7 hold. *)
Lemma _is_valid_spec e :
  is_ndarray (shift e) ->
  (exists b, _is_valid e = Ok b) /\ (_is_valid e = Ok true <-> valid e).
Proof.
move=> He; rewrite _is_valid_ndarray //; split; first by exists (validb e).
split=> [[Hb]|/validP -> //].
by apply/validP; rewrite Hb.
Qed.

Lemma poly_wf_valid e : valid e -> n_vars (poly e) = num_qubits e -> poly_wf (poly e).
Proof.
by case=> _ [H1 H2 H3] _ _ _ Hn; rewrite /poly_wf Hn H1 H2 H3 !eqxx.
Qed.

Lemma validb_identity n : validb (identity n).
Proof.
rewrite /validb /identity /= !size_nseq !eqxx has_shape_np_eye det_np_eye /=.
rewrite /subset_of /np_zeros !all_nseq /= !orbT /=.
apply/allP => x /flattenP [r /mapP [i _ ->] /mapP [j _ ->]].
by case: ifP.
Qed.

Lemma init_identity n :
  0 < n -> __init__ NoData (Some n) true = Ok (identity n).
Proof.
case: n => [|n] // _.
by rewrite /__init__ /= -/(identity n.+1) _is_valid_ndarray // validb_identity.
Qed.

Lemma well_formed_identity n : 0 < n -> well_formed (identity n).
Proof.
move=> Hn; rewrite /well_formed /= Hn eqxx poly_wf_new has_shape_np_eye /=.
by rewrite size_nseq.
Qed.

(** ** The mutator [_append_cx] *)

Lemma add_mod2_lxor x y :
  x \in [:: 0; 1]%Z -> y \in [:: 0; 1]%Z -> ((x + y) mod 2)%Z = Z.lxor x y.
Proof. by rewrite !inE => /orP [] /eqP -> /orP [] /eqP ->. Qed.

Lemma in_boundsP i n :
  reflect (0 <= i < Z.of_nat n)%Z (in_bounds i n).
Proof.
rewrite /in_bounds; apply: (iffP andP) => [[/Z.leb_le H1 /Z.ltb_lt H2]|[H1 H2]] //.
by split; [apply/Z.leb_le|apply/Z.ltb_lt].
Qed.

Lemma in_bounds_to_nat i n : in_bounds i n -> Z.to_nat i < n.
Proof. move/in_boundsP => H; apply/ltP; lia. Qed.

Lemma entry_binary e i j :
  binary_affine e -> i < size (linear e) -> j < size (row (linear e) i) ->
  entry (linear e) i j \in [:: 0; 1]%Z.
Proof.
case/andP => _ /flatten_memP H Hi Hj.
by apply: (H (row (linear e) i)); rewrite mem_nth.
Qed.

Lemma shift_binary e i :
  binary_affine e -> i < size (items (shift e)) ->
  nth 0%Z (items (shift e)) i \in [:: 0; 1]%Z.
Proof. by case/andP => /subset_ofP H _ Hi; apply: H; rewrite mem_nth. Qed.

Lemma items_setitem v j x : items (setitem v j x) = set_nth 0%Z (items v) j x.
Proof. by case: v. Qed.

Lemma nth_zip_with f u v i :
  size u = size v -> i < size u ->
  nth 0%Z (zip_with f u v) i = f (nth 0%Z u i) (nth 0%Z v i).
Proof.
move=> Huv Hi; rewrite /zip_with (nth_map (0%Z, 0%Z)) ?nth_zip //.
by rewrite size_zip -Huv minnn.
Qed.

Lemma size_zip_with f u v : size (zip_with f u v) = minn (size u) (size v).
Proof. by rewrite /zip_with size_map size_zip. Qed.

Lemma well_formedP e :
  reflect [/\ 0 < num_qubits e, n_vars (poly e) = num_qubits e,
              poly_wf (poly e),
              has_shape (linear e) (num_qubits e) (num_qubits e)
            & size (items (shift e)) = num_qubits e]
          (well_formed e).
Proof.
apply: (iffP and5P) => [[H1 /eqP H2 H3 H4 /eqP H5]|[H1 H2 H3 H4 H5]] //.
by split=> //; apply/eqP.
Qed.

Lemma has_shape_set_row m r c j x :
  has_shape m r c -> j < r -> size x = c -> has_shape (set_nth [::] m j x) r c.
Proof.
move=> Hm Hj Hx; have Hs := has_shape_size Hm.
rewrite /has_shape size_set_nth Hs (maxn_idPr Hj) eqxx /=.
apply/(all_nthP [::]) => i; rewrite size_set_nth Hs (maxn_idPr Hj) => Hi.
rewrite nth_set_nth /=; case: (i == j); first exact/eqP.
by move: (has_shape_row Hm Hi); rewrite /row => ->.
Qed.

Lemma zip_with_diag f u : zip_with f u u = [seq f x x | x <- u].
Proof. by rewrite /zip_with; elim: u => [|x u IH] //=; rewrite IH. Qed.

Lemma add_diag_mod2 x : ((x + x) mod 2)%Z = 0%Z.
Proof. by rewrite Z.add_diag Z.mul_comm Z.mod_mul. Qed.

Lemma _is_valid_singular e :
  (det (linear e) mod 2)%Z <> 1%Z -> _is_valid e = Ok false.
Proof.
move=> /eqP Hd; rewrite /_is_valid.
case: ifP => // _.
by rewrite Hd !orbT.
Qed.

Lemma _is_valid_constant e : weight_0 (poly e) <> 0%Z -> _is_valid e = Ok false.
Proof. by move=> /eqP H0; rewrite /_is_valid H0. Qed.

(** C5: for indices in range, [_append_cx] replaces row [target] of
    [linear] by its XOR with row [control] and [shift[target]] by its XOR
    with [shift[control]], and leaves everything else, the polynomial
    included, as it was; for an index out of range it raises [QiskitError]
    and changes nothing.  On the 2-qubit identity, [_append_cx(0, 1)] gives
    [linear = [[1,0],[1,1]]], [shift = [0,0]] and the zero polynomial, an
    element that [_is_valid] accepts. *)
Theorem append_cx_spec (e : CNOTDihedral) (control target : Z) :
  let n := num_qubits e in
  let c := Z.to_nat control in
  let t := Z.to_nat target in
  let out := _append_cx e control target in
  (well_formed e -> binary_affine e ->
   in_bounds control n -> in_bounds target n ->
   [/\ out.1 = Ok tt,
       forall i j, i < n -> j < n ->
         entry (linear out.2) i j
         = if i == t then Z.lxor (entry (linear e) c j) (entry (linear e) t j)
           else entry (linear e) i j,
       forall i, i < n ->
         nth 0%Z (items (shift out.2)) i
         = if i == t then Z.lxor (nth 0%Z (items (shift e)) c)
                                 (nth 0%Z (items (shift e)) t)
           else nth 0%Z (items (shift e)) i,
       poly out.2 = poly e
     & num_qubits out.2 = n /\ well_formed out.2])
  /\ (~~ (in_bounds control n && in_bounds target n) ->
      out = (Raise (QiskitError "CX qubits are out of bounds."), e))
  /\ (let cx01 := mkElem 2 [:: [:: 1; 0]; [:: 1; 1]]%Z (NdArray [:: 0; 0]%Z)
                         (SpecialPolynomial_new 2) in
      [/\ __init__ NoData (Some 2) true = Ok (identity 2),
          _append_cx (identity 2) 0 1 = (Ok tt, cx01),
          (det (linear cx01) mod 2)%Z = 1%Z
        & _is_valid cx01 = Ok true]).
Proof.
move=> n c t out; split; last split.
- move=> /well_formedP [Hn Hv Hp Hl Hs] Hb Hc Ht.
  have Hcn := in_bounds_to_nat Hc; have Htn := in_bounds_to_nat Ht.
  rewrite -/c -/t in Hcn Htn.
  have Hout : out = (Ok tt,
      set_shift (set_linear e
         (set_nth [::] (linear e) t
            (zip_with (fun x y => ((x + y) mod 2)%Z)
                      (row (linear e) c) (row (linear e) t))))
        (setitem (shift e) t
           ((nth 0%Z (items (shift e)) c + nth 0%Z (items (shift e)) t)
              mod 2)%Z)).
    by rewrite /out /_append_cx Hc Ht.
  have Hrc : size (row (linear e) c) = n by apply: has_shape_row Hl Hcn.
  have Hrt : size (row (linear e) t) = n by apply: has_shape_row Hl Htn.
  rewrite Hout /=; split=> //.
  + move=> i j Hi Hj; rewrite /entry /row nth_set_nth /=.
    case: eqP => // _; rewrite nth_zip_with ?Hrc ?Hrt //.
    apply: add_mod2_lxor; apply: (entry_binary Hb);
      by rewrite ?(has_shape_size Hl) ?Hrc ?Hrt.
  + move=> i Hi; rewrite items_setitem nth_set_nth /=.
    case: eqP => // _.
    by apply: add_mod2_lxor; apply: (shift_binary Hb); rewrite Hs.
  + split=> //; apply/well_formedP; split=> //=.
      apply: has_shape_set_row => //.
      by rewrite size_zip_with Hrc Hrt minnn.
    by rewrite items_setitem size_set_nth Hs; apply/maxn_idPr.
- rewrite negb_and /out /_append_cx.
  by move=> ->.
- by split; vm_compute.
Qed.

Lemma append_cx_spec_witness :
  let e := identity 2 in
  [/\ well_formed e, binary_affine e, in_bounds 0 2, in_bounds 1 2
    & (_append_cx e 0 1).1 = Ok tt /\ poly (_append_cx e 0 1).2 = poly e].
Proof.
have [H _] := append_cx_spec (identity 2) 0 1.
have [H1 _ _ H2 _] := H isT isT isT isT.
by split.
Defined.

(** C10: [_append_cx(i, i)] with an index in range raises nothing; it
    leaves a row of zeros at [i] in [linear] and 0 at [shift[i]], so that
    the determinant of [linear] is 0 modulo 2 and the element fails the
    validity predicate: the mutator does not keep [linear] invertible. *)
Theorem append_cx_same_index (e : CNOTDihedral) (i : Z) :
  well_formed e -> in_bounds i (num_qubits e) ->
  let out := _append_cx e i i in
  [/\ out.1 = Ok tt,
      row (linear out.2) (Z.to_nat i) = nseq (num_qubits e) 0%Z,
      nth 0%Z (items (shift out.2)) (Z.to_nat i) = 0%Z,
      (det (linear out.2) mod 2)%Z = 0%Z
    & _is_valid out.2 = Ok false /\ ~ valid out.2].
Proof.
move=> /well_formedP [Hn Hv Hp Hl Hs] Hi out.
have Hin := in_bounds_to_nat Hi.
have Hr : size (row (linear e) (Z.to_nat i)) = num_qubits e.
  exact: has_shape_row Hl Hin.
have Hrow : row (linear out.2) (Z.to_nat i) = nseq (num_qubits e) 0%Z.
  rewrite /out /_append_cx Hi /= /row nth_set_nth /= eqxx zip_with_diag.
  rewrite -Hr /row; elim: (nth _ _ _) => [|x s IH] //=.
  by rewrite IH add_diag_mod2.
have Hdet : (det (linear out.2) mod 2)%Z = 0%Z.
  apply: (@det_zero_row _ (Z.to_nat i)); last by rewrite Hrow all_nseq eqxx orbT.
  rewrite /out /_append_cx Hi /= size_set_nth (has_shape_size Hl).
  by rewrite (maxn_idPr Hin).
split=> //.
- by rewrite /out /_append_cx Hi.
- rewrite /out /_append_cx Hi /= items_setitem nth_set_nth /= eqxx.
  exact: add_diag_mod2.
- split; first by apply: _is_valid_singular; rewrite Hdet.
  by case=> _ _ [_ _]; rewrite Hdet.
Qed.

Lemma append_cx_same_index_witness :
  well_formed (identity 2) /\ in_bounds 1 2
  /\ _is_valid (_append_cx (identity 2) 1 1).2 = Ok false.
Proof.
split; first by []. split; first by [].
by have [_ _ _ _ [H _]] := append_cx_same_index (e := identity 2) (i := 1%Z) isT isT.
Defined.

(** C7: [compose] on elements with different numbers of qubits raises
    [QiskitError], in either multiplication order, and so do [_dot] and
    [_compose]; with an argument [qargs] other than [None] it raises
    [NotImplementedError], whatever the elements. *)
Theorem compose_errors (a b : CNOTDihedral) (front : bool) :
  (num_qubits a <> num_qubits b ->
   [/\ compose a b None front
       = Raise (QiskitError "Incompatible dimension for composition"),
       _dot a b
       = Raise (QiskitError "Multiplication on different number of qubits.")
     & _compose a b
       = Raise (QiskitError "Multiplication on different number of qubits.")])
  /\ (forall qargs : option (seq nat), qargs <> None ->
      compose a b qargs front
      = Raise (NotImplementedError "compose method does not support qargs.")).
Proof.
split=> [/eqP Hn|[q|] //].
by rewrite /compose /_dot /_compose (negbTE Hn).
Qed.

Lemma compose_errors_witness :
  num_qubits (identity 1) <> num_qubits (identity 2)
  /\ Some [:: 0] <> None
  /\ compose (identity 1) (identity 2) None true
     = Raise (QiskitError "Incompatible dimension for composition")
  /\ compose (identity 1) (identity 1) (Some [:: 0]) false
     = Raise (NotImplementedError "compose method does not support qargs.").
Proof.
have H1 : num_qubits (identity 1) <> num_qubits (identity 2) by [].
have H2 : Some [:: 0] <> None :> option (seq nat) by [].
split; first exact: H1. split; first exact: H2. split.
  by have [/(_ H1) [H _ _] _] := compose_errors (identity 1) (identity 2) true.
by have [_ /(_ _ H2)] := compose_errors (identity 1) (identity 1) false.
Defined.

(** C9: [CNOTDihedral(e)] for an element [e], with [num_qubits] left out,
    returns no element: the branch for a [CNOTDihedral] argument assigns
    [linear], [shift] and [poly] but not [_num_qubits], and the read of
    [self._num_qubits] for the base class raises [AttributeError]. *)
Theorem init_from_element_raises (e : CNOTDihedral) (validate : bool) :
  __init__ (FromElement e) None validate = Raise (AttributeError "_num_qubits").
Proof. by []. Qed.

(** C2, at the element that [compose] returns for two 1-qubit identity
    elements: the five conditions of section 4.7 hold, and [_is_valid]
    raises [AttributeError], because [shift] is a list there and
    [_is_valid] calls its method [flatten]. *)
Theorem is_valid_raises_after_compose :
  exists e : CNOTDihedral,
    [/\ compose (identity 1) (identity 1) None false = Ok e,
        valid e
      & _is_valid e
        = Raise (AttributeError "list object has no attribute flatten")].
Proof.
exists (mkElem 1 [:: [:: 1%Z]] (PyList [:: 0%Z]) (SpecialPolynomial_new 1)).
split; [by vm_compute|exact/validP|by vm_compute].
Qed.

(** ** Sorted index lists *)

Lemma sorted_subseq_iota n t :
  sorted ltn t -> all (fun x => x < n) t -> subseq t (iota 0 n).
Proof.
move=> Hs /allP Ha.
have -> : t = [seq x <- iota 0 n | x \in t]; last exact: filter_subseq.
apply: (irr_sorted_eq ltn_trans ltnn Hs).
  by apply: sorted_filter; [apply: ltn_trans|apply: iota_ltn_sorted].
move=> x; rewrite mem_filter mem_iota /= add0n.
by case Hx: (x \in t) => //=; rewrite Ha.
Qed.

Lemma subseq_iota_sorted n t :
  subseq t (iota 0 n) -> sorted ltn t && all (fun x => x < n) t.
Proof.
move=> H; rewrite (subseq_sorted ltn_trans H (iota_ltn_sorted 0 n)) /=.
by apply/allP => x /(mem_subseq H); rewrite mem_iota add0n.
Qed.

(** The index lists of a polynomial on [n] variables are the strictly
    increasing lists of at most three variables below [n]. *)
Lemma mem_terms_sorted n t :
  (t \in terms n) = [&& size t <= 3, sorted ltn t & all (fun x => x < n) t].
Proof.
rewrite mem_terms andbC; congr (_ && _).
apply/idP/idP => [/subseq_iota_sorted //|/andP [H1 H2]].
exact: sorted_subseq_iota.
Qed.

(** ** Loops of [set_term] *)

Lemma foldl_map_seq (A B C : Type) (f : C -> B -> C) (h : A -> B) z s :
  foldl f z (map h s) = foldl (fun acc x => f acc (h x)) z s.
Proof. by elim: s z => [|x s IH] z //=. Qed.

Lemma eq_foldl_seq (A C : Type) (f g : C -> A -> C) z s :
  f =2 g -> foldl f z s = foldl g z s.
Proof. by move=> Hfg; elim: s z => [|x s IH] z //=; rewrite Hfg IH. Qed.

Lemma foldl_flatten_seq (A C : Type) (f : C -> A -> C) z (ss : seq (seq A)) :
  foldl f z (flatten ss) = foldl (fun acc s => foldl f acc s) z ss.
Proof. by elim: ss z => [|s ss IH] z //=; rewrite foldl_cat IH. Qed.

Lemma foldl_set_term_shape (A : Type) (g : SpecialPolynomial -> A -> Z)
  (h : A -> seq nat) p (s : seq A) :
  let q := foldl (fun q x => set_term q (h x) (g q x)) p s in
  n_vars q = n_vars p /\ (poly_wf p -> poly_wf q).
Proof.
elim: s p => [|x s IH] p //=.
have [-> H] := IH (set_term p (h x) (g p x)).
by rewrite n_vars_set_term; split=> // Hp; apply/H/poly_wf_set_term.
Qed.

(** A loop that writes to every term of [ts] a value that depends on the
    term alone. *)
Lemma get_term_foldl_write p (f : seq nat -> Z) ts u :
  {subset ts <= terms (n_vars p)} -> u \in terms (n_vars p) ->
  get_term (foldl (fun q t => set_term q t (f t)) p ts) u
  = if u \in ts then f u else get_term p u.
Proof.
elim: ts p => [|t ts IH] p //= Hts Hu.
have Ht : t \in terms (n_vars p) by apply: Hts; rewrite mem_head.
have Hts' : {subset ts <= terms (n_vars (set_term p t (f t)))}.
  by move=> x Hx; rewrite n_vars_set_term; apply: Hts; rewrite inE Hx orbT.
rewrite (IH _ Hts') ?n_vars_set_term // inE get_set_term //.
by case: (altP (u =P t)) => [->|_] //=; case: ifP.
Qed.

(** A loop that updates every term of a duplicate-free list [ts] from its
    own current value. *)
Lemma get_term_foldl_update p (g : Z -> Z) ts u :
  uniq ts -> {subset ts <= terms (n_vars p)} -> u \in terms (n_vars p) ->
  get_term (foldl (fun q t => set_term q t (g (get_term q t))) p ts) u
  = if u \in ts then g (get_term p u) else get_term p u.
Proof.
elim: ts p => [|t ts IH] p //= /andP [Hnt Hu] Hts Hin.
have Ht : t \in terms (n_vars p) by apply: Hts; rewrite mem_head.
have Hts' : {subset ts <= terms (n_vars (set_term p t (g (get_term p t))))}.
  by move=> x Hx; rewrite n_vars_set_term; apply: Hts; rewrite inE Hx orbT.
rewrite (IH _ Hu Hts') ?n_vars_set_term // inE !get_set_term //.
case: (altP (u =P t)) => [->|_] /=; first by rewrite (negbTE Hnt).
by [].
Qed.

(** ** The mutator [_append_phase] *)

Lemma combinations1 (T : Type) (s : seq T) :
  combinations s 1 = [seq [:: x] | x <- s].
Proof. by elim: s => [|x s IH] //=; rewrite IH; case: s {IH}. Qed.

Lemma support_uniq n r : uniq (support_of n r).
Proof. exact/filter_uniq/iota_uniq. Qed.

Lemma subsets_support_terms n r d t :
  d <= 3 -> t \in combinations (support_of n r) d -> t \in terms n.
Proof.
move=> Hd; rewrite mem_combinations mem_terms => /andP [Hs /eqP ->].
by rewrite Hd andbT; apply: subseq_trans Hs (filter_subseq _ _).
Qed.

Lemma mem_subsets_support n r d t :
  t \in terms n ->
  (t \in combinations (support_of n r) d)
  = all (fun j => nth 0%Z r j != 0%Z) t && (size t == d).
Proof.
rewrite mem_terms => /andP [Ht _].
by rewrite mem_combinations /support_of subseq_filter Ht andbT.
Qed.

(** C4: for a qubit index in range, [_append_phase] first replaces the
    power [k] by [7 k mod 8] when [shift[i]] is 1; then, for every set of
    one, two or three variables of the support of row [i] of [linear], it
    adds [k], [-2 k] and [4 k] modulo 8 to the coefficient of that term,
    and it changes no other coefficient and nothing of the affine part.
    For an index out of range it raises [QiskitError] and changes
    nothing. *)
Theorem append_phase_spec (e : CNOTDihedral) (k i : Z) :
  let n := num_qubits e in
  let q := Z.to_nat i in
  let k' := if nth 0%Z (items (shift e)) q == 1%Z then ((7 * k) mod 8)%Z
            else k in
  let out := _append_phase e k i in
  (well_formed e -> in_bounds i n ->
   [/\ out.1 = Ok tt,
       forall u, u \in terms n -> u != [::] ->
         get_term (poly out.2) u
         = if all (fun j => entry (linear e) q j != 0%Z) u
           then ((get_term (poly e) u + phase_factor (size u) * k') mod 8)%Z
           else get_term (poly e) u,
       weight_0 (poly out.2) = weight_0 (poly e),
       linear out.2 = linear e /\ shift out.2 = shift e
     & num_qubits out.2 = n /\ well_formed out.2])
  /\ (~~ in_bounds i n ->
      out = (Raise (QiskitError "phase qubit out of bounds."), e)).
Proof.
move=> n q k' out; split; last first.
  by rewrite /out /_append_phase => ->.
move=> /well_formedP [Hn Hv Hp Hl Hs] Hi.
set r := row (linear e) q.
set sup := support_of n r.
pose upd d (p : SpecialPolynomial) :=
  foldl (fun p t =>
           set_term p t ((get_term p t + phase_factor d * k') mod 8)%Z)
        p (combinations sup d).
have Hout : out = (Ok tt, set_poly e (upd 3 (upd 2 (upd 1 (poly e))))).
  rewrite /out /_append_phase Hi; cbv beta iota zeta delta [negb].
  rewrite -/q -/k' -/n -/r -/sup; congr (_, set_poly _ _).
  rewrite /upd combinations1 foldl_map_seq.
  congr (foldl _ (foldl _ _ _) _).
  by apply: eq_foldl_seq => p t; rewrite /phase_factor Z.mul_1_l.
have Hshape d p : n_vars (upd d p) = n_vars p /\ (poly_wf p -> poly_wf (upd d p)).
  exact: (foldl_set_term_shape
            (fun p t => ((get_term p t + phase_factor d * k') mod 8)%Z) id).
have Hget d p u : d <= 3 -> n_vars p = n -> u \in terms n ->
    get_term (upd d p) u
    = if all (fun j => entry (linear e) q j != 0%Z) u && (size u == d)
      then ((get_term p u + phase_factor d * k') mod 8)%Z else get_term p u.
  move=> Hd Hnp Hu.
  rewrite /upd (get_term_foldl_update
                  (fun v => ((v + phase_factor d * k') mod 8)%Z)) ?Hnp //.
  - exact/combinations_uniq/support_uniq.
  - by move=> t; apply: subsets_support_terms.
  - by rewrite /sup mem_subsets_support.
have Hn1 : n_vars (upd 1 (poly e)) = n by rewrite (Hshape 1 _).1.
have Hn2 : n_vars (upd 2 (upd 1 (poly e))) = n by rewrite (Hshape 2 _).1.
rewrite Hout /=; split=> //.
- move=> u Hu Hnu; rewrite !Hget //.
  have := term_size_bounds Hu Hnu.
  case: (all _ u) => //=.
  by case: (size u) => [|[|[|[|d]]]].
- have H0 : [::] \in terms n by rewrite mem_terms sub0seq.
  by move: (Hget 3 _ _ isT Hn2 H0) (Hget 2 _ _ isT Hn1 H0) (Hget 1 _ _ isT Hv H0);
     rewrite /= => -> -> ->.
- split=> //; apply/well_formedP; split=> //=.
    by rewrite (Hshape 3 _).1.
  by apply: (Hshape 3 _).2; apply: (Hshape 2 _).2; apply: (Hshape 1 _).2.
Qed.

Lemma append_phase_spec_witness :
  let e := (_append_cx (identity 2) 0 1).2 in
  [/\ well_formed e, in_bounds 1 2
    & get_term (poly (_append_phase e 3 1).2) [:: 0; 1] = 2%Z].
Proof.
have [H _] := append_phase_spec (_append_cx (identity 2) 0 1).2 3 1.
have [_ H2 _ _ _] := H isT isT.
by split=> //; rewrite (H2 [:: 0; 1]).
Defined.

(** ** The tensor product *)

#[local] Arguments set_term : simpl never.
#[local] Arguments get_term : simpl never.

Lemma copy_termsE src n offset dst :
  copy_terms src n offset dst
  = foldl (fun q t => set_term q t (get_term src (unshift offset t)))
          dst (copy_writes n offset).
Proof.
rewrite /copy_terms /copy_writes foldl_flatten_seq foldl_map_seq.
apply: eq_foldl_seq => q1 i /=; rewrite addnK.
rewrite foldl_flatten_seq foldl_map_seq.
apply: eq_foldl_seq => q2 j /=; rewrite !addnK foldl_map_seq.
by apply: eq_foldl_seq => q3 k /=; rewrite !addnK.
Qed.

Lemma copy_writes_all n offset t :
  t \in copy_writes n offset ->
  [&& t != [::], size t <= 3, sorted ltn t
    & all (fun x => offset <= x < offset + n) t].
Proof.
case/flattenP => s1 /mapP [i]; rewrite mem_iota add0n /= => Hi ->.
rewrite inE => /orP [/eqP ->|] /=.
  by rewrite leq_addl addnC ltn_add2l Hi.
case/flattenP => s2 /mapP [j]; rewrite mem_iota add0n /= => Hj ->.
have Hjn := ltn_trans Hj Hi.
rewrite inE => /orP [/eqP ->|] /=.
  by rewrite !leq_addl ![_ + offset]addnC !ltn_add2l Hi Hj Hjn.
case/mapP => k; rewrite mem_iota add0n /= => Hk -> /=.
have Hkn := ltn_trans Hk Hjn.
by rewrite !leq_addl ![_ + offset]addnC !ltn_add2l Hi Hj Hk Hjn Hkn.
Qed.

Lemma copy_writes1 n offset i : i < n -> [:: i + offset] \in copy_writes n offset.
Proof.
move=> Hi; apply/flattenP.
exists ([:: i + offset]
        :: flatten
             [seq [:: j + offset; i + offset]
                  :: [seq [:: k + offset; j + offset; i + offset]
                     | k <- iota 0 j]
             | j <- iota 0 i]); last exact: mem_head.
by apply/mapP; exists i; rewrite // mem_iota add0n.
Qed.

Lemma copy_writes2 n offset j i :
  j < i -> i < n -> [:: j + offset; i + offset] \in copy_writes n offset.
Proof.
move=> Hj Hi; apply/flattenP.
exists ([:: i + offset]
        :: flatten
             [seq [:: j + offset; i + offset]
                  :: [seq [:: k + offset; j + offset; i + offset]
                     | k <- iota 0 j]
             | j <- iota 0 i]).
  by apply/mapP; exists i; rewrite // mem_iota add0n.
rewrite inE; apply/orP; right; apply/flattenP.
exists ([:: j + offset; i + offset]
        :: [seq [:: k + offset; j + offset; i + offset] | k <- iota 0 j]);
  last exact: mem_head.
by apply/mapP; exists j; rewrite // mem_iota add0n.
Qed.

Lemma copy_writes3 n offset k j i :
  k < j -> j < i -> i < n ->
  [:: k + offset; j + offset; i + offset] \in copy_writes n offset.
Proof.
move=> Hk Hj Hi; apply/flattenP.
exists ([:: i + offset]
        :: flatten
             [seq [:: j + offset; i + offset]
                  :: [seq [:: k + offset; j + offset; i + offset]
                     | k <- iota 0 j]
             | j <- iota 0 i]).
  by apply/mapP; exists i; rewrite // mem_iota add0n.
rewrite inE; apply/orP; right; apply/flattenP.
exists ([:: j + offset; i + offset]
        :: [seq [:: k + offset; j + offset; i + offset] | k <- iota 0 j]).
  by apply/mapP; exists j; rewrite // mem_iota add0n.
rewrite inE; apply/orP; right.
by apply/mapP; exists k; rewrite // mem_iota add0n.
Qed.

(** The loops of [copy_terms] write every term of one to three variables
    in the window of [n] variables from [offset] on, and no other. *)
Lemma mem_copy_writes n offset t :
  (t \in copy_writes n offset)
  = [&& t != [::], size t <= 3, sorted ltn t
      & all (fun x => offset <= x < offset + n) t].
Proof.
apply/idP/idP; first exact: copy_writes_all.
case: t => [|a [|b [|c [|d t]]]] //=.
- rewrite andbT => /andP [Ha1 Ha2].
  rewrite -(subnK Ha1); apply: copy_writes1.
  by rewrite -(ltn_add2l offset) subnKC.
- rewrite !andbT => /and3P [Hab /andP [Ha1 Ha2] /andP [Hb1 Hb2]].
  rewrite -(subnK Ha1) -(subnK Hb1); apply: copy_writes2.
    by rewrite -(ltn_add2l offset) !subnKC.
  by rewrite -(ltn_add2l offset) subnKC.
- rewrite !andbT => /and3P [/andP [Hab Hbc] /andP [Ha1 Ha2]
                            /andP [/andP [Hb1 Hb2] /andP [Hc1 Hc2]]].
  rewrite -(subnK Ha1) -(subnK Hb1) -(subnK Hc1); apply: copy_writes3.
  + by rewrite -(ltn_add2l offset) !subnKC.
  + by rewrite -(ltn_add2l offset) !subnKC.
  + by rewrite -(ltn_add2l offset) subnKC.
Qed.

Lemma copy_writes_terms n offset m :
  offset + n <= m -> {subset copy_writes n offset <= terms m}.
Proof.
move=> Hm t; rewrite mem_copy_writes mem_terms_sorted.
case/and4P => _ -> -> /allP H /=.
by apply/allP => x /H /andP [_ Hx]; apply: leq_trans Hx Hm.
Qed.

Lemma unshift0 t : unshift 0 t = t.
Proof. by rewrite /unshift; elim: t => [|x t IH] //=; rewrite subn0 IH. Qed.

Lemma entry_block_diag a b na nb i j :
  has_shape a na na -> has_shape b nb nb -> i < na + nb -> j < na + nb ->
  entry (np_block_diag a na b nb) i j
  = if (i < na) && (j < na) then entry a i j
    else if (na <= i) && (na <= j) then entry b (i - na) (j - na)
    else 0%Z.
Proof.
move=> Ha Hb Hi Hj; rewrite /entry /row /np_block_diag nth_cat size_map.
rewrite (has_shape_size Ha).
case: (ltnP i na) => Hia /=.
  rewrite (nth_map [::]) ?(has_shape_size Ha) // nth_cat.
  move: (has_shape_row Ha Hia); rewrite /row => ->.
  by case: (ltnP j na) => Hja //=; rewrite nth_nseq if_same.
have Hib : i - na < nb by rewrite ltn_subLR.
rewrite (nth_map [::]) ?(has_shape_size Hb) // nth_cat size_nseq.
by case: (ltnP j na) => Hja //=; rewrite nth_nseq Hja.
Qed.

Lemma has_shape_block_diag a b na nb :
  has_shape a na na -> has_shape b nb nb ->
  has_shape (np_block_diag a na b nb) (na + nb) (na + nb).
Proof.
move=> Ha Hb; rewrite /has_shape /np_block_diag size_cat !size_map.
rewrite (has_shape_size Ha) (has_shape_size Hb) eqxx /= all_cat.
case/andP: Ha => _ /allP Ha; case/andP: Hb => _ /allP Hb.
apply/andP; split; apply/allP => x /mapP [r Hr ->];
  by rewrite size_cat size_nseq ?(eqP (Ha _ Hr)) ?(eqP (Hb _ Hr)).
Qed.

Lemma copy_terms_shape src n offset dst :
  n_vars (copy_terms src n offset dst) = n_vars dst
  /\ (poly_wf dst -> poly_wf (copy_terms src n offset dst)).
Proof.
rewrite copy_termsE.
exact: (foldl_set_term_shape (fun _ t => get_term src (unshift offset t)) id).
Qed.

Lemma get_term_copy_terms src n offset dst t :
  offset + n <= n_vars dst -> t \in terms (n_vars dst) ->
  get_term (copy_terms src n offset dst) t
  = if t \in copy_writes n offset then get_term src (unshift offset t)
    else get_term dst t.
Proof.
move=> Hn Ht; rewrite copy_termsE.
rewrite (get_term_foldl_write (fun t => get_term src (unshift offset t))) //.
exact: copy_writes_terms.
Qed.

(** On two operands whose [shift]s are arrays [np.block] joins the two
    arrays, and [_tensor] returns an element. *)
Lemma _tensor_ok self other reverse :
  let elem0 := if reverse then self else other in
  let elem1 := if reverse then other else self in
  0 < num_qubits elem0 + num_qubits elem1 ->
  is_ndarray (shift elem0) -> is_ndarray (shift elem1) ->
  _tensor self other reverse
  = Ok (Element
          (mkElem (num_qubits elem0 + num_qubits elem1)
             (np_block_diag (linear elem0) (num_qubits elem0)
                            (linear elem1) (num_qubits elem1))
             (NdArray (items (shift elem0) ++ items (shift elem1)))
             (copy_terms (poly elem1) (num_qubits elem1) (num_qubits elem0)
                (copy_terms (poly elem0) (num_qubits elem0) 0
                   (SpecialPolynomial_new
                      (num_qubits elem0 + num_qubits elem1)))))).
Proof.
move=> elem0 elem1 Hn; rewrite /_tensor -/elem0 -/elem1 init_identity //=.
by case: (shift elem0) => [s0|s0] //; case: (shift elem1) => [s1|s1].
Qed.

(** On one operand whose [shift] is a list and one whose [shift] is an
    array, [np.block] raises and [_tensor] returns nothing. *)
Lemma _tensor_list_array self other reverse :
  0 < num_qubits self + num_qubits other ->
  is_ndarray (shift self) != is_ndarray (shift other) ->
  _tensor self other reverse = Raise (ValueError "List depths are mismatched").
Proof.
move=> Hn Hs; rewrite /_tensor.
have Hn' : 0 < num_qubits other + num_qubits self by rewrite addnC.
case: reverse; rewrite /= init_identity //=;
  by move: Hs; case: (shift self) => [s0|s0]; case: (shift other) => [s1|s1].
Qed.

(** C6, at the element that [compose] returns for two 1-qubit identity
    elements: it has the array shapes of the class and is valid, but its
    [shift] is a list.  Its tensor product with the 1-qubit identity
    element, on either side and through [tensor] and [expand] alike, is no
    element on 2 qubits: [np.block] raises [ValueError] on a list next to
    an array.  Its tensor product with itself is returned with a [shift]
    of two rows, where the concatenation of the two shifts is one array
    of length 2. *)
Theorem tensor_raises_after_compose :
  exists a : CNOTDihedral,
    [/\ compose (identity 1) (identity 1) None false = Ok a,
        well_formed a /\ valid a,
        tensor a (identity 1)
        = Raise (ValueError "List depths are mismatched")
        /\ tensor (identity 1) a
           = Raise (ValueError "List depths are mismatched"),
        expand a (identity 1)
        = Raise (ValueError "List depths are mismatched")
      & tensor a a
        = Ok (Stacked 2 (np_eye 2) [:: [:: 0%Z]; [:: 0%Z]]
                (SpecialPolynomial_new 2))].
Proof.
exists (mkElem 1 [:: [:: 1%Z]] (PyList [:: 0%Z]) (SpecialPolynomial_new 1)).
split; [by vm_compute| |by split; vm_compute|by vm_compute|by vm_compute].
by split; [|apply/validP].
Qed.



(** ** Arithmetic of polynomials *)

Lemma index_monomials_lt p t :
  poly_wf p -> t \in terms (n_vars p) -> t != [::] ->
  index t (monomials (n_vars p) (size t)) < size (weight p (size t)).
Proof.
move=> Hp Ht Hnt; rewrite size_weight ?(term_size_bounds Ht) //.
by rewrite -size_monomials index_mem terms_monomials.
Qed.

Lemma weight_poly_add p q k :
  0 < k <= 3 ->
  weight (poly_add p q) k
  = zip_with (fun x y => ((x + y) mod 8)%Z) (weight p k) (weight q k).
Proof. by case: k => [|[|[|[|k]]]]. Qed.

Lemma weight_poly_scale c p k :
  weight (poly_scale c p) k = [seq ((c * x) mod 8)%Z | x <- weight p k].
Proof. by case: k => [|[|[|[|k]]]]. Qed.

Lemma poly_wf_add p q :
  poly_wf p -> poly_wf q -> n_vars p = n_vars q -> poly_wf (poly_add p q).
Proof.
move=> /and3P [/eqP H1 /eqP H2 /eqP H3] /and3P [/eqP G1 /eqP G2 /eqP G3] Hn.
by rewrite /poly_wf /= !size_zip_with H1 H2 H3 G1 G2 G3 -Hn !minnn !eqxx.
Qed.

Lemma poly_wf_scale c p : poly_wf p -> poly_wf (poly_scale c p).
Proof. by rewrite /poly_wf /= !size_map. Qed.

Lemma get_term_add p q t :
  poly_wf p -> poly_wf q -> n_vars p = n_vars q -> t \in terms (n_vars p) ->
  get_term (poly_add p q) t = ((get_term p t + get_term q t) mod 8)%Z.
Proof.
move=> Hp Hq Hn Ht; case: (altP (t =P [::])) => [->|Hnt] //.
have Hk := term_size_bounds Ht Hnt.
rewrite !get_termE // weight_poly_add // -Hn /= nth_zip_with //.
  by rewrite !size_weight // Hn.
exact: index_monomials_lt.
Qed.

Lemma get_term_scale c p t :
  poly_wf p -> t \in terms (n_vars p) ->
  get_term (poly_scale c p) t = ((c * get_term p t) mod 8)%Z.
Proof.
move=> Hp Ht; case: (altP (t =P [::])) => [->|Hnt] //.
rewrite !get_termE // weight_poly_scale /= (nth_map 0%Z) //.
exact: index_monomials_lt.
Qed.

Lemma get_term_mul p q t :
  t \in terms (n_vars p) ->
  get_term (poly_mul p q) t
  = (sumz [seq (if munion (n_vars p) a b == t
                then get_term p a * get_term q b else 0)%Z
          | a <- terms (n_vars p), b <- terms (n_vars p)] mod 8)%Z.
Proof. by move=> Ht; rewrite /poly_mul get_term_poly_of_fun. Qed.

Lemma get_term_set_weight_0 p v t :
  get_term (set_weight_0 p v) t = if t == [::] then v else get_term p t.
Proof. by case: t. Qed.

Lemma poly_of_fun_ext n f g :
  (forall t, t \in terms n -> f t = g t) -> poly_of_fun n f = poly_of_fun n g.
Proof.
move=> H; rewrite /poly_of_fun.
have H0 : f [::] = g [::] by apply: H; rewrite mem_terms sub0seq.
have Hk k : 0 < k <= 3 -> [seq f t | t <- monomials n k]
                          = [seq g t | t <- monomials n k].
  move=> /andP [_ Hk]; apply/eq_in_map => t Ht; apply: H.
  exact: monomials_terms Ht.
by rewrite H0 (Hk 1) // (Hk 2) // (Hk 3).
Qed.

Lemma get_term_one n t :
  t \in terms n -> get_term (poly_one n) t = if t == [::] then 1%Z else 0%Z.
Proof.
move=> Ht; have H0 : [::] \in terms n by rewrite mem_terms sub0seq.
by rewrite /poly_one get_set_term // get_term_new.
Qed.

Lemma poly_wf_one n : poly_wf (poly_one n).
Proof. exact/poly_wf_set_term/poly_wf_new. Qed.

Lemma n_vars_one n : n_vars (poly_one n) = n.
Proof. by rewrite /poly_one n_vars_set_term. Qed.

(** Every coefficient an array holds is the coefficient of a term. *)
Lemma weight_entry_term p k c :
  poly_wf p -> 0 < k <= 3 -> c \in weight p k ->
  exists2 t, t \in monomials (n_vars p) k & c = get_term p t.
Proof.
move=> Hp Hk /(nthP 0%Z) [i Hi <-].
move: Hi; rewrite size_weight // -size_monomials => Hi.
set t := nth [::] (monomials (n_vars p) k) i.
have Hm : t \in monomials (n_vars p) k by apply: mem_nth.
have Hsz : size t = k by move: Hm; rewrite mem_monomials => /andP [_ /eqP].
have Hnt : t != [::] by move: Hsz Hk; case: (t) => // <-.
exists t => //.
by rewrite get_termE // Hsz index_uniq // monomials_uniq.
Qed.

Lemma get_term_weight p t :
  poly_wf p -> t \in terms (n_vars p) -> t != [::] ->
  get_term p t \in weight p (size t).
Proof.
by move=> Hp Ht Hnt; rewrite get_termE // mem_nth // index_monomials_lt.
Qed.

(** ** Divisibility of the coefficients by powers of 2 *)

Lemma pow2_divide_le x y :
  x <= y -> Z.divide (2 ^ Z.of_nat x) (2 ^ Z.of_nat y).
Proof.
move=> /subnKC <-; rewrite -plusE Nat2Z.inj_add Z.pow_add_r; try lia.
exact: Z.divide_factor_l.
Qed.

Lemma divide_mod8 e a :
  e <= 3 -> Z.divide (2 ^ Z.of_nat e) a -> Z.divide (2 ^ Z.of_nat e) (a mod 8).
Proof.
move=> He Ha; rewrite Z.mod_eq //.
apply: Z.divide_sub_r => //; apply: Z.divide_mul_l.
exact: (pow2_divide_le He).
Qed.

Lemma divide_sumz d s :
  (forall x, x \in s -> Z.divide d x) -> Z.divide d (sumz s).
Proof.
elim: s => [|x s IH] H /=; first exact: Z.divide_0_r.
apply: Z.divide_add_r; first by apply: H; rewrite mem_head.
by apply: IH => y Hy; apply: H; rewrite inE Hy orbT.
Qed.

Lemma mul_divide_mono a b c d :
  Z.divide a b -> Z.divide c d -> Z.divide (a * c) (b * d).
Proof. by case=> x -> [y ->]; exists (x * y)%Z; ring. Qed.

Lemma term_size_le3 n t : t \in terms n -> size t <= 3.
Proof. by rewrite mem_terms => /andP []. Qed.

Lemma graded_weaken m m' p : m <= m' -> graded m p -> graded m' p.
Proof.
move=> Hm H t Ht; apply: Z.divide_trans (H t Ht).
by apply: pow2_divide_le; apply: leq_sub2l.
Qed.

Lemma graded_new m n : graded m (SpecialPolynomial_new n).
Proof. by move=> t _; rewrite get_term_new; apply: Z.divide_0_r. Qed.

Lemma graded_one n : graded 0 (poly_one n).
Proof.
move=> t; rewrite n_vars_one => Ht; rewrite get_term_one //.
by case: t {Ht} => [|a t] /=; [exact: Z.divide_refl|exact: Z.divide_0_r].
Qed.

Lemma graded_add m p q :
  poly_wf p -> poly_wf q -> n_vars p = n_vars q ->
  graded m p -> graded m q -> graded m (poly_add p q).
Proof.
move=> Hp Hq Hn Gp Gq t Ht; rewrite get_term_add //.
apply: divide_mod8; first exact: leq_trans (leq_subr _ _) (term_size_le3 Ht).
by apply: Z.divide_add_r; [apply: Gp|apply: Gq; rewrite -Hn].
Qed.

Lemma graded_scale j m c p :
  poly_wf p -> Z.divide (2 ^ Z.of_nat j) c -> graded m p ->
  graded (m - j) (poly_scale c p).
Proof.
move=> Hp Hc Gp t Ht; rewrite get_term_scale //.
apply: divide_mod8; first exact: leq_trans (leq_subr _ _) (term_size_le3 Ht).
have Hle : size t - (m - j) <= j + (size t - m).
  by apply/leP; rewrite -!minusE -!plusE; lia.
apply: Z.divide_trans (pow2_divide_le Hle) _.
rewrite -plusE Nat2Z.inj_add Z.pow_add_r; try lia.
by apply: mul_divide_mono; [exact: Hc|exact: Gp].
Qed.

Lemma size_munion n a b : size (munion n a b) <= size a + size b.
Proof.
rewrite /munion size_filter.
have Hc s : count (fun i => i \in s) (iota 0 n) <= size s.
  rewrite -size_filter; apply: uniq_leq_size.
    exact/filter_uniq/iota_uniq.
  by move=> x; rewrite mem_filter => /andP [].
apply: leq_trans (leq_add (Hc a) (Hc b)).
rewrite -(count_predUI (fun i => i \in a) (fun i => i \in b)).
exact: leq_addr.
Qed.

Lemma n_vars_mul p q : n_vars (poly_mul p q) = n_vars p.
Proof. by []. Qed.

Lemma poly_wf_mul p q : poly_wf (poly_mul p q).
Proof. exact: poly_wf_poly_of_fun. Qed.

Lemma graded_mul m1 m2 p q :
  n_vars p = n_vars q -> graded m1 p -> graded m2 q ->
  graded (m1 + m2) (poly_mul p q).
Proof.
move=> Hn Gp Gq t Ht; rewrite n_vars_mul in Ht; rewrite get_term_mul //.
apply: divide_mod8; first exact: leq_trans (leq_subr _ _) (term_size_le3 Ht).
apply: divide_sumz => x /allpairsP [[a b] /= [Ha Hb ->]].
case: eqP => [Ht'|_]; last exact: Z.divide_0_r.
have Hle : size t - (m1 + m2) <= (size a - m1) + (size b - m2).
  move: (size_munion (n_vars p) a b); rewrite Ht'.
  move: (size t) (size a) (size b) => st sa sb /leP H.
  by apply/leP; move: H; rewrite -!minusE -!plusE; lia.
apply: Z.divide_trans (pow2_divide_le Hle) _.
rewrite -plusE Nat2Z.inj_add Z.pow_add_r; try lia.
by apply: mul_divide_mono; [apply: Gp|apply: Gq; rewrite -Hn].
Qed.

(** *** The substituted variables *)

Lemma n_vars_new_var n m r s : n_vars (new_var n m r s) = n.
Proof. by rewrite /new_var; case: ifP. Qed.

Lemma poly_wf_new_var n m r s : poly_wf (new_var n m r s).
Proof.
rewrite /new_var; case: ifP => _; last exact: poly_wf_poly_of_fun.
exact: (poly_wf_scale (-1) (poly_wf_poly_of_fun _ _)).
Qed.

Lemma pj_coeff_divide J t :
  size t <= 3 -> Z.divide (2 ^ Z.of_nat (size t - 1)) (pj_coeff J t).
Proof.
rewrite /pj_coeff; case: ifP => _; last by move=> _; exact: Z.divide_0_r.
by case: t => [|a [|b [|c [|d t]]]] //= _; [exists 1%Z|exists 1%Z|exists 3%Z|exists 1%Z].
Qed.

Lemma pj_coeff_range J t : (0 <= pj_coeff J t < 8)%Z.
Proof.
rewrite /pj_coeff; case: ifP => _ //.
exact: Z.mod_pos_bound.
Qed.

Lemma get_term_new_var n m r s t :
  t \in terms n ->
  get_term (new_var n m r s) t
  = if s == 1%Z
    then (if t == [::] then 1%Z
          else ((-1) * pj_coeff (support_of m r) t) mod 8)%Z
    else pj_coeff (support_of m r) t.
Proof.
move=> Ht; rewrite /new_var; case: ifP => _; last first.
  by rewrite /set_pj get_term_poly_of_fun.
rewrite get_term_set_weight_0; case: (altP (t =P [::])) => [_|Hnt] //=.
rewrite get_term_scale ?get_term_poly_of_fun //.
exact: poly_wf_poly_of_fun.
Qed.

Lemma graded_new_var n m r s : graded 1 (new_var n m r s).
Proof.
move=> t; rewrite n_vars_new_var => Ht; rewrite get_term_new_var //.
have H3 := term_size_le3 Ht.
case: ifP => _; last exact: pj_coeff_divide.
case: eqP => [->|_]; first by exists 1%Z.
apply: divide_mod8; first exact: leq_trans (leq_subr _ _) H3.
by apply: Z.divide_mul_r; apply: pj_coeff_divide.
Qed.

(** *** Evaluation *)

Lemma foldl_inv (A : eqType) (B : Type) (Q : B -> Prop) (f : B -> A -> B)
  (s : seq A) (z : B) :
  Q z -> (forall acc x, x \in s -> Q acc -> Q (f acc x)) -> Q (foldl f z s).
Proof.
elim: s z => [|x s IH] z //= Hz Hf.
apply: IH; first by apply: Hf => //; rewrite mem_head.
by move=> acc y Hy; apply: Hf; rewrite inE Hy orbT.
Qed.

Lemma foldl_mul_shape start l :
  poly_wf start ->
  n_vars (foldl poly_mul start l) = n_vars start
  /\ poly_wf (foldl poly_mul start l).
Proof.
elim: l start => [|x l IH] start Hs //=.
by have [-> H] := IH (poly_mul start x) (poly_wf_mul _ _).
Qed.

Lemma graded_foldl_mul m start l :
  graded m start ->
  List.Forall (fun x => n_vars x = n_vars start /\ graded 1 x) l ->
  graded (m + size l) (foldl poly_mul start l).
Proof.
elim: l m start => [|x l IH] m start Gs Hl /=; first by rewrite addn0.
have [[Hx Gx] Hl'] := proj1 (List.Forall_cons_iff _ x l) Hl.
rewrite -addSnnS -addn1; apply: IH => //.
exact: graded_mul.
Qed.

(** What a step of [evaluate] multiplies for the term [t]. *)
Lemma newterm_shape n xval (t : seq nat) :
  n_vars (foldl poly_mul (poly_one n)
                [seq nth (SpecialPolynomial_new n) xval j | j <- t]) = n
  /\ poly_wf (foldl poly_mul (poly_one n)
                    [seq nth (SpecialPolynomial_new n) xval j | j <- t]).
Proof.
have [H1 H2] := foldl_mul_shape
                  [seq nth (SpecialPolynomial_new n) xval j | j <- t]
                  (poly_wf_one n).
by split=> //; rewrite H1 n_vars_one.
Qed.

Lemma evaluate_shape p xval :
  n_vars (evaluate p xval) = n_vars p /\ poly_wf (evaluate p xval).
Proof.
rewrite /evaluate.
apply: (@foldl_inv _ _ (fun q => n_vars q = n_vars p /\ poly_wf q)).
  by split=> //; apply: poly_wf_new.
move=> acc t _ [Hn Hw]; case: ifP => // _.
have [H1 H2] := newterm_shape (n_vars p) xval t.
by split=> //; apply: poly_wf_add; rewrite /= ?H1 //; apply: poly_wf_scale.
Qed.

Lemma graded_evaluate p xval :
  graded 1 p ->
  (forall j, j < size xval ->
     n_vars (nth (SpecialPolynomial_new (n_vars p)) xval j) = n_vars p
     /\ graded 1 (nth (SpecialPolynomial_new (n_vars p)) xval j)) ->
  graded 1 (evaluate p xval).
Proof.
move=> Gp Hx; rewrite /evaluate.
suff: [/\ n_vars (evaluate p xval) = n_vars p, poly_wf (evaluate p xval)
        & graded 1 (evaluate p xval)] by case.
apply: (@foldl_inv _ _
          (fun q => [/\ n_vars q = n_vars p, poly_wf q & graded 1 q])).
  by split=> //; [apply: poly_wf_new|apply: graded_new].
move=> acc t Ht [Hn Hw Ga]; cbv beta zeta; case: ifP => // _.
have [] := newterm_shape (n_vars p) xval t.
set newterm := foldl _ _ _ => H1 H2.
have Gn : graded (size t) newterm.
  rewrite -[size t]add0n -(size_map (nth (SpecialPolynomial_new (n_vars p)) xval)).
  apply: graded_foldl_mul; first exact: graded_one.
  rewrite n_vars_one; elim: (t) => [|j s IH] /=; first exact: List.Forall_nil.
  apply: List.Forall_cons => //.
  case: (ltnP j (size xval)) => Hj; first exact: Hx.
  by rewrite nth_default //; split=> //; apply: graded_new.
have Gs : graded 1 (poly_scale (get_term p t) newterm).
  apply: (@graded_weaken (size t - (size t - 1))).
    by case: (size t) => [|k] //; rewrite subn1 /= subSnn.
  by apply: graded_scale => //; apply: Gp.
have Hs := poly_wf_scale (get_term p t) H2.
by split; [|apply: poly_wf_add; rewrite /= ?H1|apply: graded_add; rewrite /= ?H1].
Qed.

(** ** Closure of the valid elements under composition *)

Lemma _dot_compose a b : _dot a b = _compose b a.
Proof.
rewrite /_dot /_compose eq_sym.
by case: (altP (num_qubits b =P num_qubits a)) => [->|].
Qed.

Lemma mem_0246 c : (0 <= c < 8)%Z -> Z.divide 2 c -> c \in [:: 0; 2; 4; 6]%Z.
Proof.
move=> Hc [x Hx].
have : (x = 0 \/ x = 1 \/ x = 2 \/ x = 3)%Z by lia.
by rewrite Hx; case=> [->|[->|[->| ->]]].
Qed.

Lemma mem_04 c : (0 <= c < 8)%Z -> Z.divide 4 c -> c \in [:: 0; 4]%Z.
Proof.
move=> Hc [x Hx].
have : (x = 0 \/ x = 1)%Z by lia.
by rewrite Hx; case=> ->.
Qed.

Lemma range_zip_add8 u v c :
  c \in zip_with (fun x y => ((x + y) mod 8)%Z) u v -> (0 <= c < 8)%Z.
Proof. by case/mapP => x _ ->; apply: Z.mod_pos_bound. Qed.

Lemma binary_mod2 x : (x mod 2)%Z \in [:: 0; 1]%Z.
Proof.
have H : (0 <= x mod 2 < 2)%Z by apply: Z.mod_pos_bound.
have : ((x mod 2) = 0 \/ (x mod 2) = 1)%Z by lia.
by case=> ->.
Qed.

Lemma valid_graded e :
  valid e -> n_vars (poly e) = num_qubits e -> graded 1 (poly e).
Proof.
move=> Hv Hn t Ht.
have Hp := poly_wf_valid Hv Hn.
case: Hv => _ _ _ [_ H2 H3] _.
case: (altP (t =P [::])) => [->|Hnt].
  by exists (get_term (poly e) [::]); rewrite /= Z.mul_1_r.
have := get_term_weight Hp Ht Hnt.
have := term_size_bounds Ht Hnt.
case: (size t) => [|[|[|[|k]]]] //= _ Hc.
- by exists (get_term (poly e) t); rewrite Z.mul_1_r.
- by move: (H2 _ Hc); rewrite !inE => /or4P [] /eqP ->;
     [exists 0%Z|exists 1%Z|exists 2%Z|exists 3%Z].
- by move: (H3 _ Hc); rewrite !inE => /orP [] /eqP ->; [exists 0%Z|exists 1%Z].
Qed.

Lemma valid_range e t :
  valid e -> n_vars (poly e) = num_qubits e -> t \in terms (num_qubits e) ->
  (0 <= get_term (poly e) t < 8)%Z.
Proof.
move=> Hv Hn Ht.
have Hp := poly_wf_valid Hv Hn.
case: Hv => H0 _ _ [H1 H2 H3] _.
case: (altP (t =P [::])) => [->|Hnt]; first by rewrite /get_term H0.
rewrite -Hn in Ht.
have := get_term_weight Hp Ht Hnt.
have := term_size_bounds Ht Hnt.
case: (size t) => [|[|[|[|k]]]] //= _ Hc.
- by move: (H1 _ Hc); lia.
- by move: (H2 _ Hc); rewrite !inE => /or4P [] /eqP ->.
- by move: (H3 _ Hc); rewrite !inE => /orP [] /eqP ->.
Qed.

(** A polynomial with coefficients reduced modulo 8 and divisible as
    [graded 1] says satisfies condition (d) of section 4.7. *)
Lemma graded_ranges p :
  poly_wf p -> graded 1 p ->
  (forall k c, 0 < k <= 3 -> c \in weight p k -> (0 <= c < 8)%Z) ->
  [/\ forall c, c \in weight_1 p -> (0 <= c <= 7)%Z,
      forall c, c \in weight_2 p -> c \in [:: 0; 2; 4; 6]%Z
    & forall c, c \in weight_3 p -> c \in [:: 0; 4]%Z].
Proof.
move=> Hp Gp Hr; split=> c Hc.
- by move: (Hr 1 c isT Hc); lia.
- apply: mem_0246; first exact: (Hr 2 c isT Hc).
  have [t Ht ->] := weight_entry_term Hp (isT : 0 < 2 <= 3) Hc.
  have Ht' := monomials_terms (isT : 2 <= 3) Ht.
  move: Ht; rewrite mem_monomials => /andP [_ /eqP Hsz].
  by move: (Gp t Ht'); rewrite Hsz.
- apply: mem_04; first exact: (Hr 3 c isT Hc).
  have [t Ht ->] := weight_entry_term Hp (isT : 0 < 3 <= 3) Hc.
  have Ht' := monomials_terms (isT : 3 <= 3) Ht.
  move: Ht; rewrite mem_monomials => /andP [_ /eqP Hsz].
  by move: (Gp t Ht'); rewrite Hsz.
Qed.

Lemma size_z2matvecmul m v : size (_z2matvecmul m v) = size m.
Proof. by rewrite /_z2matvecmul /np_dot_mv !size_map. Qed.

Lemma weight_set_weight_0 p v k : weight (set_weight_0 p v) k = weight p k.
Proof. by case: k => [|[|[|[|k]]]]. Qed.

(** The element that [_compose] returns. *)
Lemma _compose_ok self other :
  0 < num_qubits self -> num_qubits self = num_qubits other ->
  _compose self other
  = Ok (mkElem (num_qubits self)
          (_z2matmul (linear other) (linear self))
          (PyList (zip_with (fun x y => ((x + y) mod 2)%Z)
                     (_z2matvecmul (linear other) (items (shift self)))
                     (items (shift other))))
          (poly_add (poly self)
             (evaluate (poly other)
                [seq new_var (num_qubits self) (num_qubits self)
                             (row (linear self) i)
                             (nth 0%Z (items (shift self)) i)
                | i <- iota 0 (num_qubits self)]))).
Proof.
by move=> Hn Heq; rewrite /_compose Heq eqxx /= -Heq init_identity.
Qed.

Lemma _compose_valid self other :
  well_formed self -> well_formed other -> valid self -> valid other ->
  num_qubits self = num_qubits other ->
  exists r,
    [/\ _compose self other = Ok r,
        valid (set_poly r (set_weight_0 (poly r) 0%Z))
      & well_formed (set_poly r (set_weight_0 (poly r) 0%Z))].
Proof.
move=> /well_formedP [Hn Hv Hp Hl Hs] /well_formedP [Hn' Hv' Hp' Hl' Hs'].
move=> Vs Vo Heq.
rewrite _compose_ok //.
set nv := [seq new_var _ _ _ _ | i <- _].
set r := mkElem _ _ _ _.
have [En Ew] := evaluate_shape (poly other) nv.
have Hwf : poly_wf (poly_add (poly self) (evaluate (poly other) nv)).
  by apply: poly_wf_add => //; rewrite En Hv Hv'.
have Hnv j : j < size nv ->
    n_vars (nth (SpecialPolynomial_new (n_vars (poly other))) nv j)
    = n_vars (poly other)
    /\ graded 1 (nth (SpecialPolynomial_new (n_vars (poly other))) nv j).
  rewrite /nv size_map size_iota => Hj.
  rewrite (nth_map 0) ?size_iota // n_vars_new_var Hv' Heq; split=> //.
  exact: graded_new_var.
have Gr : graded 1 (poly_add (poly self) (evaluate (poly other) nv)).
  apply: graded_add => //; rewrite ?En ?Hv ?Hv' //.
    exact: valid_graded.
  by apply: graded_evaluate => //; apply: valid_graded.
have Hsh : has_shape (_z2matmul (linear other) (linear self))
                     (num_qubits self) (num_qubits self).
  by apply: has_shape_z2matmul => //; rewrite Heq.
have Hsz : size (zip_with (fun x y => ((x + y) mod 2)%Z)
                   (_z2matvecmul (linear other) (items (shift self)))
                   (items (shift other))) = num_qubits self.
  rewrite size_zip_with size_z2matvecmul (has_shape_size Hl') Hs' -Heq.
  exact: minnn.
exists r; split=> //.
- split=> //.
  + case/and3P: (Hwf) => /= /eqP -> /eqP -> /eqP ->.
    by rewrite Hv.
  + split=> //.
    case: Vs Vo => _ _ [_ _ Ds] _ _ [_ _ [_ _ Do] _ _].
    by apply: (@det_z2matmul _ _ (num_qubits self)) => //; rewrite Heq.
  + apply: (@graded_ranges
              (set_weight_0 (poly_add (poly self) (evaluate (poly other) nv)) 0)).
    * exact: Hwf.
    * move=> t Ht; rewrite get_term_set_weight_0; case: eqP => // _.
        exact: Z.divide_0_r.
      exact: Gr.
    * move=> k c Hk; rewrite weight_set_weight_0 weight_poly_add //.
      exact: range_zip_add8.
  + split.
      by move=> x /mapP [y _ ->]; apply: binary_mod2.
    by move=> row x /mapP [y _ ->] /mapP [z _ ->]; apply: binary_mod2.
- by apply/well_formedP; split=> //=; exact: Hwf.
Qed.

(** C3: for valid [a] and [b] on the same number of qubits and either
    value of [front], [compose] returns an element that satisfies the five
    conditions of section 4.7 and whose polynomial has the constant 0. *)
Theorem compose_closed (a b : CNOTDihedral) (front : bool) :
  well_formed a -> well_formed b -> valid a -> valid b ->
  num_qubits a = num_qubits b ->
  exists r : CNOTDihedral,
    [/\ compose a b None front = Ok r, valid r, weight_0 (poly r) = 0%Z
      & well_formed r].
Proof.
move=> Wa Wb Va Vb Heq; rewrite /compose Heq eqxx /=.
case: front; rewrite ?_dot_compose.
- have [r [-> Vr Wr]] := _compose_valid Wb Wa Vb Va (esym Heq).
  by exists (set_poly r (set_weight_0 (poly r) 0%Z)).
- have [r [-> Vr Wr]] := _compose_valid Wa Wb Va Vb Heq.
  by exists (set_poly r (set_weight_0 (poly r) 0%Z)).
Qed.

(** The element [compose] returns keeps its [shift] in a list, so that
    [_is_valid] raises on the composition of any two valid elements. *)
Lemma compose_shift_list a b qargs front r :
  compose a b qargs front = Ok r -> ~~ is_ndarray (shift r).
Proof.
rewrite /compose; case: qargs => [q|] //.
case: ifP => // _.
case: front; rewrite /_dot /_compose; case: ifP => // _;
  by case: (__init__ _ _ _) => [x|x] //= [<-].
Qed.

Lemma _is_valid_after_compose a b front :
  well_formed a -> well_formed b -> valid a -> valid b ->
  num_qubits a = num_qubits b ->
  exists r,
    compose a b None front = Ok r
    /\ _is_valid r
       = Raise (AttributeError "list object has no attribute flatten").
Proof.
move=> Wa Wb Va Vb Heq.
have [r Hr Vr] : exists2 r, compose a b None front = Ok r & valid r.
  rewrite /compose Heq eqxx /=.
  case: front; rewrite ?_dot_compose.
  - have [r [-> Vr _]] := _compose_valid Wb Wa Vb Va (esym Heq).
    by exists (set_poly r (set_weight_0 (poly r) 0%Z)).
  - have [r [-> Vr _]] := _compose_valid Wa Wb Va Vb Heq.
    by exists (set_poly r (set_weight_0 (poly r) 0%Z)).
exists r; split=> //.
exact: _is_valid_list Vr (compose_shift_list Hr).
Qed.

Lemma compose_closed_witness :
  let a := (_append_phase (_append_cx (identity 2) 0 1).2 1 1).2 in
  let b := (_append_x (identity 2) 0).2 in
  [/\ well_formed a, well_formed b, valid a, valid b
    & exists r, compose a b None false = Ok r /\ weight_0 (poly r) = 0%Z].
Proof.
have Va : valid (_append_phase (_append_cx (identity 2) 0 1).2 1 1).2.
  by apply/validP; vm_compute.
have Vb : valid (_append_x (identity 2) 0).2 by apply/validP; vm_compute.
split=> //.
have [r [H1 _ H2 _]] :=
  @compose_closed (_append_phase (_append_cx (identity 2) 0 1).2 1 1).2
                  (_append_x (identity 2) 0).2 false isT isT Va Vb (erefl _).
by exists r.
Defined.

(** ** The two multiplications *)

Lemma nth_z2matvecmul m v i :
  i < size m -> nth 0%Z (_z2matvecmul m v) i = (dotp (row m i) v mod 2)%Z.
Proof.
move=> Hi; rewrite /_z2matvecmul /np_dot_mv (nth_map 0%Z) ?size_map //.
by rewrite (nth_map [::]).
Qed.

(** C1, as the code has it: for [A] and [B] on the same number of qubits,
    [_dot] with [self = A] and [other = B], and equally [_compose] with
    [self = B] and [other = A], return the element with
    [shift = (A.linear . B.shift + A.shift) mod 2],
    [linear = (A.linear . B.linear) mod 2] and
    [poly = B.poly + A.poly.evaluate(new_vars)], where [new_vars] has for
    each [i] the parity polynomial of the support of row [i] of
    [B.linear], negated and with 1 added to its constant when [B.shift[i]]
    is 1. *)
Theorem dot_spec (A B : CNOTDihedral) :
  well_formed A -> well_formed B -> num_qubits A = num_qubits B ->
  let n := num_qubits A in
  let new_vars :=
    [seq new_var n n (row (linear B) i) (nth 0%Z (items (shift B)) i)
    | i <- iota 0 n] in
  exists r : CNOTDihedral,
    [/\ _dot A B = Ok r /\ _compose B A = Ok r,
        num_qubits r = n
        /\ (forall i, i < n ->
              nth 0%Z (items (shift r)) i
              = ((dotp (row (linear A) i) (items (shift B))
                  + nth 0%Z (items (shift A)) i) mod 2)%Z),
        forall i j, i < n -> j < n ->
          entry (linear r) i j
          = (dotp (row (linear A) i) (col (linear B) j) mod 2)%Z,
        size new_vars = n
        /\ (forall i t, i < n -> t \in terms n ->
              get_term (nth (SpecialPolynomial_new n) new_vars i) t
              = let J := support_of n (row (linear B) i) in
                if nth 0%Z (items (shift B)) i == 1%Z
                then (if t == [::] then 1%Z else ((- pj_coeff J t) mod 8)%Z)
                else pj_coeff J t)
      & poly r = poly_add (poly B) (evaluate (poly A) new_vars)].
Proof.
move=> /well_formedP [Hn Hv Hp Hl Hs] /well_formedP [Hn' Hv' Hp' Hl' Hs'] Heq.
move=> n new_vars.
rewrite _dot_compose _compose_ok -?Heq // -/n.
eexists; split; [split; reflexivity| | | |reflexivity] => /=.
- split=> // i Hi.
  rewrite nth_zip_with ?size_z2matvecmul ?(has_shape_size Hl) ?Hs //.
  by rewrite nth_z2matvecmul ?(has_shape_size Hl) // Z.add_mod_idemp_l.
- move=> i j Hi Hj.
  by rewrite entry_z2matmul ?(has_shape_size Hl) ?(has_shape_ncols Hl') -?Heq.
- rewrite size_map size_iota; split=> // i t Hi Ht.
  have Hi' : i < size (iota 0 n) by rewrite size_iota.
  rewrite /new_vars (nth_map 0 _ _ Hi') (nth_iota _ _ Hi) add0n.
  by rewrite get_term_new_var // Z.mul_opp_l Z.mul_1_l.
Qed.

Lemma dot_spec_witness :
  let A := (_append_phase (identity 1) 1 0).2 in
  let B := (_append_x (identity 1) 0).2 in
  [/\ well_formed A, well_formed B, num_qubits A = num_qubits B
    & exists r, _dot A B = Ok r
                /\ poly r = mkPoly 1 1%Z [:: 7%Z] [::] [::]].
Proof.
split=> //.
have [r [[H1 _] _ _ _ H2]] :=
  @dot_spec (_append_phase (identity 1) 1 0).2 (_append_x (identity 1) 0).2
            isT isT (erefl _).
by exists r; split=> //; rewrite H2.
Defined.

(** C1, as the specification words step 4: with [A] a phase gate and [B] a
    bit flip on one qubit, the polynomial of [_dot] is not
    [A.poly + B.poly.evaluate(new_vars)]. *)
Lemma dot_poly_counterexample :
  let A := (_append_phase (identity 1) 1 0).2 in
  let B := (_append_x (identity 1) 0).2 in
  let new_vars :=
    [seq new_var 1 1 (row (linear B) i) (nth 0%Z (items (shift B)) i)
    | i <- iota 0 1] in
  exists r : CNOTDihedral,
    _dot A B = Ok r
    /\ poly r <> poly_add (poly A) (evaluate (poly B) new_vars).
Proof.
exists (mkElem 1 [:: [:: 1%Z]] (PyList [:: 1%Z])
               (mkPoly 1 1%Z [:: 7%Z] [::] [::])).
by split; vm_compute.
Qed.

(** ** The identity element is neutral *)

Lemma sumz_indicator (T : eqType) (s : seq T) (x : T) (f : T -> Z) :
  uniq s ->
  sumz [seq (if y == x then f y else 0%Z) | y <- s]
  = if x \in s then f x else 0%Z.
Proof.
elim: s => [|y s IH] //= /andP [Hy Hs]; rewrite inE IH // eq_sym.
case: (altP (x =P y)) => [->|_] /=; last by [].
by rewrite (negbTE Hy) Z.add_0_r.
Qed.

Lemma sumz_zero (T : Type) (s : seq T) (f : T -> Z) :
  (forall y, f y = 0%Z) -> sumz [seq f y | y <- s] = 0%Z.
Proof. by move=> H; elim: s => [|y s IH] //=; rewrite H IH. Qed.

Lemma dotp_nth u v n :
  size u = n -> size v = n ->
  dotp u v = sumz [seq (nth 0%Z u k * nth 0%Z v k)%Z | k <- iota 0 n].
Proof.
move=> Hu Hv; rewrite /dotp.
have Hz : size (zip u v) = n by rewrite size_zip Hu Hv minnn.
rewrite -[zip u v](mkseq_nth (0%Z, 0%Z)) Hz /mkseq -map_comp.
congr sumz; apply/eq_in_map => k; rewrite mem_iota add0n /= => Hk.
by rewrite nth_zip ?Hu ?Hv.
Qed.

Lemma nth_np_eye_row n i k :
  i < n -> k < n -> nth 0%Z (row (np_eye n) i) k = if k == i then 1%Z else 0%Z.
Proof. by move=> Hi Hk; rewrite -/(entry _ _ _) entry_np_eye // eq_sym. Qed.

Lemma nth_np_eye_col n j k :
  j < n -> k < n -> nth 0%Z (col (np_eye n) j) k = if k == j then 1%Z else 0%Z.
Proof.
move=> Hj Hk.
have Hk' : k < size (np_eye n) by rewrite (has_shape_size (has_shape_np_eye n)).
by rewrite /col (nth_map [::] _ _ Hk') -/(row _ _) -/(entry _ _ _) entry_np_eye.
Qed.

Lemma dotp_eye_row n i v :
  i < n -> size v = n -> dotp (row (np_eye n) i) v = nth 0%Z v i.
Proof.
move=> Hi Hv.
rewrite (@dotp_nth _ _ n) ?(has_shape_row (has_shape_np_eye n)) //.
have -> : [seq (nth 0 (row (np_eye n) i) k * nth 0 v k)%Z | k <- iota 0 n]
          = [seq (if k == i then nth 0%Z v k else 0%Z) | k <- iota 0 n].
  apply/eq_in_map => k; rewrite mem_iota add0n /= => Hk.
  by rewrite nth_np_eye_row //; case: ifP => _; rewrite ?Z.mul_1_l.
by rewrite sumz_indicator ?iota_uniq // mem_iota add0n Hi.
Qed.

Lemma dotp_eye_col n j u :
  j < n -> size u = n -> dotp u (col (np_eye n) j) = nth 0%Z u j.
Proof.
move=> Hj Hu.
have Hc : size (col (np_eye n) j) = n.
  by rewrite /col size_map (has_shape_size (has_shape_np_eye n)).
rewrite (@dotp_nth _ _ n) //.
have -> : [seq (nth 0 u k * nth 0 (col (np_eye n) j) k)%Z | k <- iota 0 n]
          = [seq (if k == j then nth 0%Z u k else 0%Z) | k <- iota 0 n].
  apply/eq_in_map => k; rewrite mem_iota add0n /= => Hk.
  by rewrite nth_np_eye_col //; case: ifP => _; rewrite ?Z.mul_1_r ?Z.mul_0_r.
by rewrite sumz_indicator ?iota_uniq // mem_iota add0n Hj.
Qed.

Lemma dotp_zeros u n : dotp u (np_zeros n) = 0%Z.
Proof.
rewrite /dotp /np_zeros; elim: u n => [|x u IH] [|n] //=.
by rewrite -/(sumz _) IH Z.mul_0_r.
Qed.

Lemma matrix_ext (a b : matrix) r c :
  has_shape a r c -> has_shape b r c ->
  (forall i j, i < r -> j < c -> entry a i j = entry b i j) -> a = b.
Proof.
move=> Ha Hb H; apply: (@eq_from_nth _ [::]).
  by rewrite (has_shape_size Ha) (has_shape_size Hb).
move=> i; rewrite (has_shape_size Ha) => Hi.
apply: (@eq_from_nth _ 0%Z).
  by rewrite -!/(row _ _) (has_shape_row Ha) // (has_shape_row Hb).
move=> j; rewrite -/(row _ _) (has_shape_row Ha) // => Hj.
exact: H.
Qed.

Lemma mod2_binary x : x \in [:: 0; 1]%Z -> (x mod 2)%Z = x.
Proof. by rewrite !inE => /orP [] /eqP ->. Qed.

Lemma entry_mem (m : matrix) r c i j :
  has_shape m r c -> i < r -> j < c ->
  row m i \in m /\ entry m i j \in row m i.
Proof.
move=> Hm Hi Hj; split; first by rewrite /row mem_nth // (has_shape_size Hm).
by rewrite /entry mem_nth // (has_shape_row Hm).
Qed.

Lemma z2matmul_eye_l n a :
  has_shape a n n ->
  (forall r x, r \in a -> x \in r -> x \in [:: 0; 1]%Z) ->
  _z2matmul (np_eye n) a = a.
Proof.
move=> Ha Hb.
apply: (matrix_ext (has_shape_z2matmul (has_shape_np_eye n) Ha) Ha) => i j Hi Hj.
have Hn : 0 < n by apply: leq_ltn_trans Hi.
have Hc : size (col a j) = n by rewrite /col size_map (has_shape_size Ha).
rewrite entry_z2matmul ?(has_shape_size (has_shape_np_eye n))
        ?(has_shape_ncols Ha) // dotp_eye_row //.
rewrite /col (nth_map [::]) ?(has_shape_size Ha) // -/(row _ _) -/(entry _ _ _).
have [H1 H2] := entry_mem Ha Hi Hj.
exact/mod2_binary/(Hb _ _ H1 H2).
Qed.

Lemma z2matmul_eye_r n a :
  has_shape a n n ->
  (forall r x, r \in a -> x \in r -> x \in [:: 0; 1]%Z) ->
  _z2matmul a (np_eye n) = a.
Proof.
move=> Ha Hb.
apply: (matrix_ext (has_shape_z2matmul Ha (has_shape_np_eye n)) Ha) => i j Hi Hj.
have Hn : 0 < n by apply: leq_ltn_trans Hi.
rewrite entry_z2matmul ?(has_shape_size Ha)
        ?(has_shape_ncols (has_shape_np_eye n)) //.
rewrite dotp_eye_col ?(has_shape_row Ha) //.
have [H1 H2] := entry_mem Ha Hi Hj.
exact/mod2_binary/(Hb _ _ H1 H2).
Qed.

(** *** Polynomials *)

Lemma evaluate_zero n xval :
  evaluate (SpecialPolynomial_new n) xval = SpecialPolynomial_new n.
Proof.
rewrite /evaluate.
apply: (@foldl_inv _ _ (fun q => q = SpecialPolynomial_new n)) => //.
by move=> acc t _ ->; cbv beta zeta; rewrite get_term_new eqxx.
Qed.

Lemma poly_add_zero_r p :
  poly_wf p ->
  (forall t, t \in terms (n_vars p) -> (0 <= get_term p t < 8)%Z) ->
  poly_add p (SpecialPolynomial_new (n_vars p)) = p.
Proof.
move=> Hp Hr; apply: poly_ext => //.
  by apply: poly_wf_add => //; apply: poly_wf_new.
move=> t Ht; rewrite get_term_add ?poly_wf_new // get_term_new Z.add_0_r.
by apply: Z.mod_small; apply: Hr.
Qed.

Lemma poly_add_zero_l p :
  poly_wf p ->
  (forall t, t \in terms (n_vars p) -> (0 <= get_term p t < 8)%Z) ->
  poly_add (SpecialPolynomial_new (n_vars p)) p = p.
Proof.
move=> Hp Hr; apply: poly_ext => //.
  by apply: poly_wf_add => //; apply: poly_wf_new.
move=> t Ht; rewrite get_term_add ?poly_wf_new // get_term_new Z.add_0_l.
by apply: Z.mod_small; apply: Hr.
Qed.

Lemma set_weight_0_id p : weight_0 p = 0%Z -> set_weight_0 p 0%Z = p.
Proof. by case: p => n w0 w1 w2 w3 /= ->. Qed.

Lemma get_term_monomial n s t :
  t \in terms n -> get_term (monomial n s) t = if t == s then 1%Z else 0%Z.
Proof. by move=> Ht; rewrite /monomial get_term_poly_of_fun. Qed.

Lemma poly_one_monomial n : poly_one n = monomial n [::].
Proof.
apply: poly_ext; rewrite ?n_vars_one //.
- exact: poly_wf_one.
- exact: poly_wf_poly_of_fun.
- by move=> t Ht; rewrite get_term_one // get_term_monomial.
Qed.

Lemma support_eye n j : j < n -> support_of n (row (np_eye n) j) = [:: j].
Proof.
move=> Hj; rewrite /support_of.
rewrite -(@filter_pred1_uniq _ (iota 0 n) j) ?iota_uniq ?mem_iota ?add0n //.
apply: eq_in_filter => k; rewrite mem_iota add0n /= => Hk.
by rewrite nth_np_eye_row //; case: (k == j).
Qed.

Lemma pj_coeff_single n j t :
  t \in terms n -> pj_coeff [:: j] t = if t == [:: j] then 1%Z else 0%Z.
Proof.
rewrite mem_terms_sorted /pj_coeff => /and3P [_ Hs _].
case: t Hs => [|a [|b t]] //=.
  by rewrite inE andbT eqseq_cons eqxx andbT; case: (a == j).
rewrite !inE !eqseq_cons /= andbF => /andP [Hab _].
case: eqP => [Ha|_] /=; last by [].
case: eqP => [Hb|_] /=; last by [].
by move: Hab; rewrite Ha Hb ltnn.
Qed.

(** The variables substituted by the identity element are the variables
    themselves. *)
Lemma new_var_identity n j :
  j < n ->
  new_var n n (row (np_eye n) j) (nth 0%Z (np_zeros n) j) = monomial n [:: j].
Proof.
move=> Hj; rewrite /new_var /np_zeros nth_nseq if_same /= support_eye //.
by apply: poly_of_fun_ext => t Ht; rewrite (pj_coeff_single _ Ht).
Qed.

Lemma sumz_allpairs (S T : Type) (f : S -> T -> Z) (s : seq S) (t : seq T) :
  sumz [seq f a b | a <- s, b <- t]
  = sumz [seq sumz [seq f a b | b <- t] | a <- s].
Proof.
elim: s => [|a s IH] //=.
rewrite /allpairs /= -/(allpairs f s t) -IH.
by elim: [seq f a b | b <- t] => [|x l IHl] //=; rewrite IHl Z.add_assoc.
Qed.

Lemma poly_mul_monomial n s j :
  s \in terms n -> j < n ->
  poly_mul (monomial n s) (monomial n [:: j])
  = monomial n (munion n s [:: j]).
Proof.
move=> Hs Hj.
have Hjt : [:: j] \in terms n by rewrite mem_terms_sorted /= Hj.
apply: poly_of_fun_ext => u Hu; rewrite [n_vars _]/=.
rewrite sumz_allpairs.
have -> : [seq sumz [seq (if munion n a b == u
                          then get_term (monomial n s) a
                               * get_term (monomial n [:: j]) b
                          else 0)%Z | b <- terms n] | a <- terms n]
          = [seq (if a == s
                  then (if munion n a [:: j] == u then 1 else 0)
                  else 0)%Z | a <- terms n].
  apply/eq_in_map => a Ha.
  have -> : [seq (if munion n a b == u
                  then get_term (monomial n s) a
                       * get_term (monomial n [:: j]) b
                  else 0)%Z | b <- terms n]
            = [seq (if b == [:: j]
                    then (if munion n a b == u
                          then get_term (monomial n s) a else 0)
                    else 0)%Z | b <- terms n].
    apply/eq_in_map => b Hb; rewrite (get_term_monomial _ Hb).
    by case: ifP => _; case: ifP => _; rewrite ?Z.mul_1_r ?Z.mul_0_r.
  rewrite sumz_indicator ?terms_uniq // Hjt get_term_monomial //.
  by case: ifP => _; case: ifP.
rewrite sumz_indicator ?terms_uniq // Hs eq_sym.
by case: ifP.
Qed.

Lemma munion_rcons n s j :
  rcons s j \in terms n -> munion n s [:: j] = rcons s j.
Proof.
rewrite mem_terms => /andP [Hsub _].
rewrite [RHS](subseq_uniqP (iota_uniq 0 n) Hsub) /munion.
by apply: eq_filter => k; rewrite mem_rcons !inE orbC.
Qed.

Lemma prefix_terms n s js : s ++ js \in terms n -> s \in terms n.
Proof.
rewrite !mem_terms => /andP [Hsub Hsz].
rewrite (subseq_trans (prefix_subseq s js) Hsub) /=.
by apply: leq_trans Hsz; rewrite size_cat leq_addr.
Qed.

(** The product of the variables of a term is its monomial. *)
Lemma foldl_mul_monomial n s js :
  s ++ js \in terms n ->
  foldl poly_mul (monomial n s) [seq monomial n [:: j] | j <- js]
  = monomial n (s ++ js).
Proof.
elim: js s => [|j js IH] s Ht /=; first by rewrite cats0.
have Hr : rcons s j \in terms n.
  by apply: (@prefix_terms _ _ js); rewrite cat_rcons.
have Hj : j < n.
  move: Hr; rewrite mem_terms_sorted => /and3P [_ _ /allP H].
  by apply: H; rewrite mem_rcons mem_head.
rewrite poly_mul_monomial ?(prefix_terms Ht) // munion_rcons //.
by rewrite IH cat_rcons.
Qed.

Lemma newterm_identity n t :
  t \in terms n ->
  foldl poly_mul (poly_one n)
        [seq nth (SpecialPolynomial_new n)
                 [seq new_var n n (row (np_eye n) i) (nth 0%Z (np_zeros n) i)
                 | i <- iota 0 n] j
        | j <- t]
  = monomial n t.
Proof.
move=> Ht.
have -> : [seq nth (SpecialPolynomial_new n)
                   [seq new_var n n (row (np_eye n) i) (nth 0%Z (np_zeros n) i)
                   | i <- iota 0 n] j
          | j <- t]
          = [seq monomial n [:: j] | j <- t].
  apply/eq_in_map => j Hj.
  have Hjn : j < n.
    by move: Ht; rewrite mem_terms_sorted => /and3P [_ _ /allP]; apply.
  have Hj' : j < size (iota 0 n) by rewrite size_iota.
  by rewrite (nth_map 0 _ _ Hj') nth_iota // add0n new_var_identity.
by rewrite poly_one_monomial foldl_mul_monomial.
Qed.

Lemma evaluate_identity_fold p ts acc :
  let n := n_vars p in
  let xval := [seq new_var n n (row (np_eye n) i) (nth 0%Z (np_zeros n) i)
              | i <- iota 0 n] in
  let step := fun acc t =>
    let value := get_term p t in
    if value == 0%Z then acc
    else
      let newterm :=
        foldl poly_mul (poly_one n)
              [seq nth (SpecialPolynomial_new n) xval j | j <- t] in
      poly_add acc (poly_scale value newterm) in
  uniq ts -> {subset ts <= terms n} ->
  poly_wf acc -> n_vars acc = n ->
  (forall u, u \in terms n -> (0 <= get_term acc u < 8)%Z) ->
  [/\ poly_wf (foldl step acc ts), n_vars (foldl step acc ts) = n
    & forall u, u \in terms n ->
        get_term (foldl step acc ts) u
        = if u \in ts then ((get_term acc u + get_term p u) mod 8)%Z
          else get_term acc u].
Proof.
move=> n xval step.
elim: ts acc => [|t ts IH] acc //= /andP [Hnt Hu] Hts Hw Hn Hr.
have Ht : t \in terms n by apply: Hts; rewrite mem_head.
have Hts' : {subset ts <= terms n}.
  by move=> x Hx; apply: Hts; rewrite inE Hx orbT.
have Hm : poly_wf (poly_scale (get_term p t) (monomial n t)).
  exact/poly_wf_scale/poly_wf_poly_of_fun.
have Hstep : [/\ poly_wf (step acc t), n_vars (step acc t) = n
                & forall u, u \in terms n ->
                    get_term (step acc t) u
                    = if u == t then ((get_term acc u + get_term p u) mod 8)%Z
                      else get_term acc u].
  rewrite /step; cbv zeta; rewrite newterm_identity //.
  case: (altP (get_term p t =P 0%Z)) => [H0|_].
    split=> // u Hu'; case: (altP (u =P t)) => // ->.
    by rewrite H0 Z.add_0_r Z.mod_small //; apply: Hr.
  split=> //; first by apply: poly_wf_add.
  have Hmt : poly_wf (monomial n t) by apply: poly_wf_poly_of_fun.
  move=> u Hu'; rewrite get_term_add ?Hn // get_term_scale ?get_term_monomial //.
  case: (altP (u =P t)) => [->|_].
    by rewrite Z.mul_1_r Z.add_mod_idemp_r.
  by rewrite Z.mul_0_r Z.mod_0_l // Z.add_0_r Z.mod_small //; apply: Hr.
case: Hstep => Hw1 Hn1 Hg1.
have Hr1 : forall u, u \in terms n -> (0 <= get_term (step acc t) u < 8)%Z.
  move=> u Hu'; rewrite Hg1 //; case: ifP => _; last exact: Hr.
  exact: Z.mod_pos_bound.
have [Hw2 Hn2 Hg2] := IH (step acc t) Hu Hts' Hw1 Hn1 Hr1.
split=> // u Hu'; rewrite Hg2 // inE !Hg1 //.
case: (altP (u =P t)) => [->|_] //=.
by rewrite (negbTE Hnt).
Qed.

Lemma evaluate_identity p :
  poly_wf p ->
  (forall t, t \in terms (n_vars p) -> (0 <= get_term p t < 8)%Z) ->
  evaluate p [seq new_var (n_vars p) (n_vars p) (row (np_eye (n_vars p)) i)
                          (nth 0%Z (np_zeros (n_vars p)) i)
             | i <- iota 0 (n_vars p)] = p.
Proof.
move=> Hp Hr.
have H0 u : u \in terms (n_vars p) ->
    (0 <= get_term (SpecialPolynomial_new (n_vars p)) u < 8)%Z.
  by rewrite get_term_new.
have [Hw Hn Hg] :=
  @evaluate_identity_fold p (terms (n_vars p))
     (SpecialPolynomial_new (n_vars p)) (terms_uniq _) (fun _ H => H)
     (poly_wf_new _) (erefl _) H0.
apply: poly_ext => //.
move=> t; rewrite Hn => Ht; rewrite /evaluate Hg // Ht get_term_new Z.add_0_l.
by apply: Z.mod_small; apply: Hr.
Qed.

(** *** The affine part *)

Lemma shift_eye_zeros n s :
  size s = n -> (forall x, x \in s -> x \in [:: 0; 1]%Z) ->
  zip_with (fun x y => ((x + y) mod 2)%Z) (_z2matvecmul (np_eye n) s)
           (np_zeros n) = s.
Proof.
move=> Hs Hb.
have Hsz : size (_z2matvecmul (np_eye n) s) = size (np_zeros n).
  by rewrite size_z2matvecmul (has_shape_size (has_shape_np_eye n)) size_nseq.
apply: (@eq_from_nth _ 0%Z).
  by rewrite size_zip_with Hsz minnn size_nseq.
move=> i; rewrite size_zip_with Hsz minnn size_nseq => Hi.
have Hi' : i < size (_z2matvecmul (np_eye n) s) by rewrite Hsz size_nseq.
rewrite (nth_zip_with _ Hsz Hi').
rewrite nth_z2matvecmul ?(has_shape_size (has_shape_np_eye n)) //.
rewrite dotp_eye_row // nth_nseq Hi Z.add_0_r Z.mod_mod //.
by apply/mod2_binary/Hb; rewrite mem_nth // Hs.
Qed.

Lemma shift_zeros_l n a s :
  has_shape a n n -> size s = n ->
  (forall x, x \in s -> x \in [:: 0; 1]%Z) ->
  zip_with (fun x y => ((x + y) mod 2)%Z) (_z2matvecmul a (np_zeros n)) s = s.
Proof.
move=> Ha Hs Hb.
have Hsz : size (_z2matvecmul a (np_zeros n)) = size s.
  by rewrite size_z2matvecmul (has_shape_size Ha).
apply: (@eq_from_nth _ 0%Z).
  by rewrite size_zip_with Hsz minnn.
move=> i; rewrite size_zip_with Hsz minnn Hs => Hi.
have Hi' : i < size (_z2matvecmul a (np_zeros n)) by rewrite Hsz Hs.
rewrite (nth_zip_with _ Hsz Hi').
rewrite nth_z2matvecmul ?(has_shape_size Ha) // dotp_zeros /=.
by apply/mod2_binary/Hb; rewrite mem_nth // Hs.
Qed.

Lemma poly_eq_refl p : poly_eq p p.
Proof. by rewrite /poly_eq !eqxx. Qed.

(** [==] on two elements that agree on the polynomial and on [linear] and
    both keep [shift] in a list compares the two lists to one boolean and
    raises on its [.all()]. *)
Lemma eq_method_two_lists a b :
  poly_eq (poly a) (poly b) -> linear a = linear b ->
  ~~ is_ndarray (shift a) -> ~~ is_ndarray (shift b) ->
  __eq__ a b = Raise (AttributeError "bool object has no attribute all").
Proof.
move=> Hp Hl; rewrite /__eq__ Hp Hl eqxx /=.
by case: (shift a) => // s _; case: (shift b).
Qed.

Lemma identity_neutral_right a :
  well_formed a -> valid a ->
  exists r,
    [/\ _compose a (identity (num_qubits a)) = Ok r,
        num_qubits r = num_qubits a, linear r = linear a,
        items (shift r) = items (shift a)
      & set_weight_0 (poly r) 0%Z = poly a /\ ~~ is_ndarray (shift r)].
Proof.
move=> /well_formedP [Hn Hv Hp Hl Hs] Va.
have Hr t : t \in terms (n_vars (poly a)) -> (0 <= get_term (poly a) t < 8)%Z.
  by move=> Ht; apply: valid_range => //; rewrite -Hv.
have H0 : weight_0 (poly a) = 0%Z by case: Va.
rewrite _compose_ok //; eexists; split; first by reflexivity.
- by [].
- by case: Va => _ _ _ _ [_ Hb]; rewrite /= z2matmul_eye_l.
- by case: Va => _ _ _ _ [Hb _]; rewrite /= shift_eye_zeros.
- split=> //=.
  by rewrite evaluate_zero -Hv (poly_add_zero_r Hp Hr) set_weight_0_id.
Qed.

Lemma identity_neutral_left a :
  well_formed a -> valid a ->
  exists r,
    [/\ _compose (identity (num_qubits a)) a = Ok r,
        num_qubits r = num_qubits a, linear r = linear a,
        items (shift r) = items (shift a)
      & set_weight_0 (poly r) 0%Z = poly a /\ ~~ is_ndarray (shift r)].
Proof.
move=> /well_formedP [Hn Hv Hp Hl Hs] Va.
have Hr t : t \in terms (n_vars (poly a)) -> (0 <= get_term (poly a) t < 8)%Z.
  by move=> Ht; apply: valid_range => //; rewrite -Hv.
rewrite _compose_ok //; eexists; split; first by reflexivity.
- by [].
- by case: Va => _ _ _ _ [_ Hb]; rewrite /= z2matmul_eye_r.
- by case: Va => _ _ _ _ [Hb _]; rewrite /= shift_zeros_l.
- split=> //=.
  by rewrite -Hv (evaluate_identity Hp Hr) (poly_add_zero_l Hp Hr)
             set_weight_0_id //; case: Va.
Qed.

(** C8: composing a valid element [a] with the identity element on the
    same number of qubits, in either order and for either value of
    [front], returns an element with the [linear], the [shift] entries and
    the polynomial of [a]; [==] answers [True] on the two whenever the
    [shift] of [a] is an array. *)
Theorem compose_identity (a : CNOTDihedral) (front : bool) :
  well_formed a -> valid a ->
  let i := identity (num_qubits a) in
  exists r1 r2 : CNOTDihedral,
    [/\ __init__ NoData (Some (num_qubits a)) true = Ok i,
        compose a i None front = Ok r1 /\ compose i a None front = Ok r2,
        [/\ num_qubits r1 = num_qubits a, linear r1 = linear a,
            items (shift r1) = items (shift a) & poly r1 = poly a],
        [/\ num_qubits r2 = num_qubits a, linear r2 = linear a,
            items (shift r2) = items (shift a) & poly r2 = poly a]
      & is_ndarray (shift a) -> __eq__ r1 a = Ok true /\ __eq__ r2 a = Ok true].
Proof.
move=> Wa Va i.
have [ra [Ea Na La Sa [Pa Ka]]] := identity_neutral_right Wa Va.
have [rb [Eb Nb Lb Sb [Pb Kb]]] := identity_neutral_left Wa Va.
have Hn : 0 < num_qubits a by case/well_formedP: Wa.
have Heq r : linear r = linear a -> items (shift r) = items (shift a) ->
    set_weight_0 (poly r) 0%Z = poly a -> is_ndarray (shift a) ->
    __eq__ (set_poly r (set_weight_0 (poly r) 0%Z)) a = Ok true.
  move=> Hl Hs Hp Hk; rewrite /__eq__ /= Hp Hl poly_eq_refl eqxx /=.
  move: Hs Hk; case: (shift a) => [s|s] //= Hs _.
  by case: (shift r) Hs => s' /= ->; rewrite eqxx.
case: front.
- exists (set_poly rb (set_weight_0 (poly rb) 0%Z)),
         (set_poly ra (set_weight_0 (poly ra) 0%Z)).
  rewrite /compose /= eqxx /= !_dot_compose Ea Eb /=.
  by split=> //; [exact: init_identity|move=> Hk; split; apply: Heq].
- exists (set_poly ra (set_weight_0 (poly ra) 0%Z)),
         (set_poly rb (set_weight_0 (poly rb) 0%Z)).
  rewrite /compose /= eqxx /= Ea Eb /=.
  by split=> //; [exact: init_identity|move=> Hk; split; apply: Heq].
Qed.

Lemma compose_identity_witness :
  let a := (_append_phase (_append_cx (identity 2) 0 1).2 1 1).2 in
  [/\ well_formed a, valid a
    & exists r, compose a (identity 2) None false = Ok r /\ poly r = poly a].
Proof.
have Va : valid (_append_phase (_append_cx (identity 2) 0 1).2 1 1).2.
  by apply/validP; vm_compute.
split=> //.
have [r1 [r2 [_ [H1 _] [_ _ _ H2] _ _]]] :=
  @compose_identity (_append_phase (_append_cx (identity 2) 0 1).2 1 1).2
                    false isT Va.
by exists r1.
Defined.

(** ** Further properties of the mutators *)

Lemma elem_ext (a b : CNOTDihedral) :
  num_qubits a = num_qubits b -> linear a = linear b -> shift a = shift b ->
  poly a = poly b -> a = b.
Proof. by case: a => n l s p; case: b => n' l' s' p' /= -> -> -> ->. Qed.

Lemma set_nth_nth (T : Type) (x0 : T) (s : seq T) i :
  i < size s -> set_nth x0 s i (nth x0 s i) = s.
Proof.
move=> Hi; apply: (@eq_from_nth _ x0).
  by rewrite size_set_nth; apply/maxn_idPr.
move=> j _; rewrite nth_set_nth /=.
by case: (altP (j =P i)) => [->|].
Qed.

Lemma set_nth_twice (T : Type) (x0 : T) (s : seq T) i a b :
  set_nth x0 (set_nth x0 s i a) i b = set_nth x0 s i b.
Proof. by rewrite set_set_nth eqxx. Qed.

Lemma setitem_twice v i a b : setitem (setitem v i a) i b = setitem v i b.
Proof. by case: v => s /=; rewrite set_nth_twice. Qed.

Lemma setitem_nth v i :
  i < size (items v) -> setitem v i (nth 0%Z (items v) i) = v.
Proof. by case: v => s /= Hi; rewrite set_nth_nth. Qed.

Lemma setitem_swap v i j a b :
  i != j -> setitem (setitem v i a) j b = setitem (setitem v j b) i a.
Proof. by case: v => s /= /negbTE Hij; rewrite set_set_nth Hij. Qed.

Lemma is_ndarray_setitem v i a : is_ndarray (setitem v i a) = is_ndarray v.
Proof. by case: v. Qed.

Lemma flip_flip x : x \in [:: 0; 1]%Z -> (((x + 1) mod 2 + 1) mod 2)%Z = x.
Proof. by rewrite !inE => /orP [] /eqP ->. Qed.

Lemma to_nat_inj_bounds i j n :
  in_bounds i n -> in_bounds j n -> i <> j -> Z.to_nat i != Z.to_nat j.
Proof.
move=> /in_boundsP Hi /in_boundsP Hj Hij; apply/eqP => H; apply: Hij.
by rewrite -(Z2Nat.id i) ?H ?Z2Nat.id; lia.
Qed.

(** The state that [_append_x] leaves for an index in range. *)
Lemma _append_x_ok e i :
  in_bounds i (num_qubits e) ->
  _append_x e i
  = (Ok tt,
     set_shift e
       (setitem (shift e) (Z.to_nat i)
          ((nth 0%Z (items (shift e)) (Z.to_nat i) + 1) mod 2)%Z)).
Proof. by rewrite /_append_x => ->. Qed.

(** The state that [_append_cx] leaves for indices in range. *)
Lemma _append_cx_ok e c t :
  in_bounds c (num_qubits e) -> in_bounds t (num_qubits e) ->
  _append_cx e c t
  = (Ok tt,
     mkElem (num_qubits e)
       (set_nth [::] (linear e) (Z.to_nat t)
          (zip_with (fun x y => ((x + y) mod 2)%Z)
             (row (linear e) (Z.to_nat c)) (row (linear e) (Z.to_nat t))))
       (setitem (shift e) (Z.to_nat t)
          ((nth 0%Z (items (shift e)) (Z.to_nat c)
            + nth 0%Z (items (shift e)) (Z.to_nat t)) mod 2)%Z)
       (poly e)).
Proof. by rewrite /_append_cx => -> ->. Qed.

(** X1: [_append_x]: for an index in range the call raises nothing, replaces
    [shift[i]] by [(shift[i] + 1) % 2], which is its complement when the entry
    is 0 or 1, and leaves [linear], the polynomial, the other entries of
    [shift] and the kind of container of [shift] as they were; for any other
    index, a negative one included, it raises [QiskitError] and changes
    nothing. *)
Theorem append_x_spec (e : CNOTDihedral) (i : Z) :
  let n := num_qubits e in
  let q := Z.to_nat i in
  let out := _append_x e i in
  (well_formed e -> in_bounds i n ->
   [/\ out.1 = Ok tt,
       forall j, j < n ->
         nth 0%Z (items (shift out.2)) j
         = if j == q then ((nth 0%Z (items (shift e)) q + 1) mod 2)%Z
           else nth 0%Z (items (shift e)) j,
       binary_affine e ->
         nth 0%Z (items (shift out.2)) q = (1 - nth 0%Z (items (shift e)) q)%Z,
       [/\ linear out.2 = linear e, poly out.2 = poly e,
           num_qubits out.2 = n
         & is_ndarray (shift out.2) = is_ndarray (shift e)]
     & well_formed out.2])
  /\ (~~ in_bounds i n ->
      out = (Raise (QiskitError "X qubit out of bounds."), e)).
Proof.
move=> n q out; split; last by rewrite /out /_append_x => ->.
move=> /well_formedP [Hn Hv Hp Hl Hs] Hi.
have Hq : q < n := in_bounds_to_nat Hi.
rewrite /out _append_x_ok //=; split=> //.
- by move=> j Hj; rewrite items_setitem nth_set_nth /=; case: (j == q).
- move=> Hb; rewrite items_setitem nth_set_nth /= eqxx.
  have := shift_binary Hb (i := q); rewrite Hs => /(_ Hq).
  by rewrite !inE => /orP [] /eqP ->.
- by split=> //; rewrite is_ndarray_setitem.
- apply/well_formedP; split=> //=.
  by rewrite items_setitem size_set_nth Hs; apply/maxn_idPr.
Qed.

Lemma append_x_spec_witness :
  let e := identity 3 in
  [/\ well_formed e, in_bounds 2 3
    & items (shift (_append_x e 2).2) = [:: 0; 0; 1]%Z
      /\ linear (_append_x e 2).2 = linear e].
Proof.
have [H _] := append_x_spec (identity 3) 2.
have [_ _ _ [H1 _ _ _] _] := H isT isT.
by split.
Defined.

(** X2: [_append_x] applied twice to the same qubit of an element with a
    binary [shift] gives the element back: X is its own inverse. *)
Theorem append_x_involutive (e : CNOTDihedral) (i : Z) :
  well_formed e -> binary_affine e -> in_bounds i (num_qubits e) ->
  _append_x (_append_x e i).2 i = (Ok tt, e).
Proof.
move=> /well_formedP [Hn Hv Hp Hl Hs] Hb Hi.
have Hq := in_bounds_to_nat Hi.
rewrite (_append_x_ok Hi) /= _append_x_ok //=; congr (_, _).
apply: elem_ext => //=.
have Hx := shift_binary Hb (i := Z.to_nat i); rewrite Hs in Hx.
rewrite items_setitem nth_set_nth /= eqxx setitem_twice (flip_flip (Hx Hq)).
by rewrite setitem_nth // Hs.
Qed.

Lemma append_x_involutive_witness :
  let e := (_append_cx (identity 2) 0 1).2 in
  [/\ well_formed e, binary_affine e, in_bounds 1 2
    & _append_x (_append_x e 1).2 1 = (Ok tt, e)].
Proof.
split; [by []|by []|by []|].
exact: (@append_x_involutive (_append_cx (identity 2) 0 1).2 1 isT isT isT).
Defined.

(** ** The row operation of [_append_cx] *)

Lemma binary_affine_matrix e : binary_affine e -> binary_matrix (linear e).
Proof. by case/andP => _ /flatten_memP. Qed.

Lemma binary_matrix_entry (a : matrix) r c i j :
  has_shape a r c -> binary_matrix a -> i < r -> j < c ->
  entry a i j \in [:: 0; 1]%Z.
Proof.
by move=> Ha Hb Hi Hj; have [H1 H2] := entry_mem Ha Hi Hj; apply: Hb H1 H2.
Qed.

Lemma binary_matrix_entries (a : matrix) r c :
  has_shape a r c ->
  (forall i j, i < r -> j < c -> entry a i j \in [:: 0; 1]%Z) ->
  binary_matrix a.
Proof.
move=> Ha H x y /(nthP [::]) [i Hi <-] /(nthP 0%Z) [j Hj <-].
rewrite (has_shape_size Ha) in Hi.
by apply: H => //; move: Hj; rewrite -/(row a i) (has_shape_row Ha).
Qed.

Lemma _append_cx_xor_row e c t :
  in_bounds c (num_qubits e) -> in_bounds t (num_qubits e) ->
  _append_cx e c t
  = (Ok tt,
     mkElem (num_qubits e) (xor_row (linear e) (Z.to_nat c) (Z.to_nat t))
       (setitem (shift e) (Z.to_nat t)
          ((nth 0%Z (items (shift e)) (Z.to_nat c)
            + nth 0%Z (items (shift e)) (Z.to_nat t)) mod 2)%Z)
       (poly e)).
Proof. exact: _append_cx_ok. Qed.

Lemma has_shape_xor_row l n c t :
  has_shape l n n -> c < n -> t < n -> has_shape (xor_row l c t) n n.
Proof.
move=> Hl Hc Ht; apply: has_shape_set_row => //.
by rewrite size_zip_with !(has_shape_row Hl) // minnn.
Qed.

Lemma row_xor_row l c t q : q != t -> row (xor_row l c t) q = row l q.
Proof. by move=> /negbTE H; rewrite /xor_row /row nth_set_nth /= H. Qed.

Lemma entry_xor_row l n c t i j :
  has_shape l n n -> c < n -> t < n -> i < n -> j < n ->
  entry (xor_row l c t) i j
  = if i == t then ((entry l c j + entry l t j) mod 2)%Z else entry l i j.
Proof.
move=> Hl Hc Ht Hi Hj; rewrite /entry /xor_row {1}/row nth_set_nth /=.
case: (i == t) => //.
by rewrite nth_zip_with ?(has_shape_row Hl).
Qed.

Lemma binary_xor_row l n c t :
  has_shape l n n -> binary_matrix l -> c < n -> t < n ->
  binary_matrix (xor_row l c t).
Proof.
move=> Hl Hb Hc Ht.
apply: (binary_matrix_entries (has_shape_xor_row Hl Hc Ht)) => i j Hi Hj.
rewrite (entry_xor_row Hl) //; case: (i == t); first exact: binary_mod2.
exact: (binary_matrix_entry Hl).
Qed.

Lemma add_add_mod2 x y : y \in [:: 0; 1]%Z -> ((x + (x + y) mod 2) mod 2)%Z = y.
Proof.
move=> Hy; rewrite Z.add_mod_idemp_r // Z.add_assoc Z.add_diag.
by rewrite Z.add_comm Z.mul_comm Z.mod_add // mod2_binary.
Qed.

(** The row operation undoes itself on a binary array. *)
Lemma xor_row_involutive l n c t :
  has_shape l n n -> binary_matrix l -> c < n -> t < n -> c != t ->
  xor_row (xor_row l c t) c t = l.
Proof.
move=> Hl Hb Hc Ht Hct.
have Hx := has_shape_xor_row Hl Hc Ht.
apply: (matrix_ext (has_shape_xor_row Hx Hc Ht) Hl) => i j Hi Hj.
rewrite (entry_xor_row Hx) // !(entry_xor_row Hl) // eqxx (negbTE Hct).
case: (altP (i =P t)) => [->|] //.
by apply: add_add_mod2; apply: (binary_matrix_entry Hl).
Qed.

Lemma sumz_add (T : Type) (f g : T -> Z) (s : seq T) :
  sumz [seq (f x + g x)%Z | x <- s]
  = (sumz [seq f x | x <- s] + sumz [seq g x | x <- s])%Z.
Proof. by elim: s => [|x s IH] //=; rewrite IH; lia. Qed.

Lemma dotp_add u v w n :
  size u = n -> size v = n -> size w = n ->
  dotp [seq (x.1 + x.2)%Z | x <- zip u v] w = (dotp u w + dotp v w)%Z.
Proof.
move=> Hu Hv Hw.
have Hz : size [seq (x.1 + x.2)%Z | x <- zip u v] = n.
  by rewrite size_map size_zip Hu Hv minnn.
rewrite (dotp_nth Hz Hw) (dotp_nth Hu Hw) (dotp_nth Hv Hw) -sumz_add.
congr sumz; apply/eq_in_map => k; rewrite mem_iota add0n /= => Hk.
rewrite (nth_map (0%Z, 0%Z)) ?size_zip ?Hu ?Hv ?minnn // nth_zip ?Hu ?Hv //=.
by rewrite Z.mul_add_distr_r.
Qed.

Lemma dotp_mod2_l u v n :
  size u = n -> size v = n ->
  (dotp [seq (x mod 2)%Z | x <- u] v mod 2)%Z = (dotp u v mod 2)%Z.
Proof.
move=> Hu Hv.
have Hm : size [seq (x mod 2)%Z | x <- u] = n by rewrite size_map.
rewrite (dotp_nth Hm Hv) (dotp_nth Hu Hv).
elim: (iota 0 n) => [|k s IH] //=.
rewrite Z.add_mod // IH -Z.add_mod //.
case: (ltnP k n) => Hk.
  rewrite (nth_map 0%Z) ?Hu //.
  by rewrite -Z.add_mod_idemp_l // Z.mul_mod_idemp_l // Z.add_mod_idemp_l.
by rewrite !nth_default ?size_map ?Hu ?Hv.
Qed.

(** The row operation is the product with the array it makes of the
    identity array. *)
Lemma z2matmul_xor_row_eye l n c t :
  has_shape l n n -> binary_matrix l -> c < n -> t < n ->
  _z2matmul (xor_row (np_eye n) c t) l = xor_row l c t.
Proof.
move=> Hl Hb Hc Ht.
have He := has_shape_np_eye n.
have Hx := has_shape_xor_row He Hc Ht.
apply: (matrix_ext (has_shape_z2matmul Hx Hl) (has_shape_xor_row Hl Hc Ht)).
move=> i j Hi Hj.
have Hn : 0 < n by apply: leq_ltn_trans Hi.
have Hcol : size (col l j) = n by rewrite /col size_map (has_shape_size Hl).
have Hcole k : k < n -> nth 0%Z (col l j) k = entry l k j.
  by move=> Hk; rewrite /col (nth_map [::]) ?(has_shape_size Hl).
rewrite entry_z2matmul ?(has_shape_size Hx) ?(has_shape_ncols Hl) //.
rewrite (entry_xor_row Hl) // /xor_row {1}/row nth_set_nth /=.
case: (altP (i =P t)) => [_|Hit].
  rewrite /zip_with.
  have -> : [seq ((x.1 + x.2) mod 2)%Z
            | x <- zip (row (np_eye n) c) (row (np_eye n) t)]
            = [seq (y mod 2)%Z
              | y <- [seq (x.1 + x.2)%Z
                     | x <- zip (row (np_eye n) c) (row (np_eye n) t)]].
    by rewrite -map_comp.
  have Hrc : size (row (np_eye n) c) = n by apply: has_shape_row He Hc.
  have Hrt : size (row (np_eye n) t) = n by apply: has_shape_row He Ht.
  have Hz : size [seq (x.1 + x.2)%Z
                 | x <- zip (row (np_eye n) c) (row (np_eye n) t)] = n.
    by rewrite size_map size_zip Hrc Hrt minnn.
  rewrite (dotp_mod2_l Hz Hcol) (dotp_add Hrc Hrt Hcol).
  by rewrite (dotp_eye_row Hc Hcol) (dotp_eye_row Ht Hcol) !Hcole.
rewrite -/(row _ _) (dotp_eye_row Hi Hcol) Hcole //.
by apply: mod2_binary; apply: (binary_matrix_entry Hl).
Qed.

Section RowOperation.

Import GRing.Theory.
Local Open Scope ring_scope.

Lemma F2_square1 (x : 'F_2) : x * x = 1 -> x = 1.
Proof.
by case: x => [[|[|m]] Hm] //= _; apply/val_inj.
Qed.

Lemma binary_np_eye n : binary_matrix (np_eye n).
Proof.
apply: (binary_matrix_entries (has_shape_np_eye n)) => i j Hi Hj.
by rewrite entry_np_eye //; case: ifP.
Qed.

Lemma det_xor_row_eye n c t :
  c < n -> t < n -> c != t ->
  (det (xor_row (np_eye n) c t) mod 2)%Z = 1%Z.
Proof.
move=> Hc Ht Hct; set E := xor_row (np_eye n) c t.
have He := has_shape_np_eye n.
have Hx : has_shape E n n by apply: has_shape_xor_row.
have Hb : binary_matrix E.
  by apply: (binary_xor_row He) => //; apply: binary_np_eye.
apply/F2_1P; rewrite det_mxF2 (has_shape_size Hx); apply/eqP/F2_square1.
rewrite -det_mulmx -mxF2_z2matmul // (z2matmul_xor_row_eye Hx Hb Hc Ht).
by rewrite (xor_row_involutive He (@binary_np_eye n)) // mxF2_np_eye det1.
Qed.

End RowOperation.

(** The row operation keeps the determinant odd. *)
Lemma det_xor_row l n c t :
  has_shape l n n -> binary_matrix l -> c < n -> t < n -> c != t ->
  (det l mod 2)%Z = 1%Z -> (det (xor_row l c t) mod 2)%Z = 1%Z.
Proof.
move=> Hl Hb Hc Ht Hct Hd; rewrite -(z2matmul_xor_row_eye Hl Hb Hc Ht).
apply: (@det_z2matmul _ _ n) => //; last exact: det_xor_row_eye.
exact/has_shape_xor_row/Ht/Hc/has_shape_np_eye.
Qed.

Lemma binary_set_nth (s : seq Z) i x :
  (forall y, y \in s -> y \in [:: 0; 1]%Z) -> i < size s ->
  x \in [:: 0; 1]%Z ->
  forall y, y \in set_nth 0%Z s i x -> y \in [:: 0; 1]%Z.
Proof.
move=> Hs Hi Hx y /(nthP 0%Z) [j]; rewrite size_set_nth (maxn_idPr Hi) => Hj <-.
rewrite nth_set_nth /=; case: (j == i) => //.
by apply: Hs; rewrite mem_nth.
Qed.

(** X3: [_append_cx] with two different indices in range, applied twice to an
    element with a binary affine part, gives the element back: CX is its own
    inverse. *)
Theorem append_cx_involutive (e : CNOTDihedral) (control target : Z) :
  well_formed e -> binary_affine e ->
  in_bounds control (num_qubits e) -> in_bounds target (num_qubits e) ->
  control <> target ->
  _append_cx (_append_cx e control target).2 control target = (Ok tt, e).
Proof.
move=> /well_formedP [Hn Hv Hp Hl Hs] Hb Hc Ht Hne.
have Hcn := in_bounds_to_nat Hc; have Htn := in_bounds_to_nat Ht.
have Hct := to_nat_inj_bounds Hc Ht Hne.
rewrite (_append_cx_xor_row Hc Ht) /=.
rewrite (_append_cx_xor_row (e := mkElem _ _ _ _) Hc Ht) /=.
congr (_, _); apply: elem_ext => //=.
  exact: (xor_row_involutive Hl (binary_affine_matrix Hb)).
rewrite items_setitem !nth_set_nth /= eqxx (negbTE Hct) setitem_twice.
have Hx : nth 0%Z (items (shift e)) (Z.to_nat target) \in [:: 0; 1]%Z.
  by apply: shift_binary; rewrite ?Hs.
by rewrite (add_add_mod2 _ Hx) setitem_nth // Hs.
Qed.

Lemma append_cx_involutive_witness :
  let e := (_append_x (_append_cx (identity 3) 0 1).2 0).2 in
  [/\ well_formed e, binary_affine e, in_bounds 1 3, in_bounds 2 3
    & (1 <> 2)%Z /\ _append_cx (_append_cx e 1 2).2 1 2 = (Ok tt, e)].
Proof.
have Hne : (1 <> 2)%Z by [].
split; [by []|by []|by []|by []|split; first exact: Hne].
exact: (@append_cx_involutive (_append_x (_append_cx (identity 3) 0 1).2 0).2
          1 2 isT isT isT isT Hne).
Defined.

(** X4: [_append_cx] with two different indices in range keeps a valid element
    valid: the determinant of [linear] stays odd (with equal indices it does
    not), and the entries of [linear] and [shift] stay 0 or 1. *)
Theorem append_cx_valid (e : CNOTDihedral) (control target : Z) :
  well_formed e -> valid e ->
  in_bounds control (num_qubits e) -> in_bounds target (num_qubits e) ->
  control <> target ->
  let out := _append_cx e control target in
  [/\ out.1 = Ok tt, valid out.2 & well_formed out.2].
Proof.
move=> /well_formedP [Hn Hv Hp Hl Hs] Ve Hc Ht Hne out.
have Hcn := in_bounds_to_nat Hc; have Htn := in_bounds_to_nat Ht.
have Hct := to_nat_inj_bounds Hc Ht Hne.
case: (Ve) => H0 Hsz [_ _ Hd] Hr [Hbs Hbl].
have Hx := has_shape_xor_row Hl Hcn Htn.
have Vo : valid out.2.
  rewrite /out (_append_cx_xor_row Hc Ht) /=; split=> //=.
  - split=> //.
      by rewrite items_setitem size_set_nth Hs; apply/maxn_idPr.
    exact: (det_xor_row Hl).
  - split; last exact: (binary_xor_row Hl).
    rewrite items_setitem; apply: binary_set_nth => //; first by rewrite Hs.
    exact: binary_mod2.
split=> //.
- by rewrite /out (_append_cx_xor_row Hc Ht).
- rewrite /out (_append_cx_xor_row Hc Ht); apply/well_formedP; split=> //=.
  by rewrite items_setitem size_set_nth Hs; apply/maxn_idPr.
Qed.

Lemma append_cx_valid_witness :
  let e := (_append_phase (_append_cx (identity 3) 0 1).2 3 1).2 in
  [/\ well_formed e, valid e, in_bounds 2 3, in_bounds 0 3
    & (2 <> 0)%Z /\ valid (_append_cx e 2 0).2].
Proof.
have Hne : (2 <> 0)%Z by [].
have Ve : valid (_append_phase (_append_cx (identity 3) 0 1).2 3 1).2.
  by apply/validP; vm_compute.
have [_ H _] :=
  @append_cx_valid (_append_phase (_append_cx (identity 3) 0 1).2 3 1).2
                   2 0 isT Ve isT isT Hne.
by split; [| | | |split; [exact: Hne|exact: H]].
Defined.

(** X5: [_append_x] with an index in range keeps a valid element valid: the
    entry of [shift] it writes is 0 or 1, and nothing else changes. *)
Theorem append_x_valid (e : CNOTDihedral) (i : Z) :
  well_formed e -> valid e -> in_bounds i (num_qubits e) ->
  let out := _append_x e i in
  [/\ out.1 = Ok tt, valid out.2 & well_formed out.2].
Proof.
move=> /well_formedP [Hn Hv Hp Hl Hs] Ve Hi out.
have Hq := in_bounds_to_nat Hi.
case: (Ve) => H0 Hsz [_ _ Hd] Hr [Hbs Hbl].
have Hsize : size (items (shift out.2)) = num_qubits e.
  rewrite /out (_append_x_ok Hi) /= items_setitem size_set_nth Hs.
  exact/maxn_idPr.
have Vo : valid out.2.
  move: Hsize; rewrite /out (_append_x_ok Hi) /= => Hsize; split=> //=.
  split=> //; rewrite items_setitem; apply: binary_set_nth => //.
    by rewrite Hs.
  exact: binary_mod2.
split=> //.
- by rewrite /out (_append_x_ok Hi).
- move: Hsize; rewrite /out (_append_x_ok Hi) => Hsize.
  by apply/well_formedP; split.
Qed.

Lemma append_x_valid_witness :
  let e := (_append_phase (_append_cx (identity 3) 0 1).2 3 1).2 in
  [/\ well_formed e, valid e, in_bounds 1 3
    & valid (_append_x e 1).2].
Proof.
have Ve : valid (_append_phase (_append_cx (identity 3) 0 1).2 3 1).2.
  by apply/validP; vm_compute.
have [_ H _] :=
  @append_x_valid (_append_phase (_append_cx (identity 3) 0 1).2 3 1).2
                  1 isT Ve isT.
by split; [| | |exact: H].
Defined.

(** X6: A bit flip moves through a CX: [_append_x] on the control followed by
    [_append_cx] leaves the state that [_append_cx] followed by [_append_x] on
    the control and on the target leaves, and [_append_x] on the target
    commutes with [_append_cx]. *)
Theorem append_x_through_cx (e : CNOTDihedral) (control target : Z) :
  in_bounds control (num_qubits e) -> in_bounds target (num_qubits e) ->
  control <> target ->
  let cx e := (_append_cx e control target).2 in
  let x i e := (_append_x e i).2 in
  cx (x control e) = x target (x control (cx e))
  /\ cx (x target e) = x target (cx e).
Proof.
move=> Hc Ht Hne cx x.
have Hct := to_nat_inj_bounds Hc Ht Hne.
have Htc : Z.to_nat target != Z.to_nat control by rewrite eq_sym.
have Hcx a : num_qubits a = num_qubits e ->
    cx a = mkElem (num_qubits a)
             (xor_row (linear a) (Z.to_nat control) (Z.to_nat target))
             (setitem (shift a) (Z.to_nat target)
                ((nth 0%Z (items (shift a)) (Z.to_nat control)
                  + nth 0%Z (items (shift a)) (Z.to_nat target)) mod 2)%Z)
             (poly a).
  by move=> Ha; rewrite /cx _append_cx_xor_row ?Ha.
have Hx i a : num_qubits a = num_qubits e -> in_bounds i (num_qubits e) ->
    x i a = set_shift a
              (setitem (shift a) (Z.to_nat i)
                 ((nth 0%Z (items (shift a)) (Z.to_nat i) + 1) mod 2)%Z).
  by move=> Ha Hi; rewrite /x _append_x_ok ?Ha.
split.
- rewrite (Hx _ e) // (Hcx e) // !Hcx // !Hx //=.
  apply: elem_ext => //=.
  do 3!rewrite ?items_setitem ?nth_set_nth /= ?eqxx ?(negbTE Hct) ?(negbTE Htc).
  rewrite (setitem_swap _ _ _ Htc) setitem_twice.
  congr (setitem _ _ _).
  rewrite Z.add_mod_idemp_l // [in RHS]Z.add_mod_idemp_l //.
  by congr (_ mod 2)%Z; lia.
- rewrite (Hx _ e) // (Hcx e) // !Hcx // !Hx //=.
  apply: elem_ext => //=.
  do 3!rewrite ?items_setitem ?nth_set_nth /= ?eqxx ?(negbTE Hct) ?(negbTE Htc).
  rewrite !setitem_twice; congr (setitem _ _ _).
  rewrite Z.add_mod_idemp_r // [in RHS]Z.add_mod_idemp_l //.
  by congr (_ mod 2)%Z; lia.
Qed.

Lemma append_x_through_cx_witness :
  let e := (_append_cx (identity 3) 0 1).2 in
  [/\ in_bounds 1 3, in_bounds 2 3, (1 <> 2)%Z
    & (_append_cx (_append_x e 1).2 1 2).2
      = (_append_x (_append_x (_append_cx e 1 2).2 1).2 2).2].
Proof.
have Hne : (1 <> 2)%Z by [].
have [H _] :=
  @append_x_through_cx (_append_cx (identity 3) 0 1).2 1 2 isT isT Hne.
by split; [| |exact: Hne|exact: H].
Defined.

(** ** The loops of [_append_phase] *)

Lemma _append_phase_ok e k i :
  in_bounds i (num_qubits e) ->
  _append_phase e k i
  = (Ok tt,
     set_poly e
       (phase_loops
          (support_of (num_qubits e) (row (linear e) (Z.to_nat i)))
          (phase_power e k (Z.to_nat i)) (poly e))).
Proof. by rewrite /_append_phase => ->. Qed.

Lemma add_congr8 v c a b :
  (a mod 8 = b mod 8)%Z -> ((v + c * a) mod 8 = (v + c * b) mod 8)%Z.
Proof.
move=> H; rewrite -(Z.add_mod_idemp_r v (c * a)) // -(Z.mul_mod_idemp_r c a) //.
by rewrite H Z.mul_mod_idemp_r // Z.add_mod_idemp_r.
Qed.

(** The loops read the power modulo 8 only. *)
Lemma phase_loops_congr sup k1 k2 p :
  (k1 mod 8 = k2 mod 8)%Z -> phase_loops sup k1 p = phase_loops sup k2 p.
Proof.
move=> H; rewrite /phase_loops.
have E1 : (fun p j => set_term p [:: j] ((get_term p [:: j] + k1) mod 8)%Z)
          =2 (fun p j => set_term p [:: j] ((get_term p [:: j] + k2) mod 8)%Z).
  move=> q j; congr (set_term _ _ _).
  by rewrite -(Z.mul_1_l k1) -(Z.mul_1_l k2); apply: add_congr8.
have E2 : (fun p j => set_term p j ((get_term p j + -2 * k1) mod 8)%Z)
          =2 (fun p j => set_term p j ((get_term p j + -2 * k2) mod 8)%Z).
  by move=> q j; congr (set_term _ _ _); apply: add_congr8.
have E3 : (fun p j => set_term p j ((get_term p j + 4 * k1) mod 8)%Z)
          =2 (fun p j => set_term p j ((get_term p j + 4 * k2) mod 8)%Z).
  by move=> q j; congr (set_term _ _ _); apply: add_congr8.
by rewrite (eq_foldl_seq _ _ E1) (eq_foldl_seq _ _ E2) (eq_foldl_seq _ _ E3).
Qed.

Lemma phase_loops_shape sup k p :
  n_vars (phase_loops sup k p) = n_vars p
  /\ (poly_wf p -> poly_wf (phase_loops sup k p)).
Proof.
rewrite /phase_loops.
have [E1 W1] := foldl_set_term_shape
  (fun p j => ((get_term p [:: j] + k) mod 8)%Z) (fun j : nat => [:: j]) p sup.
set p1 := foldl _ p sup in E1 W1 *.
have [E2 W2] := foldl_set_term_shape
  (fun p j => ((get_term p j + -2 * k) mod 8)%Z) id p1 (combinations sup 2).
set p2 := foldl _ p1 _ in E2 W2 *.
have [E3 W3] := foldl_set_term_shape
  (fun p j => ((get_term p j + 4 * k) mod 8)%Z) id p2 (combinations sup 3).
by split; [rewrite E3 E2 E1|move=> Hp; apply/W3/W2/W1].
Qed.

(** The coefficients after the loops: the terms on the support have
    [(-2)^(d-1) k] added modulo 8, [d] their number of variables. *)
Lemma get_term_phase_loops n r k p u :
  n_vars p = n -> u \in terms n ->
  get_term (phase_loops (support_of n r) k p) u
  = if (u != [::]) && all (fun j => nth 0%Z r j != 0%Z) u
    then ((get_term p u + phase_factor (size u) * k) mod 8)%Z
    else get_term p u.
Proof.
move=> Hnp Hu.
set sup := support_of n r.
pose upd d (p : SpecialPolynomial) :=
  foldl (fun p t =>
           set_term p t ((get_term p t + phase_factor d * k) mod 8)%Z)
        p (combinations sup d).
have -> : phase_loops sup k p = upd 3 (upd 2 (upd 1 p)).
  rewrite /phase_loops /upd combinations1 foldl_map_seq.
  congr (foldl _ (foldl _ _ _) _).
  by apply: eq_foldl_seq => q t; rewrite /phase_factor Z.mul_1_l.
have Hshape d q : n_vars (upd d q) = n_vars q.
  by have [] := foldl_set_term_shape
       (fun p t => ((get_term p t + phase_factor d * k) mod 8)%Z) id q
       (combinations sup d).
have Hget d q : d <= 3 -> n_vars q = n ->
    get_term (upd d q) u
    = if all (fun j => nth 0%Z r j != 0%Z) u && (size u == d)
      then ((get_term q u + phase_factor d * k) mod 8)%Z else get_term q u.
  move=> Hd Hnq.
  rewrite /upd (get_term_foldl_update
                  (fun v => ((v + phase_factor d * k) mod 8)%Z)) ?Hnq //.
  - exact/combinations_uniq/support_uniq.
  - by move=> t; apply: subsets_support_terms.
  - by rewrite /sup mem_subsets_support.
have Hn1 : n_vars (upd 1 p) = n by rewrite Hshape.
have Hn2 : n_vars (upd 2 (upd 1 p)) = n by rewrite Hshape.
rewrite !Hget //.
case: (altP (u =P [::])) => [->|Hnu] /=; first by [].
have := term_size_bounds Hu Hnu.
case: (all _ u) => //=.
by case: (size u) => [|[|[|[|d]]]].
Qed.

Lemma phase_power_mod8 e k q :
  (phase_power e (k mod 8) q mod 8 = phase_power e k q mod 8)%Z.
Proof.
rewrite /phase_power; case: ifP => _; last by rewrite Z.mod_mod.
by rewrite Z.mul_mod_idemp_r.
Qed.

(** X7: [_append_phase] reads its power [k] modulo 8 only: the call with [k %
    8] leaves the state, or raises the error, of the call with [k], for every
    integer [k], negative ones included. *)
Theorem append_phase_mod8 (e : CNOTDihedral) (k i : Z) :
  _append_phase e (k mod 8) i = _append_phase e k i.
Proof.
case Hi: (in_bounds i (num_qubits e)); last by rewrite /_append_phase Hi.
rewrite !_append_phase_ok //; congr (_, set_poly _ _).
exact/phase_loops_congr/phase_power_mod8.
Qed.

Lemma phase_power_set_poly e p k q :
  phase_power (set_poly e p) k q = phase_power e k q.
Proof. by []. Qed.

Lemma phase_power_add e k1 k2 q :
  ((phase_power e k1 q + phase_power e k2 q) mod 8
   = phase_power e (k1 + k2) q mod 8)%Z.
Proof.
rewrite /phase_power; case: ifP => _ //.
by rewrite -Z.add_mod // Z.mod_mod // Z.mul_add_distr_l.
Qed.

Lemma phase_power_zero e k q :
  (k mod 8 = 0)%Z -> (phase_power e k q mod 8 = 0)%Z.
Proof.
move=> Hk; rewrite /phase_power; case: ifP => _ //.
by rewrite Z.mod_mod // -Z.mul_mod_idemp_r // Hk.
Qed.

(** The coefficients that [_append_phase] leaves. *)
Lemma get_term_append_phase e k i u :
  n_vars (poly e) = num_qubits e -> in_bounds i (num_qubits e) ->
  u \in terms (num_qubits e) ->
  get_term (poly (_append_phase e k i).2) u
  = if (u != [::]) && all (fun j => entry (linear e) (Z.to_nat i) j != 0%Z) u
    then ((get_term (poly e) u
           + phase_factor (size u) * phase_power e k (Z.to_nat i)) mod 8)%Z
    else get_term (poly e) u.
Proof.
by move=> Hv Hi Hu; rewrite _append_phase_ok //= get_term_phase_loops.
Qed.

(** What [_append_phase] leaves as it is. *)
Lemma append_phase_frame e k i :
  in_bounds i (num_qubits e) ->
  let e' := (_append_phase e k i).2 in
  [/\ _append_phase e k i = (Ok tt, e'), num_qubits e' = num_qubits e,
      linear e' = linear e, shift e' = shift e
    & n_vars (poly e') = n_vars (poly e)
      /\ (poly_wf (poly e) -> poly_wf (poly e'))].
Proof.
move=> Hi; rewrite _append_phase_ok //=; split=> //.
exact: phase_loops_shape.
Qed.

Lemma append_phase_well_formed e k i :
  well_formed e -> in_bounds i (num_qubits e) ->
  well_formed (_append_phase e k i).2.
Proof.
move=> /well_formedP [Hn Hv Hp Hl Hs] Hi.
have [_ En El Es [Ev Ew]] := append_phase_frame k Hi.
by apply/well_formedP; rewrite En El Es Ev; split=> //; apply: Ew.
Qed.

Lemma phase_power_append_phase e k' i k q :
  in_bounds i (num_qubits e) ->
  phase_power (_append_phase e k' i).2 k q = phase_power e k q.
Proof. by move=> Hi; rewrite _append_phase_ok. Qed.

(** Two calls on the same qubit add their powers. *)
Lemma append_phase_add e k1 k2 i :
  well_formed e -> in_bounds i (num_qubits e) ->
  (_append_phase (_append_phase e k1 i).2 k2 i).2
  = (_append_phase e (k1 + k2) i).2.
Proof.
move=> We Hi; case/well_formedP: (We) => Hn Hv Hp Hl Hs.
have W1 := append_phase_well_formed k1 We Hi.
have [_ En1 El1 Es1 [Ev1 Ew1]] := append_phase_frame k1 Hi.
have Hi1 : in_bounds i (num_qubits (_append_phase e k1 i).2) by rewrite En1.
have [_ En2 El2 Es2 [Ev2 Ew2]] := append_phase_frame k2 Hi1.
have [_ En3 El3 Es3 [Ev3 Ew3]] := append_phase_frame (k1 + k2) Hi.
apply: elem_ext; rewrite ?En2 ?En1 ?En3 ?El2 ?El1 ?El3 ?Es2 ?Es1 ?Es3 //.
apply: poly_ext; rewrite ?Ev2 ?Ev1 ?Ev3 //.
- exact/Ew2/Ew1.
- exact: Ew3.
move=> u; rewrite Hv => Hu.
rewrite get_term_append_phase ?Ev1 ?En1 // El1.
rewrite !(get_term_append_phase _ Hv Hi Hu) phase_power_append_phase //.
case: ((u != [::]) && _) => //.
rewrite Z.add_mod_idemp_l // -Z.add_assoc -Z.mul_add_distr_l.
exact/add_congr8/phase_power_add.
Qed.

(** A call with a multiple of 8 changes no coefficient that lies in
    [0..7]. *)
Lemma append_phase_zero e k i :
  well_formed e -> valid e -> in_bounds i (num_qubits e) ->
  (k mod 8 = 0)%Z -> (_append_phase e k i).2 = e.
Proof.
move=> We Ve Hi Hk; case/well_formedP: (We) => Hn Hv Hp Hl Hs.
have [_ En El Es [Ev Ew]] := append_phase_frame k Hi.
apply: elem_ext => //; apply: poly_ext; rewrite ?Ev //; first exact: Ew.
move=> u; rewrite Hv => Hu; rewrite (get_term_append_phase _ Hv Hi Hu).
case: ifP => // _.
have H0 := phase_power_zero e (Z.to_nat i) Hk.
rewrite (@add_congr8 _ _ _ 0%Z) ?H0 // Z.mul_0_r Z.add_0_r.
exact/Z.mod_small/valid_range.
Qed.

(** X8: [_append_phase] composes additively: the call with [k1] followed by
    the call with [k2] on the same qubit leaves the state of one call with [k1
    + k2]. *)
Theorem append_phase_additive (e : CNOTDihedral) (k1 k2 i : Z) :
  well_formed e -> in_bounds i (num_qubits e) ->
  _append_phase (_append_phase e k1 i).2 k2 i
  = (Ok tt, (_append_phase e (k1 + k2) i).2).
Proof.
move=> We Hi.
have [_ En1 _ _ _] := append_phase_frame k1 Hi.
have Hi1 : in_bounds i (num_qubits (_append_phase e k1 i).2) by rewrite En1.
have [-> _ _ _ _] := append_phase_frame k2 Hi1.
by rewrite append_phase_add.
Qed.

Lemma append_phase_additive_witness :
  let e := (_append_x (_append_cx (identity 3) 0 1).2 1).2 in
  [/\ well_formed e, in_bounds 1 3
    & _append_phase (_append_phase e 3 1).2 6 1
      = (Ok tt, (_append_phase e 9 1).2)].
Proof.
split; [by []|by []|].
exact: (@append_phase_additive (_append_x (_append_cx (identity 3) 0 1).2 1).2
          3 6 1 isT isT).
Defined.

(** X9: [_append_phase] is undone by the call with the opposite power: on a
    valid element, the call with [k] followed by the call with [-k] on the
    same qubit gives the element back, and so does a single call with a
    multiple of 8. *)
Theorem append_phase_inverse (e : CNOTDihedral) (k i : Z) :
  well_formed e -> valid e -> in_bounds i (num_qubits e) ->
  _append_phase (_append_phase e k i).2 (- k) i = (Ok tt, e)
  /\ _append_phase e (8 * k) i = (Ok tt, e).
Proof.
move=> We Ve Hi.
have [_ En1 _ _ _] := append_phase_frame k Hi.
have Hi1 : in_bounds i (num_qubits (_append_phase e k i).2) by rewrite En1.
have [-> _ _ _ _] := append_phase_frame (- k) Hi1.
have [-> _ _ _ _] := append_phase_frame (8 * k) Hi.
have Hz1 : ((k + - k) mod 8 = 0)%Z by rewrite Z.add_opp_diag_r.
have Hz2 : ((8 * k) mod 8 = 0)%Z by rewrite Z.mul_comm Z.mod_mul.
rewrite (append_phase_add _ _ We Hi).
by rewrite (append_phase_zero We Ve Hi Hz1) (append_phase_zero We Ve Hi Hz2).
Qed.

Lemma append_phase_inverse_witness :
  let e :=
    (_append_phase (_append_x (_append_cx (identity 3) 0 1).2 1).2 5 1).2 in
  [/\ well_formed e, valid e, in_bounds 1 3
    & _append_phase (_append_phase e 3 1).2 (- 3) 1 = (Ok tt, e)].
Proof.
have Ve : valid (_append_phase (_append_x (_append_cx (identity 3) 0 1).2 1).2
                               5 1).2.
  by apply/validP; vm_compute.
have [H _] :=
  @append_phase_inverse
     (_append_phase (_append_x (_append_cx (identity 3) 0 1).2 1).2 5 1).2
     3 1 isT Ve isT.
by split; [| | |exact: H].
Defined.

(** X10: Phase gates commute: two calls of [_append_phase], on the same qubit
    or on two different ones, leave the same state in either order. *)
Theorem append_phase_commute (e : CNOTDihedral) (k1 i1 k2 i2 : Z) :
  well_formed e -> in_bounds i1 (num_qubits e) -> in_bounds i2 (num_qubits e) ->
  _append_phase (_append_phase e k1 i1).2 k2 i2
  = _append_phase (_append_phase e k2 i2).2 k1 i1.
Proof.
move=> We H1 H2; case/well_formedP: (We) => Hn Hv Hp Hl Hs.
have [_ En1 El1 Es1 [Ev1 Ew1]] := append_phase_frame k1 H1.
have [_ En2 El2 Es2 [Ev2 Ew2]] := append_phase_frame k2 H2.
have H21 : in_bounds i2 (num_qubits (_append_phase e k1 i1).2) by rewrite En1.
have H12 : in_bounds i1 (num_qubits (_append_phase e k2 i2).2) by rewrite En2.
have [-> En3 El3 Es3 [Ev3 Ew3]] := append_phase_frame k2 H21.
have [-> En4 El4 Es4 [Ev4 Ew4]] := append_phase_frame k1 H12.
congr (_, _).
apply: elem_ext; rewrite ?En3 ?En4 ?En1 ?En2 ?El3 ?El4 ?El1 ?El2
                         ?Es3 ?Es4 ?Es1 ?Es2 //.
apply: poly_ext; rewrite ?Ev3 ?Ev4 ?Ev1 ?Ev2 //.
- exact/Ew3/Ew1.
- exact/Ew4/Ew2.
move=> u; rewrite Hv => Hu.
rewrite get_term_append_phase ?Ev1 ?En1 // El1.
rewrite [RHS]get_term_append_phase ?Ev2 ?En2 // El2.
rewrite (get_term_append_phase _ Hv H1 Hu) (get_term_append_phase _ Hv H2 Hu).
rewrite !phase_power_append_phase //.
set c1 := (_ && all (fun j => entry (linear e) (Z.to_nat i1) j != 0%Z) u).
set c2 := (_ && all (fun j => entry (linear e) (Z.to_nat i2) j != 0%Z) u).
case: c1; case: c2 => //.
rewrite !Z.add_mod_idemp_l //; congr (_ mod 8)%Z; lia.
Qed.

Lemma append_phase_commute_witness :
  let e := (_append_x (_append_cx (identity 3) 0 1).2 1).2 in
  [/\ well_formed e, in_bounds 1 3, in_bounds 0 3
    & _append_phase (_append_phase e 3 1).2 5 0
      = _append_phase (_append_phase e 5 0).2 3 1].
Proof.
split; [by []|by []|by []|].
exact: (@append_phase_commute (_append_x (_append_cx (identity 3) 0 1).2 1).2
          3 1 5 0 isT isT isT).
Defined.

(** X11: [_append_phase] keeps a valid element valid, for every integer power
    [k]: the coefficients it writes are reduced modulo 8, even for two
    variables and multiples of 4 for three. *)
Theorem append_phase_valid (e : CNOTDihedral) (k i : Z) :
  well_formed e -> valid e -> in_bounds i (num_qubits e) ->
  let out := _append_phase e k i in
  [/\ out.1 = Ok tt, valid out.2 & well_formed out.2].
Proof.
move=> We Ve Hi out; case/well_formedP: (We) => Hn Hv Hp Hl Hs.
have [Eo En El Es [Ev Ew]] := append_phase_frame k Hi.
have Wo := append_phase_well_formed k We Hi.
have Hwf := Ew Hp.
have Hget u : u \in terms (num_qubits e) ->
    get_term (poly out.2) u
    = if (u != [::]) && all (fun j => entry (linear e) (Z.to_nat i) j != 0%Z) u
      then ((get_term (poly e) u
             + phase_factor (size u) * phase_power e k (Z.to_nat i)) mod 8)%Z
      else get_term (poly e) u.
  exact: get_term_append_phase.
have Gr : graded 1 (poly out.2).
  move=> t; rewrite /out Ev Hv => Ht; rewrite Hget //.
  have Gt : Z.divide (2 ^ Z.of_nat (size t - 1)) (get_term (poly e) t).
    by apply: (valid_graded Ve Hv); rewrite Hv.
  case: ifP => // /andP [Hnt _].
  apply: divide_mod8; first exact: leq_trans (leq_subr _ _) (term_size_le3 Ht).
  apply: Z.divide_add_r => //; apply: Z.divide_mul_l.
  have := term_size_bounds Ht Hnt.
  case: (size t) => [|[|[|[|d]]]] //= _;
    [exact: Z.divide_refl|by exists (-1)%Z|by exists 1%Z].
have Rg c d : 0 < d <= 3 -> c \in weight (poly out.2) d -> (0 <= c < 8)%Z.
  move=> Hd Hc; have [t Ht ->] := weight_entry_term Hwf Hd Hc.
  have Ht' : t \in terms (num_qubits e).
    have /andP [_ Hd3] := Hd.
    by move: (monomials_terms Hd3 Ht); rewrite /out Ev Hv.
  rewrite Hget //; case: ifP => _; first exact: Z.mod_pos_bound.
  exact: valid_range.
have Vo : valid out.2.
  case: (Ve) => H0 Hsz Hdet _ Hbin.
  have [R1 R2 R3] := graded_ranges Hwf Gr (fun d c => @Rg c d).
  split; rewrite /out ?En ?El ?Es //.
  - have H00 : [::] \in terms (num_qubits e) by rewrite mem_terms sub0seq.
    by move: (Hget _ H00); rewrite /get_term /= => ->.
  - by case/and3P: Hwf; rewrite Ev Hv => /eqP -> /eqP -> /eqP ->.
by split=> //; rewrite /out Eo.
Qed.

Lemma append_phase_valid_witness :
  let e := (_append_x (_append_cx (identity 3) 0 1).2 1).2 in
  [/\ well_formed e, valid e, in_bounds 1 3
    & valid (_append_phase e (- 3) 1).2].
Proof.
have Ve : valid (_append_x (_append_cx (identity 3) 0 1).2 1).2.
  by apply/validP; vm_compute.
have [_ H _] :=
  @append_phase_valid (_append_x (_append_cx (identity 3) 0 1).2 1).2
                      (- 3) 1 isT Ve isT.
by split; [| | |exact: H].
Defined.

Lemma phase_power_flip e k q :
  nth 0%Z (items (shift e)) q \in [:: 0; 1]%Z ->
  ((if (nth 0%Z (items (shift e)) q + 1) mod 2 == 1 then (7 * k) mod 8 else k)
     mod 8
   = phase_power e (- k) q mod 8)%Z.
Proof.
rewrite /phase_power !inE => /orP [] /eqP ->.
  have -> : ((0 + 1) mod 2 == 1)%Z = true by [].
  have -> : (0%Z == 1%Z) = false by [].
  rewrite Z.mod_mod //.
  have -> : (7 * k = - k + k * 8)%Z by lia.
  by rewrite Z.mod_add.
have -> : ((1 + 1) mod 2 == 1)%Z = false by [].
have -> : (1%Z == 1%Z) = true by [].
rewrite Z.mod_mod //.
have -> : (7 * - k = k + (- k) * 8)%Z by lia.
by rewrite Z.mod_add.
Qed.

(** X12: A phase gate between two bit flips of its qubit is the opposite phase
    gate: [_append_x], [_append_phase] with [k] and [_append_x] again, all on
    qubit [i], leave the state of [_append_phase] with [-k] alone. *)
Theorem append_phase_between_x (e : CNOTDihedral) (k i : Z) :
  well_formed e -> binary_affine e -> in_bounds i (num_qubits e) ->
  (_append_x (_append_phase (_append_x e i).2 k i).2 i).2
  = (_append_phase e (- k) i).2.
Proof.
move=> /well_formedP [Hn Hv Hp Hl Hs] Hb Hi.
have Hq := in_bounds_to_nat Hi.
have Hx : nth 0%Z (items (shift e)) (Z.to_nat i) \in [:: 0; 1]%Z.
  by apply: shift_binary; rewrite ?Hs.
rewrite (_append_x_ok Hi) /= _append_phase_ok //= _append_x_ok //=.
rewrite (_append_phase_ok (- k) Hi).
apply: elem_ext => //=.
  rewrite items_setitem nth_set_nth /= eqxx setitem_twice (flip_flip Hx).
  by rewrite setitem_nth // Hs.
apply: phase_loops_congr.
rewrite {1}/phase_power /= items_setitem nth_set_nth /= eqxx.
exact: phase_power_flip.
Qed.

Lemma append_phase_between_x_witness :
  let e := (_append_cx (identity 3) 0 1).2 in
  [/\ well_formed e, binary_affine e, in_bounds 1 3
    & (_append_x (_append_phase (_append_x e 1).2 3 1).2 1).2
      = (_append_phase e (- 3) 1).2].
Proof.
split; [by []|by []|by []|].
exact: (@append_phase_between_x (_append_cx (identity 3) 0 1).2 3 1
          isT isT isT).
Defined.

(** X13: A phase gate commutes with the gates that leave its qubit alone:
    [_append_phase] on qubit [q] commutes with [_append_cx] whose target is
    another qubit ([q] may be the control) and with [_append_x] on another
    qubit. *)
Theorem append_phase_past_affine (e : CNOTDihedral) (k q c t : Z) :
  in_bounds q (num_qubits e) -> in_bounds c (num_qubits e) ->
  in_bounds t (num_qubits e) -> q <> t ->
  (_append_cx (_append_phase e k q).2 c t).2
  = (_append_phase (_append_cx e c t).2 k q).2
  /\ (_append_x (_append_phase e k q).2 t).2
     = (_append_phase (_append_x e t).2 k q).2.
Proof.
move=> Hq Hc Ht Hne.
have Hqt := to_nat_inj_bounds Hq Ht Hne.
split.
- rewrite (_append_phase_ok k Hq) /= _append_cx_xor_row //=.
  rewrite (_append_cx_xor_row Hc Ht) /= _append_phase_ok //=.
  apply: elem_ext => //=.
  rewrite /phase_power /= items_setitem nth_set_nth /= (negbTE Hqt).
  by rewrite row_xor_row.
- rewrite (_append_phase_ok k Hq) /= _append_x_ok //=.
  rewrite (_append_x_ok Ht) /= _append_phase_ok //=.
  apply: elem_ext => //=.
  by rewrite /phase_power /= items_setitem nth_set_nth /= (negbTE Hqt).
Qed.

Lemma append_phase_past_affine_witness :
  let e := (_append_x (_append_cx (identity 3) 0 1).2 1).2 in
  [/\ in_bounds 1 3, in_bounds 1 3, in_bounds 2 3, (1 <> 2)%Z
    & (_append_cx (_append_phase e 3 1).2 1 2).2
      = (_append_phase (_append_cx e 1 2).2 3 1).2].
Proof.
have Hne : (1 <> 2)%Z by [].
have [H _] :=
  @append_phase_past_affine (_append_x (_append_cx (identity 3) 0 1).2 1).2
     3 1 1 2 isT isT isT Hne.
by split; [| | |exact: Hne|exact: H].
Defined.

(** ** The constructor, [_is_valid] and [==] *)

(** X14: [CNOTDihedral(data, num_qubits=n)] with a positive [n] returns the
    identity element on [n] qubits, whatever [data] and [validate] are:
    [linear] the identity array, [shift] an array of zeros, the zero
    polynomial. That element satisfies the validity conditions, so the
    validation never raises. [num_qubits=0] is read as no [num_qubits]: with
    no [data] the constructor raises [QiskitError]. *)
Theorem init_num_qubits (data : init_data) (n : nat) (validate : bool) :
  (0 < n ->
   [/\ __init__ data (Some n) validate
       = Ok (mkElem n (np_eye n) (NdArray (np_zeros n))
                    (SpecialPolynomial_new n)),
       valid (identity n)
     & _is_valid (identity n) = Ok true])
  /\ __init__ data (Some 0) validate = __init__ data None validate
  /\ __init__ NoData (Some 0) validate
     = Raise (QiskitError "Invalid input type for CNOTDihedral class.").
Proof.
split; last by [].
case: n => [|n] // _.
have Hv : _is_valid (identity n.+1) = Ok true.
  by rewrite _is_valid_ndarray // validb_identity.
split=> //; last exact/validP/validb_identity.
by rewrite /__init__ /= -/(identity n.+1); case: validate; rewrite ?Hv.
Qed.

Lemma init_num_qubits_witness :
  0 < 4
  /\ __init__ (FromElement (identity 2)) (Some 4) true = Ok (identity 4).
Proof.
have [H _] := init_num_qubits (FromElement (identity 2)) 4 true.
by have [H1 _ _] := H isT.
Defined.

(** X15: [_is_valid] answers [True] only on an element that keeps [shift]
    in an array and whose stored values satisfy the conditions of validity
    that are read off them: a constant 0, the three numbers of
    coefficients, the shapes of [linear] and [shift], the three ranges of
    coefficients and binary entries.  On an element whose [shift] is an
    array it raises nothing, and it answers [False] as soon as one of these
    conditions fails. *)
Theorem is_valid_sound (e : CNOTDihedral) :
  [/\ _is_valid e = Ok true -> valid_fields e /\ is_ndarray (shift e),
      is_ndarray (shift e) -> exists b : bool, _is_valid e = Ok b
    & is_ndarray (shift e) -> ~ valid_fields e -> _is_valid e = Ok false].
Proof.
have Hf : valid e -> valid_fields e.
  by case=> H0 H1 [H2 H3 _] H4 H5; split.
split.
- by move=> /_is_valid_true [/Hf].
- by move=> Ha; rewrite _is_valid_ndarray //; exists (validb e).
- move=> Ha Hv; rewrite _is_valid_ndarray //.
  by case Hb: (validb e) => //; case: Hv; apply/Hf/validP.
Qed.

Lemma is_valid_sound_witness :
  let e := set_poly (identity 2) (set_weight_0 (poly (identity 2)) 1%Z) in
  is_ndarray (shift e) /\ ~ valid_fields e /\ _is_valid e = Ok false.
Proof.
have Hn : ~ valid_fields
            (set_poly (identity 2) (set_weight_0 (poly (identity 2)) 1%Z)).
  by case.
have [_ _ H] :=
  is_valid_sound (set_poly (identity 2) (set_weight_0 (poly (identity 2)) 1%Z)).
by split; [|split; [exact: Hn|exact: (H isT Hn)]].
Defined.

Lemma poly_eqP p q : reflect (p = q) (poly_eq p q).
Proof.
apply: (iffP idP) => [|->]; last exact: poly_eq_refl.
case: p q => n w0 w1 w2 w3 [n' w0' w1' w2' w3'] /and5P /=.
by case=> /eqP -> /eqP -> /eqP -> /eqP -> /eqP ->.
Qed.

(** X16: [==] on two elements: [e == e] answers [True] exactly when [shift] is
    an array; when it is a list, as in every element that [compose] returns,
    the comparison of the two lists is one boolean and its [.all()] raises
    [AttributeError]. On two elements with the shapes of the class, [==]
    answers [True] exactly when the polynomials, [linear] and the entries of
    [shift] are equal and one [shift] at least is an array. *)
Theorem eq_method_spec (a b : CNOTDihedral) :
  __eq__ a a
  = (if is_ndarray (shift a) then Ok true
     else Raise (AttributeError "bool object has no attribute all"))
  /\ (well_formed a -> well_formed b ->
      (__eq__ a b = Ok true
       <-> [/\ poly a = poly b, linear a = linear b,
               items (shift a) = items (shift b)
             & is_ndarray (shift a) || is_ndarray (shift b)])).
Proof.
split.
  rewrite /__eq__ poly_eq_refl eqxx /=.
  by case: (shift a) => s /=; rewrite ?eqxx.
move=> _ _; rewrite /__eq__; split.
  case: poly_eqP => //= ->; case: eqP => //= ->.
  by case: (shift a) => sa; case: (shift b) => sb //= [/eqP ->].
case=> -> -> Hs Hk; rewrite poly_eq_refl eqxx /=.
by move: Hs Hk; case: (shift a) => sa; case: (shift b) => sb //= -> _;
   rewrite eqxx.
Qed.

Lemma eq_method_spec_witness :
  let a := (_append_x (identity 2) 0).2 in
  [/\ well_formed a, well_formed (identity 2)
    & __eq__ a (identity 2) = Ok true -> linear a = linear (identity 2)].
Proof.
have [_ H] := eq_method_spec (_append_x (identity 2) 0).2 (identity 2).
have [H1 _] := H isT isT.
by split; [| |move=> /H1 []].
Defined.

Lemma compose_swap a b qargs :
  compose a b qargs true = compose b a qargs false.
Proof.
rewrite /compose; case: qargs => [q|] //.
rewrite eq_sym; case: ifP => // _.
by rewrite _dot_compose.
Qed.

(** X17: [compose] with [front=True] is [compose] with the operands swapped:
    [a.compose(b, front=True)] returns, or raises, what [b.compose(a)] does. *)
Theorem compose_front_swap (a b : CNOTDihedral) (qargs : option (seq nat)) :
  compose a b qargs true = compose b a qargs false.
Proof. exact: compose_swap. Qed.

(** ** The mutators as compositions with gate elements *)

(** [compose] with an element whose polynomial is zero. *)
Lemma compose_zero_poly e g :
  well_formed e -> valid e -> num_qubits g = num_qubits e ->
  poly g = SpecialPolynomial_new (num_qubits e) ->
  compose e g None false
  = Ok (mkElem (num_qubits e) (_z2matmul (linear g) (linear e))
          (PyList (zip_with (fun x y => ((x + y) mod 2)%Z)
                     (_z2matvecmul (linear g) (items (shift e)))
                     (items (shift g))))
          (poly e)).
Proof.
move=> /well_formedP [Hn Hv Hp Hl Hs] Ve Hg Hpg.
have Hr t : t \in terms (n_vars (poly e)) -> (0 <= get_term (poly e) t < 8)%Z.
  by move=> Ht; apply: valid_range => //; rewrite -Hv.
have H0 : weight_0 (poly e) = 0%Z by case: Ve.
rewrite /compose Hg eqxx /= _compose_ok //= Hpg evaluate_zero -Hv.
by rewrite (poly_add_zero_r Hp Hr) /set_poly /= set_weight_0_id.
Qed.

Lemma nth_shift_after_gate (m : matrix) (s g : seq Z) n i :
  has_shape m n n -> size s = n -> size g = n -> i < n ->
  nth 0%Z (zip_with (fun x y => ((x + y) mod 2)%Z) (_z2matvecmul m s) g) i
  = ((dotp (row m i) s + nth 0%Z g i) mod 2)%Z.
Proof.
move=> Hm Hs Hg Hi.
have Hsz : size (_z2matvecmul m s) = size g.
  by rewrite size_z2matvecmul (has_shape_size Hm) Hg.
have Hi' : i < size (_z2matvecmul m s) by rewrite Hsz Hg.
have Him : i < size m by rewrite (has_shape_size Hm).
rewrite (nth_zip_with _ Hsz Hi') (nth_z2matvecmul _ Him).
by rewrite Z.add_mod_idemp_l.
Qed.

Lemma size_shift_after_gate (m : matrix) (s g : seq Z) n :
  has_shape m n n -> size g = n ->
  size (zip_with (fun x y => ((x + y) mod 2)%Z) (_z2matvecmul m s) g) = n.
Proof.
move=> Hm Hg.
by rewrite size_zip_with size_z2matvecmul (has_shape_size Hm) Hg minnn.
Qed.

Lemma dotp_xor_row_eye n c t i s :
  c < n -> t < n -> i < n -> size s = n ->
  (dotp (row (xor_row (np_eye n) c t) i) s mod 2)%Z
  = (if i == t then (nth 0%Z s c + nth 0%Z s t) mod 2 else nth 0%Z s i mod 2)%Z.
Proof.
move=> Hc Ht Hi Hs.
have He := has_shape_np_eye n.
case: (altP (i =P t)) => [->|Hit]; last by rewrite row_xor_row // dotp_eye_row.
rewrite /xor_row /row nth_set_nth /= eqxx -!/(row _ _) /zip_with.
have Hrc : size (row (np_eye n) c) = n by apply: has_shape_row He Hc.
have Hrt : size (row (np_eye n) t) = n by apply: has_shape_row He Ht.
have Hz : size [seq (x.1 + x.2)%Z
               | x <- zip (row (np_eye n) c) (row (np_eye n) t)] = n.
  by rewrite size_map size_zip Hrc Hrt minnn.
have -> : [seq ((x.1 + x.2) mod 2)%Z
          | x <- zip (row (np_eye n) c) (row (np_eye n) t)]
          = [seq (y mod 2)%Z | y <- [seq (x.1 + x.2)%Z
                                    | x <- zip (row (np_eye n) c)
                                               (row (np_eye n) t)]].
  by rewrite -map_comp.
rewrite (dotp_mod2_l Hz Hs) (dotp_add Hrc Hrt Hs).
by rewrite (dotp_eye_row Hc Hs) (dotp_eye_row Ht Hs).
Qed.

(** X18: Appending an X gate is composing with the X gate: for a valid element
    [e], [e.compose(g)] with [g] the identity element after [_append_x(i)] has
    the [linear], the [shift] entries and the polynomial that [_append_x(i)]
    leaves in [e]; [g.compose(e, front=True)] returns the same. *)
Theorem compose_x_gate (e : CNOTDihedral) (i : Z) :
  well_formed e -> valid e -> in_bounds i (num_qubits e) ->
  let g := (_append_x (identity (num_qubits e)) i).2 in
  let e' := (_append_x e i).2 in
  exists r : CNOTDihedral,
    [/\ compose e g None false = Ok r /\ compose g e None true = Ok r,
        num_qubits r = num_qubits e', linear r = linear e',
        items (shift r) = items (shift e')
      & poly r = poly e'].
Proof.
move=> We Ve Hi g e'; case/well_formedP: (We) => Hn Hv Hp Hl Hs.
have Hq := in_bounds_to_nat Hi.
case: (Ve) => _ _ _ _ [Hbs Hbl].
have Eg : g = mkElem (num_qubits e) (np_eye (num_qubits e))
                (NdArray (set_nth 0%Z (np_zeros (num_qubits e)) (Z.to_nat i)
                                  1%Z))
                (SpecialPolynomial_new (num_qubits e)).
  by rewrite /g (_append_x_ok (e := identity _) Hi) /= /np_zeros nth_nseq Hq.
have Ee' : e' = set_shift e
                  (setitem (shift e) (Z.to_nat i)
                     ((nth 0%Z (items (shift e)) (Z.to_nat i) + 1) mod 2)%Z).
  by rewrite /e' (_append_x_ok Hi).
have Hsg : size (items (shift g)) = num_qubits e.
  by rewrite Eg /= size_set_nth size_nseq; apply/maxn_idPr.
eexists; split; first split.
- by rewrite compose_zero_poly // Eg.
- by rewrite compose_swap compose_zero_poly // Eg.
- by rewrite Ee'.
- by rewrite Ee' Eg /= z2matmul_eye_l.
- rewrite Ee' /= items_setitem; apply: (@eq_from_nth _ 0%Z).
    rewrite (size_shift_after_gate _ _ Hsg) ?Eg ?has_shape_np_eye //.
    by rewrite size_set_nth Hs; apply/esym/maxn_idPr.
  move=> j; rewrite (size_shift_after_gate _ _ Hsg) ?Eg ?has_shape_np_eye //.
  move=> Hj.
  rewrite -Eg (nth_shift_after_gate _ Hs Hsg Hj) ?Eg ?has_shape_np_eye //=.
  rewrite dotp_eye_row // !nth_set_nth /= nth_nseq Hj.
  case: (altP (j =P Z.to_nat i)) => [->|_] //.
  by rewrite Z.add_0_r; apply/mod2_binary/Hbs; rewrite mem_nth // Hs.
- by rewrite Ee'.
Qed.

Lemma compose_x_gate_witness :
  let e := (_append_phase (_append_cx (identity 3) 0 1).2 3 1).2 in
  [/\ well_formed e, valid e, in_bounds 1 3
    & exists r,
        compose e (_append_x (identity 3) 1).2 None false = Ok r
        /\ items (shift r) = items (shift (_append_x e 1).2)].
Proof.
have Ve : valid (_append_phase (_append_cx (identity 3) 0 1).2 3 1).2.
  by apply/validP; vm_compute.
have [r [[H1 _] _ _ H2 _]] :=
  @compose_x_gate (_append_phase (_append_cx (identity 3) 0 1).2 3 1).2
                  1 isT Ve isT.
by split; [| | |exists r; split; [exact: H1|exact: H2]].
Defined.

(** X19: Appending a CX gate is composing with the CX gate: for a valid
    element [e], [e.compose(g)] with [g] the identity element after
    [_append_cx(control, target)] has the [linear], the [shift] entries and
    the polynomial that [_append_cx(control, target)] leaves in [e];
    [g.compose(e, front=True)] returns the same. *)
Theorem compose_cx_gate (e : CNOTDihedral) (control target : Z) :
  well_formed e -> valid e ->
  in_bounds control (num_qubits e) -> in_bounds target (num_qubits e) ->
  let g := (_append_cx (identity (num_qubits e)) control target).2 in
  let e' := (_append_cx e control target).2 in
  exists r : CNOTDihedral,
    [/\ compose e g None false = Ok r /\ compose g e None true = Ok r,
        num_qubits r = num_qubits e', linear r = linear e',
        items (shift r) = items (shift e')
      & poly r = poly e'].
Proof.
move=> We Ve Hc Ht g e'; case/well_formedP: (We) => Hn Hv Hp Hl Hs.
have Hcn := in_bounds_to_nat Hc; have Htn := in_bounds_to_nat Ht.
case: (Ve) => _ _ _ _ [Hbs Hbl].
have Hx := has_shape_xor_row (has_shape_np_eye (num_qubits e)) Hcn Htn.
have Eg : g = mkElem (num_qubits e)
                (xor_row (np_eye (num_qubits e)) (Z.to_nat control)
                         (Z.to_nat target))
                (NdArray (set_nth 0%Z (np_zeros (num_qubits e))
                                  (Z.to_nat target) 0%Z))
                (SpecialPolynomial_new (num_qubits e)).
  rewrite /g (_append_cx_xor_row (e := identity _) Hc Ht) /=.
  by rewrite /np_zeros !nth_nseq Hcn Htn.
have Ee' : e' = mkElem (num_qubits e)
                  (xor_row (linear e) (Z.to_nat control) (Z.to_nat target))
                  (setitem (shift e) (Z.to_nat target)
                     ((nth 0%Z (items (shift e)) (Z.to_nat control)
                       + nth 0%Z (items (shift e)) (Z.to_nat target)) mod 2)%Z)
                  (poly e).
  by rewrite /e' (_append_cx_xor_row Hc Ht).
have Hsg : size (items (shift g)) = num_qubits e.
  by rewrite Eg /= size_set_nth size_nseq; apply/maxn_idPr.
eexists; split; first split.
- by rewrite compose_zero_poly // Eg.
- by rewrite compose_swap compose_zero_poly // Eg.
- by rewrite Ee'.
- by rewrite Ee' Eg /= (z2matmul_xor_row_eye Hl).
- rewrite Ee' /= items_setitem; apply: (@eq_from_nth _ 0%Z).
    rewrite (size_shift_after_gate _ _ Hsg) ?Eg //.
    by rewrite size_set_nth Hs; apply/esym/maxn_idPr.
  move=> j; rewrite (size_shift_after_gate _ _ Hsg) ?Eg //.
  move=> Hj; rewrite -Eg (nth_shift_after_gate _ Hs Hsg Hj) ?Eg //=.
  rewrite -Z.add_mod_idemp_l // dotp_xor_row_eye // !nth_set_nth /= nth_nseq Hj.
  rewrite if_same Z.add_0_r.
  case: (altP (j =P Z.to_nat target)) => [_|_]; first by rewrite Z.mod_mod.
  by rewrite Z.mod_mod //; apply/mod2_binary/Hbs; rewrite mem_nth // Hs.
- by rewrite Ee'.
Qed.

Lemma compose_cx_gate_witness :
  let e := (_append_phase (_append_x (identity 3) 0).2 3 1).2 in
  [/\ well_formed e, valid e, in_bounds 0 3, in_bounds 2 3
    & exists r,
        compose e (_append_cx (identity 3) 0 2).2 None false = Ok r
        /\ linear r = linear (_append_cx e 0 2).2].
Proof.
have Ve : valid (_append_phase (_append_x (identity 3) 0).2 3 1).2.
  by apply/validP; vm_compute.
have [r [[H1 _] _ H2 _ _]] :=
  @compose_cx_gate (_append_phase (_append_x (identity 3) 0).2 3 1).2
                   0 2 isT Ve isT isT.
by split; [| | | |exists r; split; [exact: H1|exact: H2]].
Defined.

(** ** The phase gate as an element *)

Lemma munion_nil_l n b : b \in terms n -> munion n [::] b = b.
Proof.
rewrite mem_terms => /andP [Hsub _].
rewrite [RHS](subseq_uniqP (iota_uniq 0 n) Hsub) /munion.
by apply: eq_filter => k; rewrite in_nil.
Qed.

Lemma get_term_mul_one n p u :
  u \in terms n ->
  get_term (poly_mul (poly_one n) p) u = (get_term p u mod 8)%Z.
Proof.
move=> Hu; rewrite get_term_mul n_vars_one // sumz_allpairs.
have H0 : [::] \in terms n by rewrite mem_terms sub0seq.
have -> : [seq sumz [seq (if munion n a b == u
                          then get_term (poly_one n) a * get_term p b
                          else 0)%Z | b <- terms n] | a <- terms n]
          = [seq (if a == [::] then get_term p u else 0)%Z | a <- terms n].
  apply/eq_in_map => a Ha; rewrite get_term_one //.
  case: (altP (a =P [::])) => [->|_]; last first.
    by apply: sumz_zero => b; case: ifP.
  have -> : [seq (if munion n [::] b == u then 1 * get_term p b else 0)%Z
            | b <- terms n]
            = [seq (if b == u then get_term p b else 0)%Z | b <- terms n].
    by apply/eq_in_map => b Hb; rewrite munion_nil_l // Z.mul_1_l.
  by rewrite sumz_indicator ?terms_uniq // Hu.
by rewrite sumz_indicator ?terms_uniq // H0.
Qed.

(** [evaluate] on a polynomial with one term. *)
Lemma evaluate_fold_single p xval t0 s acc :
  let n := n_vars p in
  let step := fun acc t =>
    let value := get_term p t in
    if value == 0%Z then acc
    else
      let newterm :=
        foldl poly_mul (poly_one n)
              [seq nth (SpecialPolynomial_new n) xval j | j <- t] in
      poly_add acc (poly_scale value newterm) in
  uniq s -> (forall u, u \in s -> u != t0 -> get_term p u = 0%Z) ->
  foldl step acc s
  = if (t0 \in s) && (get_term p t0 != 0%Z) then step acc t0 else acc.
Proof.
move=> n step; elim: s acc => [|x s IH] acc //= /andP [Hx Hs] H0.
have H0' u : u \in s -> u != t0 -> get_term p u = 0%Z.
  by move=> Hu; apply: H0; rewrite inE Hu orbT.
rewrite inE (IH _ Hs H0').
case: (altP (x =P t0)) => [E|N].
  rewrite E in Hx *; rewrite (negbTE Hx) eqxx /= /step.
  by case: (altP (get_term p t0 =P 0%Z)).
have -> : (t0 == x) = false by rewrite eq_sym; apply: negbTE.
have -> : step acc x = acc.
  by rewrite /step (H0 x) ?mem_head ?eqxx.
by [].
Qed.

Lemma evaluate_single p xval t0 :
  t0 \in terms (n_vars p) ->
  (forall u, u \in terms (n_vars p) -> u != t0 -> get_term p u = 0%Z) ->
  evaluate p xval
  = if get_term p t0 == 0%Z then SpecialPolynomial_new (n_vars p)
    else poly_add (SpecialPolynomial_new (n_vars p))
           (poly_scale (get_term p t0)
              (foldl poly_mul (poly_one (n_vars p))
                 [seq nth (SpecialPolynomial_new (n_vars p)) xval j
                 | j <- t0])).
Proof.
move=> Ht H0; rewrite /evaluate.
rewrite (evaluate_fold_single xval _ (terms_uniq _) H0) Ht /=.
by case: (get_term p t0 == 0%Z).
Qed.

(** The polynomial of the phase gate [T_q^k]: [k mod 8] times the
    variable [q]. *)
Lemma phase_gate_poly n k i :
  in_bounds i n ->
  poly (_append_phase (identity n) k i).2
  = set_term (SpecialPolynomial_new n) [:: Z.to_nat i] (k mod 8)%Z.
Proof.
move=> Hi; have Hq := in_bounds_to_nat Hi.
rewrite (_append_phase_ok (e := identity n) k Hi) /=.
rewrite support_eye // /phase_loops /phase_power /= /np_zeros nth_nseq Hq /=.
by rewrite get_term_new.
Qed.

Lemma all_support n r u :
  u \in terms n ->
  all (fun i => i \in support_of n r) u = all (fun j => nth 0%Z r j != 0%Z) u.
Proof.
rewrite mem_terms_sorted => /and3P [_ _ /allP Hlt].
apply: eq_in_all => j Hj.
by rewrite /support_of mem_filter mem_iota add0n /= (Hlt _ Hj) andbT.
Qed.

Lemma phase_gate_coeff d k (b : bool) :
  0 < d <= 3 ->
  (((k mod 8)
    * ((if b then ((-1) * ((-2) ^ Z.of_nat d.-1 mod 8)) mod 8
        else (-2) ^ Z.of_nat d.-1 mod 8) mod 8)) mod 8
   = (phase_factor d * (if b then (7 * k) mod 8 else k)) mod 8)%Z.
Proof.
case: d => [|[|[|[|d]]]] // _; case: b; rewrite /phase_factor.
all: cbn [Nat.pred Z.of_nat Pos.of_succ_nat Pos.succ].
all: try change ((-2) ^ 0)%Z with 1%Z; try change ((-2) ^ 1)%Z with (-2)%Z;
  try change ((-2) ^ 2)%Z with 4%Z.
all: try change (1 mod 8)%Z with 1%Z; try change (-2 mod 8)%Z with 6%Z;
  try change (4 mod 8)%Z with 4%Z.
all: try change (-1 * 1)%Z with (-1)%Z; try change (-1 * 6)%Z with (-6)%Z;
  try change (-1 * 4)%Z with (-4)%Z.
all: try change (-1 mod 8)%Z with 7%Z; try change (-6 mod 8)%Z with 2%Z;
  try change (-4 mod 8)%Z with 4%Z.
all: Z.div_mod_to_equations; lia.
Qed.

(** X20: Appending a phase gate is composing with the phase gate: for a valid
    element [e], [e.compose(g)] with [g] the identity element after
    [_append_phase(k, i)] has the [linear], the [shift] entries and the
    polynomial that [_append_phase(k, i)] leaves in [e]; [g.compose(e,
    front=True)] returns the same. The substitution of the variables by
    [evaluate], with its negated parity polynomial for a flipped qubit, adds
    what the loops of [_append_phase] add with the power [7 k]. *)
Theorem compose_phase_gate (e : CNOTDihedral) (k i : Z) :
  well_formed e -> valid e -> in_bounds i (num_qubits e) ->
  let g := (_append_phase (identity (num_qubits e)) k i).2 in
  let e' := (_append_phase e k i).2 in
  exists r : CNOTDihedral,
    [/\ compose e g None false = Ok r /\ compose g e None true = Ok r,
        num_qubits r = num_qubits e', linear r = linear e',
        items (shift r) = items (shift e')
      & poly r = poly e'].
Proof.
move=> We Ve Hi g e'; case/well_formedP: (We) => Hn Hv Hp Hl Hs.
set n := num_qubits e in Hn Hv Hl Hs Hi g *.
set q := Z.to_nat i.
have Hq : q < n := in_bounds_to_nat Hi.
case: (Ve) => H0 _ _ _ [Hbs Hbl].
have [_ Eng Elg Esg [Evg Ewg]] := append_phase_frame (e := identity n) k Hi.
rewrite -/g /= in Eng Elg Esg Evg Ewg.
have Epg : poly g = set_term (SpecialPolynomial_new n) [:: q] (k mod 8)%Z.
  exact: phase_gate_poly.
have [_ En' El' Es' [Ev' Ew']] := append_phase_frame k Hi.
rewrite -/e' in En' El' Es' Ev' Ew'.
have Hqt : [:: q] \in terms n by rewrite mem_terms_sorted /= Hq.
have Hgq u : u \in terms n ->
    get_term (poly g) u = if u == [:: q] then (k mod 8)%Z else 0%Z.
  by move=> Hu; rewrite Epg get_set_term // get_term_new.
set nv := [seq new_var n n (row (linear e) j) (nth 0%Z (items (shift e)) j)
          | j <- iota 0 n].
set r := mkElem n (_z2matmul (linear g) (linear e))
           (PyList (zip_with (fun x y => ((x + y) mod 2)%Z)
                      (_z2matvecmul (linear g) (items (shift e)))
                      (items (shift g))))
           (set_weight_0 (poly_add (poly e) (evaluate (poly g) nv)) 0%Z).
have Hc : compose e g None false = Ok r.
  by rewrite /compose Eng eqxx /= _compose_ok ?Eng.
exists r; split; first split=> //.
- by rewrite compose_swap.
- by rewrite En'.
- by rewrite El' /= Elg z2matmul_eye_l.
- by rewrite Es' /= Elg Esg /= shift_eye_zeros.
have [Ene Ewe] := evaluate_shape (poly g) nv.
have Hwa : poly_wf (poly_add (poly e) (evaluate (poly g) nv)).
  by apply: poly_wf_add => //; rewrite Ene Evg Hv.
apply: poly_ext => //=; first exact: Ew'.
rewrite Hv => u Hu.
rewrite get_term_set_weight_0 (get_term_append_phase _ Hv Hi Hu).
case: (altP (u =P [::])) => [->|Hnu] /=; first by rewrite /get_term /= H0.
rewrite get_term_add ?Ene ?Evg ?Hv //.
have Hrange : (0 <= get_term (poly e) u < 8)%Z by apply: valid_range.
have Hev : evaluate (poly g) nv
           = if (k mod 8 == 0)%Z then SpecialPolynomial_new n
             else poly_add (SpecialPolynomial_new n)
                    (poly_scale (k mod 8)
                       (poly_mul (poly_one n)
                          (new_var n n (row (linear e) q)
                                   (nth 0%Z (items (shift e)) q)))).
  rewrite (@evaluate_single _ _ [:: q]) Evg ?Hgq ?eqxx //=.
    by move=> t Ht /negbTE Hne; rewrite Hgq // Hne.
  by rewrite /nv (nth_map 0) ?size_iota // nth_iota.
have Hwm : poly_wf (poly_scale (k mod 8)
                      (poly_mul (poly_one n)
                         (new_var n n (row (linear e) q)
                                  (nth 0%Z (items (shift e)) q)))).
  exact/poly_wf_scale/poly_wf_mul.
have Hd := term_size_bounds Hu Hnu.
have Hcoef :
    (get_term (evaluate (poly g) nv) u mod 8
     = (if all (fun j => entry (linear e) q j != 0) u
        then phase_factor (size u) * phase_power e k q else 0) mod 8)%Z.
  have Hall : all (fun j => entry (linear e) q j != 0%Z) u
              = all (fun i => i \in support_of n (row (linear e) q)) u.
    by rewrite (all_support _ Hu).
  rewrite Hev; case: (altP ((k mod 8)%Z =P 0%Z)) => [Hk0|Hk0].
    rewrite get_term_new; case: ifP => // _.
    rewrite -Z.mul_mod_idemp_r // (phase_power_zero e q Hk0).
    by rewrite Z.mul_0_r.
  rewrite get_term_add ?poly_wf_new //= ?n_vars_one //.
  rewrite get_term_new Z.add_0_l Z.mod_mod //.
  rewrite get_term_scale ?poly_wf_mul //= ?n_vars_one // Z.mod_mod //.
  rewrite get_term_mul_one // get_term_new_var // (negbTE Hnu) /pj_coeff Hnu /=.
  rewrite -Hall /phase_power.
  case: (all _ u); first exact: phase_gate_coeff.
  by case: ifP => _; rewrite !Zmod_0_l Z.mul_0_r.
rewrite -Z.add_mod_idemp_r // Hcoef Z.add_mod_idemp_r //.
case: (all _ u) => //.
by rewrite Z.add_0_r Z.mod_small.
Qed.

Lemma compose_phase_gate_witness :
  let e := (_append_x (_append_cx (identity 3) 0 1).2 1).2 in
  [/\ well_formed e, valid e, in_bounds 1 3
    & exists r,
        compose e (_append_phase (identity 3) 3 1).2 None false = Ok r
        /\ poly r = poly (_append_phase e 3 1).2].
Proof.
have Ve : valid (_append_x (_append_cx (identity 3) 0 1).2 1).2.
  by apply/validP; vm_compute.
have [r [[H1 _] _ _ _ H2]] :=
  @compose_phase_gate (_append_x (_append_cx (identity 3) 0 1).2 1).2
                      3 1 isT Ve isT.
by split; [| | |exists r; split; [exact: H1|exact: H2]].
Defined.

(** ** The tensor product of valid elements *)

Lemma sumz_mul_r (T : Type) (f : T -> Z) (c : Z) (s : seq T) :
  sumz [seq (f x * c)%Z | x <- s] = (sumz [seq f x | x <- s] * c)%Z.
Proof. by elim: s => [|x s IH] //=; rewrite IH; lia. Qed.

Lemma sumz_cat (s t : seq Z) : sumz (s ++ t) = (sumz s + sumz t)%Z.
Proof. by elim: s => [|x s IH] //=; rewrite IH; lia. Qed.

Lemma delete_nth_cat_l (T : Type) j (s t : seq T) :
  j < size s -> delete_nth j (s ++ t) = delete_nth j s ++ t.
Proof.
move=> Hj; rewrite /delete_nth take_cat Hj drop_cat.
have -> : j.+1 < size s = (j.+1 != size s) by rewrite ltn_neqAle Hj andbT.
case: (altP (j.+1 =P size s)) => [E|_]; last by rewrite catA.
by rewrite -E subnn drop0 drop_oversize ?E // cats0.
Qed.

Lemma delete_nth_nseq (T : Type) j n (x : T) :
  j < n -> delete_nth j (nseq n x) = nseq n.-1 x.
Proof.
move=> Hj; apply: (@eq_from_nth _ x).
  rewrite /delete_nth size_cat size_take size_drop !size_nseq Hj.
  by case: n Hj => // n Hj; rewrite subSS subnKC.
by move=> k _; rewrite nth_delete_nth !nth_nseq !if_same.
Qed.

(** The determinant of a block diagonal array is the product of the
    determinants of the blocks. *)
Lemma det_rec_block_diag n (a b : matrix) nb :
  has_shape a n n ->
  det_rec (n + nb) (np_block_diag a n b nb) = (det_rec n a * det_rec nb b)%Z.
Proof.
elim: n a => [|n IH] a Ha.
  rewrite (size0nil (has_shape_size Ha)) add0n.
  have -> : np_block_diag [::] 0 b nb = b.
    by rewrite /np_block_diag /=; elim: (b) => [|x s IHs] //=; rewrite IHs.
  by change (det_rec 0 [::]) with 1%Z; rewrite Z.mul_1_l.
case: a Ha => [|r rest] Ha; first by move: (has_shape_size Ha).
have Hr : size r = n.+1 by apply: (has_shape_row Ha (i := 0)).
have Hrest x : x \in rest -> size x = n.+1.
  by case/andP: Ha => _ /= /andP [_ /allP H] /H /eqP.
have Hsz : size rest = n by move: (has_shape_size Ha) => /= [].
rewrite addSn /np_block_diag map_cons cat_cons !det_rec_cons.
rewrite -sumz_mul_r -addSn iotaD map_cat sumz_cat add0n.
have -> : sumz [seq (sign j * nth 0 (r ++ nseq nb 0) j
                     * det_rec (n + nb)
                         [seq delete_nth j x
                         | x <- [seq r0 ++ nseq nb 0 | r0 <- rest]
                                ++ [seq nseq n.+1 0 ++ r0 | r0 <- b]])%Z
               | j <- iota n.+1 nb] = 0%Z.
  have Hge j : j \in iota n.+1 nb -> n < j by rewrite mem_iota => /andP [].
  elim: (iota n.+1 nb) Hge => [|j s IHs] Hge //.
  have Hj : n < j by apply: Hge; rewrite mem_head.
  have Hs k : k \in s -> n < k by move=> Hk; apply: Hge; rewrite inE Hk orbT.
  rewrite map_cons [sumz (_ :: _)]/= -/(sumz _) (IHs Hs).
  by rewrite nth_cat Hr ltnNge Hj /= nth_nseq if_same Z.mul_0_r.
rewrite Z.add_0_r; congr sumz; apply/eq_in_map => j.
rewrite mem_iota add0n /= => Hj.
rewrite nth_cat Hr Hj -[RHS]Z.mul_assoc; congr (_ * _)%Z.
have Hm : has_shape [seq delete_nth j x | x <- rest] n n.
  rewrite /has_shape size_map Hsz eqxx /=.
  apply/allP => x /mapP [y Hy ->].
  rewrite /delete_nth size_cat size_take size_drop (Hrest _ Hy) Hj.
  by rewrite subSS subnKC.
rewrite -(IH _ Hm).
congr det_rec; rewrite /np_block_diag map_cat -!map_comp; congr (_ ++ _).
  by apply/eq_in_map => x Hx /=; rewrite delete_nth_cat_l // Hrest.
apply/eq_in_map => x Hx.
change (delete_nth j (nseq n.+1 0%Z ++ x) = nseq n 0%Z ++ x).
by rewrite delete_nth_cat_l ?size_nseq // delete_nth_nseq.
Qed.

Lemma det_block_diag (a b : matrix) na nb :
  has_shape a na na -> has_shape b nb nb ->
  det (np_block_diag a na b nb) = (det a * det b)%Z.
Proof.
move=> Ha Hb; rewrite /det (has_shape_size (has_shape_block_diag Ha Hb)).
by rewrite (has_shape_size Ha) (has_shape_size Hb) det_rec_block_diag.
Qed.

(** The coefficients of the polynomial that [_tensor] builds. *)
Lemma get_term_tensor_poly p0 p1 n0 n1 t :
  t \in terms (n0 + n1) ->
  get_term (copy_terms p1 n1 n0
              (copy_terms p0 n0 0 (SpecialPolynomial_new (n0 + n1)))) t
  = if t == [::] then 0%Z
    else if all (fun x => x < n0) t then get_term p0 t
    else if all (fun x => n0 <= x) t then get_term p1 (unshift n0 t)
    else 0%Z.
Proof.
move=> Ht.
set q0 := copy_terms p0 n0 0 (SpecialPolynomial_new (n0 + n1)).
have [E0 W0] := copy_terms_shape p0 n0 0 (SpecialPolynomial_new (n0 + n1)).
rewrite -/q0 /= in E0 W0.
have H0le : 0 + n0 <= n_vars (SpecialPolynomial_new (n0 + n1)).
  by rewrite add0n leq_addr.
have H1le : n0 + n1 <= n_vars q0 by rewrite E0.
rewrite (get_term_copy_terms _ H1le) ?E0 //.
rewrite /q0 (get_term_copy_terms _ H0le) //.
rewrite get_term_new unshift0 !mem_copy_writes.
move: Ht; rewrite mem_terms_sorted => /and3P [-> -> /allP Hlt] /=.
rewrite add0n.
case: (altP (t =P [::])) => //= Hnt.
have -> : all (fun x => n0 <= x < n0 + n1) t = all (fun x => n0 <= x) t.
  by apply: eq_in_all => x /Hlt ->; rewrite andbT.
case H1: (all (fun x => n0 <= x) t); case H0: (all (fun x => x < n0) t) => //.
case: t Hnt H0 H1 {Hlt} => [|a t] //= _ /andP [Ha _] /andP [Hb _].
by move: (leq_ltn_trans Hb Ha); rewrite ltnn.
Qed.

Lemma terms_low n0 n1 t :
  t \in terms (n0 + n1) -> all (fun x => x < n0) t -> t \in terms n0.
Proof. by rewrite !mem_terms_sorted => /and3P [-> -> _] ->. Qed.

Lemma terms_high n0 n1 t :
  t \in terms (n0 + n1) -> all (fun x => n0 <= x) t ->
  unshift n0 t \in terms n1 /\ size (unshift n0 t) = size t.
Proof.
rewrite !mem_terms_sorted /unshift size_map => /and3P [-> Hs /allP Hlt] Hall.
have /allP Hge := Hall.
split=> //=; apply/andP; split.
  rewrite sorted_map.
  apply: (sub_in_sorted _ Hall Hs) => x y Hx Hy /= Hxy.
  by rewrite ltn_sub2r // (leq_ltn_trans Hx Hxy).
apply/allP => y /mapP [x Hx ->].
by rewrite ltn_subLR ?Hge // Hlt.
Qed.

Lemma binary_block_diag a b na nb :
  binary_matrix a -> binary_matrix b ->
  binary_matrix (np_block_diag a na b nb).
Proof.
move=> Ha Hb r x; rewrite /np_block_diag mem_cat.
case/orP => /mapP [y Hy ->]; rewrite mem_cat => /orP [] Hx.
- exact: Ha Hy Hx.
- by move: Hx; rewrite mem_nseq => /andP [_ /eqP ->].
- by move: Hx; rewrite mem_nseq => /andP [_ /eqP ->].
- exact: Hb Hy Hx.
Qed.

(** X21: The tensor product of two valid elements whose [shift]s are
    arrays is an element that satisfies the five conditions of validity:
    the determinant of the block diagonal [linear] is the product of the
    two determinants, and every coefficient is a coefficient of an operand
    or 0.  [shift] of the result is an array. *)
Theorem tensor_valid (self other : CNOTDihedral) (reverse : bool) :
  well_formed self -> well_formed other -> valid self -> valid other ->
  is_ndarray (shift self) -> is_ndarray (shift other) ->
  exists r : CNOTDihedral,
    [/\ _tensor self other reverse = Ok (Element r), valid r, well_formed r
      & is_ndarray (shift r)].
Proof.
move=> Wself Wother Vself Vother Aself Aother.
set elem0 := if reverse then self else other.
set elem1 := if reverse then other else self.
have [W0 W1 V0 V1] :
  [/\ well_formed elem0, well_formed elem1, valid elem0 & valid elem1].
  by rewrite /elem0 /elem1; case: (reverse).
have [A0 A1] : is_ndarray (shift elem0) /\ is_ndarray (shift elem1).
  by rewrite /elem0 /elem1; case: (reverse).
case/well_formedP: (W0) => Hn0 Hv0 Hp0 Hl0 Hs0.
case/well_formedP: (W1) => Hn1 Hv1 Hp1 Hl1 Hs1.
set n0 := num_qubits elem0 in Hn0 Hv0 Hl0 Hs0.
set n1 := num_qubits elem1 in Hn1 Hv1 Hl1 Hs1.
have Hn : 0 < n0 + n1 by rewrite addn_gt0 Hn0.
set p := copy_terms (poly elem1) n1 n0
           (copy_terms (poly elem0) n0 0 (SpecialPolynomial_new (n0 + n1))).
set r := mkElem (n0 + n1)
           (np_block_diag (linear elem0) n0 (linear elem1) n1)
           (NdArray (items (shift elem0) ++ items (shift elem1))) p.
have Er : _tensor self other reverse = Ok (Element r) by rewrite _tensor_ok.
have [E0 Wq0] := copy_terms_shape (poly elem0) n0 0
                   (SpecialPolynomial_new (n0 + n1)).
have [E1 Wq1] := copy_terms_shape (poly elem1) n1 n0
                   (copy_terms (poly elem0) n0 0
                      (SpecialPolynomial_new (n0 + n1))).
have Hnp : n_vars p = n0 + n1 by rewrite /p E1 E0.
have Hwp : poly_wf p by apply/Wq1/Wq0/poly_wf_new.
have Wr : well_formed r.
  apply/well_formedP; split=> //=; first exact: has_shape_block_diag.
  by rewrite size_cat Hs0 Hs1.
have Hget t : t \in terms (n0 + n1) ->
    get_term p t
    = if t == [::] then 0%Z
      else if all (fun x => x < n0) t then get_term (poly elem0) t
      else if all (fun x => n0 <= x) t then get_term (poly elem1) (unshift n0 t)
      else 0%Z.
  exact: get_term_tensor_poly.
have Gr : graded 1 p.
  move=> t; rewrite Hnp => Ht; rewrite Hget //.
  case: ifP => _; first exact: Z.divide_0_r.
  case: ifP => [Hlow|_].
    by apply: (valid_graded V0 Hv0); rewrite Hv0; apply: terms_low Ht Hlow.
  case: ifP => [Hhigh|_]; last exact: Z.divide_0_r.
  have [Hu <-] := terms_high Ht Hhigh.
  by apply: (valid_graded V1 Hv1); rewrite Hv1.
have Rg d c : 0 < d <= 3 -> c \in weight p d -> (0 <= c < 8)%Z.
  move=> Hd Hc; have [t Ht ->] := weight_entry_term Hwp Hd Hc.
  have Ht' : t \in terms (n0 + n1).
    by have /andP [_ Hd3] := Hd; move: (monomials_terms Hd3 Ht); rewrite Hnp.
  rewrite Hget //; case: ifP => _ //.
  case: ifP => [Hlow|_].
    by apply: (valid_range V0 Hv0); apply: terms_low Ht' Hlow.
  case: ifP => [Hhigh|_] //.
  have [Hu _] := terms_high Ht' Hhigh.
  exact: (valid_range V1 Hv1).
have Vr : valid r.
  have [R1 R2 R3] := graded_ranges Hwp Gr Rg.
  case: (V0) => _ _ [_ _ D0] _ [Bs0 Bl0].
  case: (V1) => _ _ [_ _ D1] _ [Bs1 Bl1].
  split=> //=.
  - have H00 : [::] \in terms (n0 + n1) by rewrite mem_terms sub0seq.
    by move: (Hget _ H00); rewrite /get_term /=.
  - by case/and3P: Hwp; rewrite Hnp => /eqP -> /eqP -> /eqP ->.
  - split; first exact: has_shape_block_diag.
      by rewrite size_cat Hs0 Hs1.
    by rewrite det_block_diag // Z.mul_mod // D0 D1.
  - split; last exact: binary_block_diag.
    by move=> x; rewrite mem_cat => /orP [/Bs0|/Bs1].
by exists r; split.
Qed.

Lemma tensor_valid_witness :
  let a := (_append_phase (_append_cx (identity 2) 0 1).2 1 1).2 in
  let b := (_append_x (identity 1) 0).2 in
  [/\ well_formed a /\ is_ndarray (shift a),
      well_formed b /\ is_ndarray (shift b), valid a, valid b
    & exists r, _tensor a b true = Ok (Element r) /\ valid r].
Proof.
have Va : valid (_append_phase (_append_cx (identity 2) 0 1).2 1 1).2.
  by apply/validP; vm_compute.
have Vb : valid (_append_x (identity 1) 0).2 by apply/validP; vm_compute.
have [r [H1 H2 _ _]] :=
  @tensor_valid (_append_phase (_append_cx (identity 2) 0 1).2 1 1).2
                (_append_x (identity 1) 0).2 true isT isT Va Vb isT isT.
by split; [| | | |exists r; split; [exact: H1|exact: H2]].
Defined.

(** X22: The tensor product of two identity elements is the identity element
    on the sum of their numbers of qubits. *)
Theorem tensor_identity (n m : nat) (reverse : bool) :
  0 < n -> 0 < m ->
  _tensor (identity n) (identity m) reverse
  = Ok (Element (identity (if reverse then n + m else m + n))).
Proof.
move=> Hn Hm.
set n0 := if reverse then n else m.
set n1 := if reverse then m else n.
have -> : (if reverse then n + m else m + n) = n0 + n1.
  by rewrite /n0 /n1; case: (reverse).
have H0 : 0 < n0 by rewrite /n0; case: (reverse).
have H1 : 0 < n1 by rewrite /n1; case: (reverse).
have E0 : (if reverse then identity n else identity m) = identity n0.
  by rewrite /n0; case: (reverse).
have E1 : (if reverse then identity m else identity n) = identity n1.
  by rewrite /n1; case: (reverse).
have Hpos : 0 < n0 + n1 by rewrite addn_gt0 H0.
have /= := @_tensor_ok (identity n) (identity m) reverse.
rewrite E0 E1 /= => /(_ Hpos isT isT) ->.
congr (Ok (Element _)); apply: elem_ext => //=.
- apply: (matrix_ext (has_shape_block_diag (has_shape_np_eye n0)
                        (has_shape_np_eye n1)) (has_shape_np_eye _)).
  move=> i j Hi Hj; rewrite entry_block_diag ?has_shape_np_eye //.
  rewrite (entry_np_eye Hi Hj).
  case: (ltnP i n0) => Hi0; case: (ltnP j n0) => Hj0 /=.
  + by rewrite entry_np_eye.
  + by rewrite ltn_eqF // (leq_trans Hi0).
  + by rewrite gtn_eqF // (leq_trans Hj0).
  + rewrite entry_np_eye ?ltn_subLR //.
    by rewrite -(eqn_add2r n0) !subnK.
- by rewrite /np_zeros nseqD.
- apply: poly_ext.
  + by apply: (copy_terms_shape _ _ _ _).2; apply: (copy_terms_shape _ _ _ _).2;
       apply: poly_wf_new.
  + exact: poly_wf_new.
  + by rewrite (copy_terms_shape _ _ _ _).1 (copy_terms_shape _ _ _ _).1.
  + move=> t; rewrite (copy_terms_shape _ _ _ _).1 (copy_terms_shape _ _ _ _).1.
    move=> /= Ht; rewrite get_term_tensor_poly // !get_term_new.
    by do 3![case: ifP => _ //].
Qed.

Lemma tensor_identity_witness :
  0 < 2 /\ 0 < 3
  /\ _tensor (identity 2) (identity 3) true = Ok (Element (identity 5)).
Proof.
split; first by []. split; first by [].
exact: (@tensor_identity 2 3 true isT isT).
Defined.

(** ** The text of an element *)

Lemma append_assoc (a b c : string) :
  ((a ++ b) ++ c = a ++ (b ++ c))%string.
Proof. by elim: a => [|x a IH] //=; rewrite IH. Qed.

Lemma append_nil_r (a : string) : (a ++ "" = a)%string.
Proof. by elim: a => [|x a IH] //=; rewrite IH. Qed.

(** The inner loop writes the variables of the support of the row, with
    [" + "] before each but the first it writes. *)
Lemma str_columns_fold (self : CNOTDihedral) (r : nat) (cs : seq nat)
  (out : string) (wrote : bool) :
  let vars := [seq ("x_" ++ str_int c)%string
              | c <- [seq c <- cs | entry (linear self) r c != 0%Z]] in
  foldl (fun (st : string * bool) col =>
           if entry (linear self) r col != 0%Z then
             if st.2 then ((st.1 ++ (" + x_" ++ str_int col))%string, st.2)
             else ((st.1 ++ ("x_" ++ str_int col))%string, true)
           else st)
        (out, wrote) cs
  = ((out ++ ((if wrote && ~~ nilp vars then " + " else "")
              ++ String.concat " + " vars))%string,
     wrote || ~~ nilp vars).
Proof.
elim: cs out wrote => [|c cs IH] out wrote /=.
  by rewrite andbF orbF /= append_nil_r.
case: ifP => Hc /=; last exact: IH.
case: wrote => /=; rewrite IH /= append_assoc; congr (_ ++ _, _)%string.
  by case: [seq _ | c0 <- _] => [|y l] /=; rewrite ?append_nil_r ?append_assoc.
by case: [seq _ | c0 <- _] => [|y l] /=; rewrite ?append_nil_r ?append_assoc.
Qed.

Lemma str_columns_support self r out :
  (str_columns self r out).1
  = (out
     ++ String.concat " + "
          [seq ("x_" ++ str_int c)%string
          | c <- support_of (num_qubits self) (row (linear self) r)])%string.
Proof. by rewrite /str_columns str_columns_fold. Qed.

(** The outer loop writes the rows, with a comma after each but the
    last. *)
Lemma str_rows_fold (f : nat -> string) (m k : nat) (out : string) :
  foldl (fun out r =>
           if r != (m + k) - 1 then ((out ++ f r) ++ ",")%string
           else (out ++ f r)%string)
        out (iota m k)
  = (out ++ String.concat "," [seq f r | r <- iota m k])%string.
Proof.
elim: k m out => [|k IH] m out /=; first by rewrite append_nil_r.
have -> : m + k.+1 - 1 = m + k by rewrite addnS subn1.
have := IH m.+1; rewrite addSn subn1 /= => ->.
case: k {IH} => [|k] /=.
  by rewrite addn0 eqxx append_nil_r.
have -> : (m == m + k.+1) = false by rewrite -[X in X == _]addn0 eqn_add2l.
by rewrite /= !append_assoc.
Qed.

(** X23: The text that [__str__] returns: two header lines around the text of
    the polynomial, then, between [" ("] and [")"], the rows of the affine
    function separated by commas; a row is the list of the variables [x_c] of
    the columns [c] where [linear] is not 0, joined by [" + "], followed by ["
    + 1"] when its bit of [shift] is not 0 (so a row without variables but
    with the bit set reads [" + 1"]). *)
Theorem str_format (str_poly : SpecialPolynomial -> string)
  (e : CNOTDihedral) :
  __str__ str_poly e
  = ("phase polynomial = " ++ newline ++ str_poly (poly e) ++ newline
     ++ "affine function = " ++ newline ++ " ("
     ++ String.concat "," [seq affine_row_str e r | r <- iota 0 (num_qubits e)]
     ++ ")" ++ newline)%string.
Proof.
rewrite /__str__.
set out0 := (_ ++ " (")%string.
have -> : foldl (fun out r =>
                   let out := (str_columns e r out).1 in
                   let out :=
                     if nth 0%Z (items (shift e)) r != 0%Z
                     then (out ++ " + 1")%string else out in
                   if r != num_qubits e - 1 then (out ++ ",")%string else out)
                out0 (iota 0 (num_qubits e))
          = foldl (fun out r =>
                     if r != (0 + num_qubits e) - 1
                     then ((out ++ affine_row_str e r) ++ ",")%string
                     else (out ++ affine_row_str e r)%string)
                  out0 (iota 0 (num_qubits e)).
  apply: eq_foldl_seq => out r; cbv zeta; rewrite add0n.
  rewrite str_columns_support /affine_row_str.
  by case: (r != _); case: (nth _ _ r != _);
     rewrite ?append_nil_r ?append_assoc.
rewrite str_rows_fold /out0.
by rewrite !append_assoc.
Qed.

Lemma support_nonempty e r :
  valid e -> r < num_qubits e ->
  exists c cs, support_of (num_qubits e) (row (linear e) r) = c :: cs.
Proof.
case=> _ _ [Hl _ Hd] _ _ Hr.
case E: (support_of _ _) => [|c cs]; last by exists c, cs.
have Hz : all (fun x => x == 0%Z) (row (linear e) r).
  apply/(all_nthP 0%Z) => j; rewrite (has_shape_row Hl Hr) => Hj.
  have : j \notin support_of (num_qubits e) (row (linear e) r) by rewrite E.
  by rewrite /support_of mem_filter mem_iota add0n /= Hj andbT negbK.
have Hi : r < size (linear e) by rewrite (has_shape_size Hl).
by move: Hd; rewrite (det_zero_row Hi Hz).
Qed.

(** X24: In the text of a valid element every row of the affine function
    starts with a variable: [linear] is invertible, so none of its rows is
    zero, and the text of a row never starts with [" + 1"]. *)
Theorem str_valid_row (e : CNOTDihedral) (r : nat) :
  valid e -> r < num_qubits e ->
  exists (c : nat) (rest : string),
    [/\ c < num_qubits e, entry (linear e) r c <> 0%Z
      & affine_row_str e r = ("x_" ++ str_int c ++ rest)%string].
Proof.
move=> Ve Hr; have [c [cs E]] := support_nonempty Ve Hr.
have : c \in support_of (num_qubits e) (row (linear e) r) by rewrite E mem_head.
rewrite /support_of mem_filter mem_iota add0n /= => /andP [/eqP Hc Hcn].
exists c; rewrite /affine_row_str E /=.
case: cs {E} => [|d cs] /=.
  by eexists; split=> //; rewrite !append_assoc.
by eexists; split=> //; rewrite !append_assoc.
Qed.

Lemma str_valid_row_witness :
  let e := (_append_x (_append_cx (identity 3) 0 1).2 1).2 in
  valid e /\ 1 < num_qubits e
  /\ exists c rest, affine_row_str e 1 = ("x_" ++ str_int c ++ rest)%string.
Proof.
have Ve : valid (_append_x (_append_cx (identity 3) 0 1).2 1).2.
  by apply/validP; vm_compute.
have [c [rest [_ _ H]]] :=
  @str_valid_row (_append_x (_append_cx (identity 3) 0 1).2 1).2 1 Ve isT.
by split; [|split; [|exists c, rest]].
Defined.

(** ** Associativity of the affine part *)

Section AffineAssociativity.

Import GRing.Theory.
Local Open Scope ring_scope.

Lemma vecF2_z2matvecmul n (m : matrix) (v : seq Z) :
  has_shape m n n -> size v = n ->
  vecF2 n (_z2matvecmul m v) = mxF2 n m *m vecF2 n v.
Proof.
move=> Hm Hv; apply/matrixP => i j; rewrite !mxE.
have Hi : i < size m by rewrite (has_shape_size Hm).
rewrite (nth_z2matvecmul _ Hi) F2_mod2 (@dotp_F2 _ _ n) ?(has_shape_row Hm) //.
by apply: eq_bigr => k _; rewrite !mxE.
Qed.

Lemma vecF2_zip_add n (u v : seq Z) :
  size u = n -> size v = n ->
  vecF2 n (zip_with (fun x y => ((x + y) mod 2)%Z) u v) = vecF2 n u + vecF2 n v.
Proof.
move=> Hu Hv; apply/matrixP => i j; rewrite !mxE.
have Huv : size u = size v by rewrite Hu Hv.
have Hi : i < size u by rewrite Hu.
by rewrite (nth_zip_with _ Huv Hi) F2_mod2 F2_add.
Qed.

Lemma F2_inj_binary x y :
  x \in [:: 0; 1]%Z -> y \in [:: 0; 1]%Z -> F2 x = F2 y -> x = y.
Proof.
by rewrite !inE => /orP [] /eqP -> /orP [] /eqP -> //= /eqP;
   rewrite /F2 /= -val_eqE.
Qed.

Lemma mxF2_inj n (a b : matrix) :
  has_shape a n n -> has_shape b n n -> binary_matrix a -> binary_matrix b ->
  mxF2 n a = mxF2 n b -> a = b.
Proof.
move=> Ha Hb Ba Bb /matrixP H; apply: (matrix_ext Ha Hb) => i j Hi Hj.
apply: F2_inj_binary.
- exact: (binary_matrix_entry Ha).
- exact: (binary_matrix_entry Hb).
- by move: (H (Ordinal Hi) (Ordinal Hj)); rewrite !mxE.
Qed.

Lemma vecF2_inj n (u v : seq Z) :
  size u = n -> size v = n ->
  (forall x, x \in u -> x \in [:: 0; 1]%Z) ->
  (forall x, x \in v -> x \in [:: 0; 1]%Z) ->
  vecF2 n u = vecF2 n v -> u = v.
Proof.
move=> Hu Hv Bu Bv /matrixP H; apply: (@eq_from_nth _ 0%Z); first by rewrite Hu.
move=> i; rewrite Hu => Hi; apply: F2_inj_binary.
- by apply: Bu; rewrite mem_nth // Hu.
- by apply: Bv; rewrite mem_nth // Hv.
- by move: (H (Ordinal Hi) ord0); rewrite !mxE.
Qed.

Lemma binary_z2matmul a b : binary_matrix (_z2matmul a b).
Proof. by move=> r x /mapP [y _ ->] /mapP [z _ ->]; apply: binary_mod2. Qed.

Lemma binary_zip_add u v x :
  x \in zip_with (fun x y => ((x + y) mod 2)%Z) u v -> x \in [:: 0; 1]%Z.
Proof. by case/mapP => y _ ->; apply: binary_mod2. Qed.

(** The two ways to multiply three arrays modulo 2 agree, and so do the
    two ways to apply two affine maps to a vector. *)
Lemma z2matmul_assoc n (a b c : matrix) :
  has_shape a n n -> has_shape b n n -> has_shape c n n ->
  _z2matmul c (_z2matmul b a) = _z2matmul (_z2matmul c b) a.
Proof.
move=> Ha Hb Hc.
have Hba := has_shape_z2matmul Hb Ha.
have Hcb := has_shape_z2matmul Hc Hb.
apply: (mxF2_inj (has_shape_z2matmul Hc Hba) (has_shape_z2matmul Hcb Ha));
  try exact: binary_z2matmul.
by rewrite !mxF2_z2matmul // mulmxA.
Qed.

Lemma affine_shift_assoc n (b c : matrix) (sa sb sc : seq Z) :
  has_shape b n n -> has_shape c n n ->
  size sa = n -> size sb = n -> size sc = n ->
  zip_with (fun x y => ((x + y) mod 2)%Z)
    (_z2matvecmul c
       (zip_with (fun x y => ((x + y) mod 2)%Z) (_z2matvecmul b sa) sb))
    sc
  = zip_with (fun x y => ((x + y) mod 2)%Z)
      (_z2matvecmul (_z2matmul c b) sa)
      (zip_with (fun x y => ((x + y) mod 2)%Z) (_z2matvecmul c sb) sc).
Proof.
move=> Hb Hc Ha Hsb Hsc.
have Hcb := has_shape_z2matmul Hc Hb.
have S1 : size (_z2matvecmul b sa) = n.
  by rewrite size_z2matvecmul (has_shape_size Hb).
have S2 : size (zip_with (fun x y => ((x + y) mod 2)%Z) (_z2matvecmul b sa) sb)
          = n.
  by rewrite size_zip_with S1 Hsb minnn.
have S3 : size (_z2matvecmul c
                  (zip_with (fun x y => ((x + y) mod 2)%Z)
                     (_z2matvecmul b sa) sb)) = n.
  by rewrite size_z2matvecmul (has_shape_size Hc).
have S4 : size (_z2matvecmul (_z2matmul c b) sa) = n.
  by rewrite size_z2matvecmul (has_shape_size Hcb).
have S5 : size (_z2matvecmul c sb) = n.
  by rewrite size_z2matvecmul (has_shape_size Hc).
have S6 : size (zip_with (fun x y => ((x + y) mod 2)%Z) (_z2matvecmul c sb) sc)
          = n.
  by rewrite size_zip_with S5 Hsc minnn.
apply: (@vecF2_inj n); try exact: binary_zip_add.
- by rewrite size_zip_with S3 Hsc minnn.
- by rewrite size_zip_with S4 S6 minnn.
rewrite (vecF2_zip_add S3 Hsc) (vecF2_z2matvecmul Hc S2) (vecF2_zip_add S1 Hsb).
rewrite (vecF2_z2matvecmul Hb Ha) (vecF2_zip_add S4 S6).
rewrite (vecF2_z2matvecmul Hcb Ha) (vecF2_zip_add S5 Hsc).
rewrite (vecF2_z2matvecmul Hc Hsb) (mxF2_z2matmul Hc Hb).
by rewrite mulmxDr mulmxA addrA.
Qed.

End AffineAssociativity.

(** X25: The affine part of the composition is associative: for elements [a],
    [b] and [c] on the same number of qubits, [a.compose(b).compose(c)] and
    [a.compose(b.compose(c))] have the same [linear] and the same [shift],
    whatever the entries of the operands. *)
Theorem compose_affine_assoc (a b c : CNOTDihedral) :
  well_formed a -> well_formed b -> well_formed c ->
  num_qubits a = num_qubits b -> num_qubits b = num_qubits c ->
  exists ab bc l r : CNOTDihedral,
    [/\ compose a b None false = Ok ab, compose b c None false = Ok bc,
        compose ab c None false = Ok l, compose a bc None false = Ok r
      & [/\ num_qubits l = num_qubits r, linear l = linear r
          & shift l = shift r]].
Proof.
move=> /well_formedP [Hna Hva Hpa Hla Hsa] /well_formedP [Hnb Hvb Hpb Hlb Hsb].
move=> /well_formedP [Hnc Hvc Hpc Hlc Hsc] Hab Hbc.
have Hac : num_qubits a = num_qubits c by rewrite Hab.
rewrite -Hab in Hlb Hsb; rewrite -Hac in Hlc Hsc.
have Eab := _compose_ok Hna Hab.
have Ebc := _compose_ok Hnb Hbc.
set ab0 := mkElem _ _ _ _ in Eab.
set bc0 := mkElem _ _ _ _ in Ebc.
pose ab := set_poly ab0 (set_weight_0 (poly ab0) 0%Z).
pose bc := set_poly bc0 (set_weight_0 (poly bc0) 0%Z).
have Cab : compose a b None false = Ok ab.
  by rewrite /compose (_ : (num_qubits a != num_qubits b) = false) ?Eab //
             Hab eqxx.
have Cbc : compose b c None false = Ok bc.
  by rewrite /compose (_ : (num_qubits b != num_qubits c) = false) ?Ebc //
             Hbc eqxx.
have El := _compose_ok (self := ab) (other := c) Hna Hac.
have Er := _compose_ok (self := a) (other := bc) Hna Hab.
set l0 := mkElem _ _ _ _ in El.
set r0 := mkElem _ _ _ _ in Er.
exists ab, bc, (set_poly l0 (set_weight_0 (poly l0) 0%Z)),
       (set_poly r0 (set_weight_0 (poly r0) 0%Z)).
split=> //.
- by rewrite /compose (_ : (num_qubits ab != num_qubits c) = false) ?El //=
             Hac eqxx.
- by rewrite /compose (_ : (num_qubits a != num_qubits bc) = false) ?Er //=
             Hab eqxx.
- split=> //=; first exact: (z2matmul_assoc Hla Hlb Hlc).
  by rewrite (affine_shift_assoc Hlb Hlc Hsa Hsb Hsc).
Qed.

Lemma compose_affine_assoc_witness :
  let a := (_append_phase (_append_cx (identity 2) 0 1).2 1 1).2 in
  let b := (_append_x (identity 2) 0).2 in
  let c := (_append_cx (identity 2) 1 0).2 in
  [/\ well_formed a, well_formed b, well_formed c,
      num_qubits a = num_qubits b /\ num_qubits b = num_qubits c
    & exists ab bc l r,
        [/\ compose a b None false = Ok ab, compose b c None false = Ok bc,
            compose ab c None false = Ok l, compose a bc None false = Ok r
          & shift l = shift r]].
Proof.
have [ab [bc [l [r [H1 H2 H3 H4 [_ _ H5]]]]]] :=
  @compose_affine_assoc (_append_phase (_append_cx (identity 2) 0 1).2 1 1).2
     (_append_x (identity 2) 0).2 (_append_cx (identity 2) 1 0).2
     isT isT isT (erefl _) (erefl _).
by split; [| | | |exists ab, bc, l, r; split].
Defined.

(** ** Equality of composed elements *)

(** X26: [==] never answers [True] on two elements that [compose]
    returned: both keep [shift] in a list, and when the polynomials and
    the arrays [linear] agree the comparison of the two lists is one
    boolean, whose [.all()] raises [AttributeError].  In particular
    [r == r] raises for every element [r] that [compose] returned. *)
Theorem eq_after_compose (a b c d r1 r2 : CNOTDihedral)
  (qargs1 qargs2 : option (seq nat)) (front1 front2 : bool) :
  compose a b qargs1 front1 = Ok r1 -> compose c d qargs2 front2 = Ok r2 ->
  [/\ __eq__ r1 r2 <> Ok true,
      poly r1 = poly r2 -> linear r1 = linear r2 ->
        __eq__ r1 r2 = Raise (AttributeError "bool object has no attribute all")
    & __eq__ r1 r1 = Raise (AttributeError "bool object has no attribute all")].
Proof.
move=> /compose_shift_list H1 /compose_shift_list H2.
have E : __eq__ r1 r2
         = (if poly_eq (poly r1) (poly r2) && (linear r1 == linear r2)
            then Raise (AttributeError "bool object has no attribute all")
            else Ok false).
  rewrite /__eq__; case: (poly_eq _ _) => //=; case: (_ == _) => //=.
  by move: H1 H2; case: (shift r1) => // s1 _; case: (shift r2).
split.
- by rewrite E; case: ifP.
- by move=> Hp Hl; rewrite E Hp Hl poly_eq_refl eqxx.
- by rewrite /__eq__ poly_eq_refl eqxx /=; move: H1; case: (shift r1).
Qed.

Lemma eq_after_compose_witness :
  let r := mkElem 1 [:: [:: 1%Z]] (PyList [:: 0%Z]) (SpecialPolynomial_new 1) in
  compose (identity 1) (identity 1) None false = Ok r
  /\ __eq__ r r = Raise (AttributeError "bool object has no attribute all").
Proof.
have H : compose (identity 1) (identity 1) None false
         = Ok (mkElem 1 [:: [:: 1%Z]] (PyList [:: 0%Z])
                 (SpecialPolynomial_new 1)) by vm_compute.
by have [_ _ H3] := eq_after_compose H H.
Defined.

(** ** Associativity of the tensor product *)

Lemma block_diag_assoc (a b c : matrix) na nb nc :
  np_block_diag (np_block_diag a na b nb) (na + nb) c nc
  = np_block_diag a na (np_block_diag b nb c nc) (nb + nc).
Proof.
rewrite /np_block_diag !map_cat -!map_comp -catA; congr (_ ++ (_ ++ _)).
- by apply/eq_map => r /=; rewrite -catA -nseqD.
- by apply/eq_map => r /=; rewrite -catA.
- by apply/eq_map => r /=; rewrite catA -nseqD.
Qed.

Lemma all_unshift_lt na nb (t : seq nat) :
  all (fun x => na <= x) t ->
  all (fun x => x < nb) (unshift na t) = all (fun x => x < na + nb) t.
Proof.
move=> /allP H; rewrite /unshift all_map; apply: eq_in_all => x /H Hx /=.
by rewrite ltn_subLR.
Qed.

Lemma all_unshift_ge na nb (t : seq nat) :
  all (fun x => na <= x) t ->
  all (fun x => nb <= x) (unshift na t) = all (fun x => na + nb <= x) t.
Proof.
move=> /allP H; rewrite /unshift all_map; apply: eq_in_all => x /H Hx /=.
by rewrite leq_subRL.
Qed.

Lemma unshift_unshift na nb t : unshift nb (unshift na t) = unshift (na + nb) t.
Proof. by rewrite /unshift -map_comp; apply/eq_map => x /=; rewrite subnDA. Qed.

Lemma all_lt_weaken na nb (t : seq nat) :
  all (fun x => x < na) t -> all (fun x => x < na + nb) t.
Proof.
by move=> /allP H; apply/allP => x /H Hx; apply: leq_trans Hx (leq_addr _ _).
Qed.

Lemma all_ge_weaken na nb (t : seq nat) :
  all (fun x => na + nb <= x) t -> all (fun x => na <= x) t.
Proof.
by move=> /allP H; apply/allP => x /H; apply: leq_trans (leq_addr _ _).
Qed.

Lemma all_lt_ge_nil n (t : seq nat) :
  all (fun x => x < n) t -> all (fun x => n <= x) t -> t = [::].
Proof.
case: t => [|a t] //= /andP [Ha _] /andP [Hb _].
by move: (leq_ltn_trans Hb Ha); rewrite ltnn.
Qed.

(** X27: The tensor product is associative: for three elements with the
    array shapes of the class whose [shift]s are arrays,
    [a.tensor(b).tensor(c)] and [a.tensor(b.tensor(c))] are the same
    element: the same block diagonal [linear], the same [shift] and the
    same coefficient at every term. *)
Theorem tensor_assoc (a b c : CNOTDihedral) :
  well_formed a -> well_formed b -> well_formed c ->
  is_ndarray (shift a) -> is_ndarray (shift b) -> is_ndarray (shift c) ->
  exists ab bc l r : CNOTDihedral,
    [/\ tensor a b = Ok (Element ab), tensor b c = Ok (Element bc),
        tensor ab c = Ok (Element l), tensor a bc = Ok (Element r) & l = r].
Proof.
move=> /well_formedP [Hna Hva Hpa Hla Hsa] /well_formedP [Hnb Hvb Hpb Hlb Hsb].
move=> /well_formedP [Hnc Hvc Hpc Hlc Hsc] Aa Ab Ac.
set na := num_qubits a in Hna Hva Hla Hsa.
set nb := num_qubits b in Hnb Hvb Hlb Hsb.
set nc := num_qubits c in Hnc Hvc Hlc Hsc.
have Hab : 0 < na + nb by rewrite addn_gt0 Hna.
have Hbc : 0 < nb + nc by rewrite addn_gt0 Hnb.
have Eab := @_tensor_ok a b true Hab Aa Ab.
have Ebc := @_tensor_ok b c true Hbc Ab Ac.
rewrite -/na -/nb -/nc /= in Eab Ebc.
set pab := copy_terms _ _ _ _ in Eab.
set pbc := copy_terms _ _ _ _ in Ebc.
set ab := mkElem _ _ _ _ in Eab.
set bc := mkElem _ _ _ _ in Ebc.
have Habc : 0 < num_qubits ab + nc by rewrite addn_gt0 Hab.
have Habc' : 0 < na + num_qubits bc by rewrite addn_gt0 Hna.
have El := @_tensor_ok ab c true Habc isT Ac.
have Er := @_tensor_ok a bc true Habc' Aa isT.
rewrite -/na -/nc /= in El Er.
set pl := copy_terms _ _ _ _ in El.
set pr := copy_terms _ _ _ _ in Er.
set l := mkElem _ _ _ _ in El.
set r := mkElem _ _ _ _ in Er.
exists ab, bc, l, r; split=> //.
have Hnl : n_vars pl = na + nb + nc.
  by rewrite /pl (copy_terms_shape _ _ _ _).1 (copy_terms_shape _ _ _ _).1.
have Hnr : n_vars pr = na + nb + nc.
  by rewrite /pr (copy_terms_shape _ _ _ _).1 (copy_terms_shape _ _ _ _).1 /=
             addnA.
apply: elem_ext; rewrite /l /r /=.
- by rewrite addnA.
- exact: block_diag_assoc.
- by rewrite catA.
apply: poly_ext; rewrite ?Hnl ?Hnr //.
- by apply: (copy_terms_shape _ _ _ _).2; apply: (copy_terms_shape _ _ _ _).2;
     apply: poly_wf_new.
- by apply: (copy_terms_shape _ _ _ _).2; apply: (copy_terms_shape _ _ _ _).2;
     apply: poly_wf_new.
move=> t Ht.
have Ht' : t \in terms (na + (nb + nc)) by rewrite addnA.
rewrite /pl (get_term_tensor_poly _ _ Ht) /pr (get_term_tensor_poly _ _ Ht').
case: (altP (t =P [::])) => // Hnt.
case A1: (all (fun x => x < na) t).
  rewrite (all_lt_weaken nb A1) /pab get_term_tensor_poly ?(negbTE Hnt) ?A1 //.
  by apply: terms_low Ht _; apply: all_lt_weaken.
case A2: (all (fun x => na <= x) t).
  have [Hu Hsz] := terms_high Ht' A2.
  have Hnu : unshift na t != [::].
    by rewrite -size_eq0 Hsz size_eq0.
  rewrite /pbc (get_term_tensor_poly _ _ Hu) (negbTE Hnu).
  rewrite (all_unshift_lt nb A2) (all_unshift_ge nb A2) unshift_unshift.
  case B1: (all (fun x => x < na + nb) t) => //.
  by rewrite /pab get_term_tensor_poly ?(negbTE Hnt) ?A1 ?A2 //;
     apply: terms_low Ht B1.
case B1: (all (fun x => x < na + nb) t).
  by rewrite /pab get_term_tensor_poly ?(negbTE Hnt) ?A1 ?A2 //;
     apply: terms_low Ht B1.
case B2: (all (fun x => na + nb <= x) t) => //.
by rewrite (all_ge_weaken B2) in A2.
Qed.

Lemma tensor_assoc_witness :
  let a := (_append_phase (_append_cx (identity 2) 0 1).2 1 1).2 in
  let b := (_append_x (identity 1) 0).2 in
  let c := (_append_phase (identity 2) 3 0).2 in
  [/\ well_formed a /\ is_ndarray (shift a),
      well_formed b /\ is_ndarray (shift b),
      well_formed c /\ is_ndarray (shift c)
    & exists ab bc l,
        [/\ tensor a b = Ok (Element ab), tensor b c = Ok (Element bc),
            tensor ab c = Ok (Element l) & tensor a bc = Ok (Element l)]].
Proof.
have [ab [bc [l [r [H1 H2 H3 H4 H5]]]]] :=
  @tensor_assoc (_append_phase (_append_cx (identity 2) 0 1).2 1 1).2
     (_append_x (identity 1) 0).2 (_append_phase (identity 2) 3 0).2
     isT isT isT isT isT isT.
by split; [| | |exists ab, bc, l; split; rewrite // H5].
Defined.
